(** * Docent: the state-mutation proposal engine (StateGenerator.cpp)

    A shallow embedding of the six proposal operators and of the weighted
    dispatcher of [src/StateGenerator.cpp], with the properties of the
    search steps they emit.

    Conventions of the embedding.
    - [uint] is a 32-bit unsigned integer: a [Z] whose arithmetic wraps
      modulo [2^32] ([Uint.add], [Uint.sub]).
    - A [std::list] iterator into a sentence is the number of increments
      that separate it from [begin()].
    - The random source, the document state, the phrase-pair collection and
      the search step are declared in headers that are not part of the
      translated file; what the operators need of them is modelled from
      their contracts, and marked as such.
    - Code that can stop abnormally ([assert], an iterator moved or read
      outside its list, a loop that does not end) runs in the monad [M],
      whose outcome is either a value with the next random state or the
      reason of the abort. *)

From Stdlib Require Import ZArith NArith QArith List Bool Lia Permutation.
From Stdlib Require String.
Import ListNotations.
Import String.StringSyntax.
Open Scope Z_scope.

Set Implicit Arguments.

(* ------------------------------------------------------------------------- *)
(** ** Machine integers *)

Module Uint.
Definition modulus : Z := 2 ^ 32.
Definition wrap (z : Z) : Z := z mod modulus.
Definition add (a b : Z) : Z := wrap (a + b).
Definition sub (a b : Z) : Z := wrap (a - b).
End Uint.

Abbreviation uint := Z.
Infix "+u" := Uint.add (at level 50, left associativity).
Infix "-u" := Uint.sub (at level 50, left associativity).

(** [Float] parameters (the decays and the right-move preference) only select
    the distribution the random source draws from; they never enter the index
    arithmetic. *)
Definition Float := Q.

(* ------------------------------------------------------------------------- *)
(** ** Data model *)

Definition Word := N.
(** A coverage bitmap is a bit set over source positions: bit [i] of the
    number is position [i]. *)
Definition CoverageBitmap := N.
Definition PhrasePair := list Word.
(** [std::pair<CoverageBitmap, PhrasePair>]: [fst] is the C++ member [first]. *)
Definition AnchoredPhrasePair := (CoverageBitmap * PhrasePair)%type.
Definition PhraseSegmentation := list AnchoredPhrasePair.

Definition AnchoredPhrasePair_eq_dec (a b : AnchoredPhrasePair) : {a = b} + {a <> b}.
Proof.
  decide equality; [apply (list_eq_dec N.eq_dec) | apply N.eq_dec].
Defined.

(** [operator==] on anchored phrase pairs. *)
Definition pair_eqb (a b : AnchoredPhrasePair) : bool :=
  if AnchoredPhrasePair_eq_dec a b then true else false.

(** Number of trailing zero bits: the index of the lowest set bit. *)
Fixpoint lowestBit (p : positive) : N :=
  match p with
  | xO p' => N.succ (lowestBit p')
  | _ => 0%N
  end.

Definition npos : N := (2 ^ 64 - 1)%N.

(** First covered source position; [npos] for an empty bitmap. *)
Definition find_first (c : CoverageBitmap) : N :=
  match c with
  | N0 => npos
  | Npos p => lowestBit p
  end.

(** Modelled from the spec: [CompareAnchoredPhrasePairs] (the spec's
    [compareByAnchor]) is declared in PhrasePair.h, which is missing; it
    orders pairs left to right by minimum covered source position. *)
Definition CompareAnchoredPhrasePairs (a b : AnchoredPhrasePair) : bool :=
  (find_first (fst a) <? find_first (fst b))%N.

(* ------------------------------------------------------------------------- *)
(** ** The random source and the monad of the operators *)

(** Modelled from the spec: [Random] (Random.h is missing).  The source is an
    unbounded sequence of raw draws and a cursor; each call consumes one raw
    draw and maps it into the range its contract promises.  Which values come
    up is left open, so a statement for every [Random] is a statement for
    every outcome the contract allows. *)
Record Random : Type := mkRandom {
  source : nat -> Z;
  cursor : nat
}.

Inductive failure : Type :=
| AssertionFailed   (* an [assert] does not hold *)
| Undefined         (* an iterator or an index leaves its container *)
| OutOfFuel.        (* the dispatcher loop was cut off *)

Inductive outcome (A : Type) : Type :=
| Returns (a : A) (rnd : Random)
| Aborts (f : failure).
Arguments Aborts {A} f.

Definition M (A : Type) : Type := Random -> outcome A.

Definition ret {A} (a : A) : M A := fun rnd => Returns a rnd.
Definition abort {A} (f : failure) : M A := fun _ => Aborts f.
Definition bind {A B} (m : M A) (k : A -> M B) : M B :=
  fun rnd =>
    match m rnd with
    | Returns a rnd' => k a rnd'
    | Aborts f => Aborts f
    end.

Declare Scope monad_scope.
Delimit Scope monad_scope with monad.
Notation "x <- m ;; k" := (bind m (fun x => k))
  (at level 61, m at next level, right associativity) : monad_scope.
Notation "' pat <- m ;; k" := (bind m (fun x => match x with pat => k end))
  (at level 61, pat pattern, m at next level, right associativity) : monad_scope.
Notation "m ;; k" := (bind m (fun _ => k))
  (at level 61, right associativity) : monad_scope.
Open Scope monad_scope.

(** [assert(b)] *)
Definition assert (b : bool) : M unit :=
  if b then ret tt else abort AssertionFailed.

(** The random state after one raw draw. *)
Definition consume (rnd : Random) : Random :=
  mkRandom (source rnd) (S (cursor rnd)).

(** The raw draw under the cursor. *)
Definition peek (rnd : Random) : Z := source rnd (cursor rnd).

(** One raw draw. *)
Definition nextRaw : M Z :=
  fun rnd => Returns (peek rnd) (consume rnd).

(** [uniformInt(n)]: an integer in [[0, n)]; there is none when [n = 0]. *)
Definition drawFromRange (noptions : uint) : M uint :=
  if noptions <=? 0 then abort Undefined
  else r <- nextRaw ;; ret (r mod noptions).

(** [geometric(decay, maxInclusive)]: an integer in [[0, maxInclusive]]. *)
Definition drawFromGeometricDistribution (decay : Float) (maxInclusive : uint) : M uint :=
  if maxInclusive <? 0 then abort Undefined
  else r <- nextRaw ;; ret (r mod (maxInclusive + 1)).

(** [coin(p)] *)
Definition flipCoin (p : Float) : M bool :=
  r <- nextRaw ;; ret (Z.odd r).

(** The functor of [getUintGenerator()]: [g(n)] is in [[0, n)]. *)
Definition uintGenerator (n : uint) : M uint := drawFromRange n.

(** [selectCumulative(cumWeights)]: the index of a bucket. *)
Definition drawFromCumulativeDistribution (cumulative : list Float) : M uint :=
  drawFromRange (Uint.wrap (Z.of_nat (length cumulative))).

(* ------------------------------------------------------------------------- *)
(** ** The standard algorithms the operators call *)

Section Algorithms.
Variable A : Type.
Variable eqb : A -> A -> bool.

(** Length of the longest common prefix: how far [std::mismatch] advances
    both iterators. *)
Fixpoint commonPrefix (l1 l2 : list A) : nat :=
  match l1, l2 with
  | x :: l1', y :: l2' => if eqb x y then S (commonPrefix l1' l2') else O
  | _, _ => O
  end.

(** [std::mismatch(first1, last1, first2)]: the offset of the first
    difference.  The second range has no end of its own: the call is
    undefined when it is exhausted before the first one. *)
Definition mismatch (l1 l2 : list A) : M nat :=
  let p := commonPrefix l1 l2 in
  if (p =? length l2)%nat && (p <? length l1)%nat then abort Undefined
  else ret p.

(** The elements of [[b, e)], for two iterators into [l]. *)
Definition between (l : list A) (b e : nat) : list A :=
  firstn (e - b) (skipn b l).

(** Copying the range [[b, e)]: both iterators must lie in the container
    and [e] must be reachable from [b]. *)
Definition copyRange (l : list A) (b e : nat) : M (list A) :=
  if (b <=? e)%nat && (e <=? length l)%nat then ret (between l b e)
  else abort Undefined.

(** [*it] for the iterator at offset [i]. *)
Definition deref (l : list A) (i : nat) : M A :=
  match nth_error l i with
  | Some x => ret x
  | None => abort Undefined
  end.

(** [std::adjacent_find(first, last, pred)]: the offset of the first
    element that satisfies [pred] with its successor, the length of the
    range when there is none. *)
Fixpoint adjacent_find (pred : A -> A -> bool) (l : list A) : nat :=
  match l with
  | x :: (y :: _) as tl => if pred x y then O else S (adjacent_find pred tl)
  | [_] => 1%nat
  | [] => O
  end.

(** [std::sort(first, last, comp)], as an insertion sort. *)
Fixpoint insertSorted (comp : A -> A -> bool) (x : A) (l : list A) : list A :=
  match l with
  | [] => [x]
  | y :: l' => if comp y x then y :: insertSorted comp x l' else x :: l
  end.

Fixpoint sort (comp : A -> A -> bool) (l : list A) : list A :=
  match l with
  | [] => []
  | x :: l' => insertSorted comp x (sort comp l')
  end.

(** [std::iter_swap] on the elements at offsets [i] and [j]. *)
Definition assign (l : list A) (i : nat) (x : A) : list A :=
  firstn i l ++ match skipn i l with [] => [] | _ :: tl => x :: tl end.

Definition iter_swap (l : list A) (i j : nat) : list A :=
  match nth_error l i, nth_error l j with
  | Some x, Some y => assign (assign l i y) j x
  | _, _ => l
  end.

(** The loop of [std::random_shuffle(first, last, rand)]:
    [for (i = first + 1; i != last; ++i) iter_swap(i, first + rand((i - first) + 1))],
    with [todo] the number of positions still to visit. *)
Fixpoint shuffleFrom (todo : nat) (i : nat) (l : list A) : M (list A) :=
  match todo with
  | O => ret l
  | S todo' =>
      j <- uintGenerator (Z.of_nat i + 1) ;;
      shuffleFrom todo' (S i)
        (if (i =? Z.to_nat j)%nat then l else iter_swap l i (Z.to_nat j))
  end.

Definition random_shuffle (l : list A) : M (list A) :=
  match l with
  | [] => ret l
  | _ :: tl => shuffleFrom (length tl) 1 l
  end.
End Algorithms.

(** [std::not2(comp)] *)
Definition not2 {A} (comp : A -> A -> bool) : A -> A -> bool :=
  fun x y => negb (comp x y).

(* ------------------------------------------------------------------------- *)
(** ** Document state, phrase-pair collection, search step *)

(** Modelled from the spec: [PhrasePairCollection] (PhrasePairCollection.h is
    missing).  Both proposals are sampled, so they read and advance the
    random source; they always return. *)
Record PhrasePairCollection : Type := mkCollection {
  proposeAlternativeTranslation : AnchoredPhrasePair -> Random -> AnchoredPhrasePair * Random;
  proposeSegmentation : CoverageBitmap -> Random -> PhraseSegmentation * Random;
  getSentenceLength : uint
}.

Definition call {A} (f : Random -> A * Random) : M A :=
  fun rnd => let (a, rnd') := f rnd in Returns a rnd'.

(** Modelled from the spec: [DocumentState] (DocumentState.h is missing), as
    far as the operators read it. *)
Record DocumentState : Type := mkDocument {
  getPhraseSegmentations : list PhraseSegmentation;
  getPhraseTranslations : list PhrasePairCollection
}.

(** [doc.drawSentence(rnd)]: the index of one of the document's sentences. *)
Definition drawSentence (doc : DocumentState) : M uint :=
  drawFromRange (Uint.wrap (Z.of_nat (length (getPhraseSegmentations doc)))).

(** [sentences[sentno]] and [*phraseTranslations[sentno]] *)
Definition sentenceAt (doc : DocumentState) (sentno : uint) : M PhraseSegmentation :=
  deref (getPhraseSegmentations doc) (Z.to_nat sentno).

Definition collectionAt (doc : DocumentState) (sentno : uint) : M PhrasePairCollection :=
  deref (getPhraseTranslations doc) (Z.to_nat sentno).

(** [sent.size()], stored in a [uint]. *)
Definition size (sent : PhraseSegmentation) : uint :=
  Uint.wrap (Z.of_nat (length sent)).

Inductive StateOperation : Type :=
| ChangePhraseTranslationOperation
| PermutePhrasesOperation (phrasePermutationDecay_ : Float)
| LinearisePhrasesOperation (phraseLinearisationDecay_ : Float)
| SwapPhrasesOperation (swapDistanceDecay_ : Float)
| MovePhrasesOperation (blockSizeDecay_ rightMovePreference_ rightDistanceDecay_ leftDistanceDecay_ : Float)
| ResegmentOperation (phraseResegmentationDecay_ : Float).

(** The arguments of one [addModification] call, in its order: the sentence,
    the index range [[from, to)], the iterator range [[from_it, to_it)] into
    the current segmentation, and the proposed replacement. *)
Record Modification : Type := mkModification {
  sentno : uint;
  from : uint;
  to : uint;
  from_it : nat;
  to_it : nat;
  proposal : PhraseSegmentation
}.

(** [SearchStep]: the operation that made it and its modifications, in the
    order they were added (the cloned feature states carry no information
    about the segmentation and are left out). *)
Record SearchStep : Type := mkSearchStep {
  operation : StateOperation;
  getModifications : list Modification
}.

Definition addModification (step : SearchStep) (m : Modification) : SearchStep :=
  mkSearchStep (operation step) (getModifications step ++ [m]).

Definition newSearchStep (op : StateOperation) : SearchStep := mkSearchStep op [].

(** [std::advance(it, n)] from offset [it]: the iterator must stay in the
    list, [end()] included. *)
Definition advance (sent : PhraseSegmentation) (it n : nat) : M nat :=
  if (it + n <=? length sent)%nat then ret (it + n)%nat else abort Undefined.

(* ------------------------------------------------------------------------- *)
(** ** The operators *)

(** The common opening of the operators that need two phrases:
    [do { sentno = doc.drawSentence(rnd); sentsize = sentences[sentno].size(); }
     while(sentsize < 2 && trials++ < 10);]
    [retries] is [10 - trials]: the test [trials++ < 10] holds while it is
    positive and fails once it is zero. *)
Fixpoint drawLongSentence (retries : nat) (doc : DocumentState) : M (uint * uint) :=
  sentno <- drawSentence doc ;;
  sent <- sentenceAt doc sentno ;;
  let sentsize := size sent in
  if sentsize <? 2 then
    match retries with
    | S retries' => drawLongSentence retries' doc
    | O => ret (sentno, sentsize)
    end
  else ret (sentno, sentsize).

Module ChangePhraseTranslationOperation.

Definition createSearchStep (doc : DocumentState) : M (option SearchStep) :=
  sentno <- drawSentence doc ;;
  sent <- sentenceAt doc sentno ;;
  pcoll <- collectionAt doc sentno ;;
  let sentsize := size sent in
  ph <- drawFromRange sentsize ;;
  it <- advance sent 0 (Z.to_nat ph) ;;
  old <- deref sent it ;;
  pp <- call (proposeAlternativeTranslation pcoll old) ;;
  if pair_eqb old pp then ret None
  else
    let step := newSearchStep ChangePhraseTranslationOperation in
    ret (Some (addModification step
                 (mkModification sentno ph (ph +u 1) it (S it) [pp]))).

End ChangePhraseTranslationOperation.

Module PermutePhrasesOperation.

(** [do { random_shuffle(pg); m1 = mismatch(os, oe, pg.begin()); }
     while(m1.first == oe && trials++ < 10);]
    [orig] is the range [[os, oe)]; the result is [pg] and the offset of
    [m1]. *)
Fixpoint shuffleUntilChanged (retries : nat) (orig pg : list AnchoredPhrasePair)
  : M (list AnchoredPhrasePair * nat) :=
  pg' <- random_shuffle pg ;;
  p <- mismatch pair_eqb orig pg' ;;
  if (p =? length orig)%nat then
    match retries with
    | S retries' => shuffleUntilChanged retries' orig pg'
    | O => ret (pg', p)
    end
  else ret (pg', p).

Definition createSearchStep (phrasePermutationDecay_ : Float) (doc : DocumentState)
  : M (option SearchStep) :=
  '(sentno, sentsize) <- drawLongSentence 10 doc ;;
  if sentsize <? 2 then ret None
  else
    sent <- sentenceAt doc sentno ;;
    g <- drawFromGeometricDistribution phrasePermutationDecay_ (sentsize -u 1) ;;
    let nperm := g +u 1 in
    start <- drawFromRange (sentsize -u nperm +u 1) ;;
    os <- advance sent 0 (Z.to_nat start) ;;
    oe <- advance sent os (Z.to_nat nperm) ;;
    orig <- copyRange sent os oe ;;
    '(pg, p) <- shuffleUntilChanged 10 orig orig ;;
    if (p =? length orig)%nat then ret None
    else
      q <- mismatch pair_eqb (rev orig) (rev pg) ;;
      (* the debug loop walks [m1.first, m2.first.base()) *)
      copyRange sent (os + p) (oe - q) ;;
      let start := start +u Z.of_nat p in
      let end_ := start +u (Z.of_nat (length pg - q) - Z.of_nat p) in
      new <- copyRange pg p (length pg - q) ;;
      let step := newSearchStep (PermutePhrasesOperation phrasePermutationDecay_) in
      ret (Some (addModification step
                   (mkModification sentno start end_ (os + p) (oe - q) new))).

End PermutePhrasesOperation.

Module LinearisePhrasesOperation.

Definition createSearchStep (phraseLinearisationDecay_ : Float) (doc : DocumentState)
  : M (option SearchStep) :=
  '(sentno, sentsize) <- drawLongSentence 10 doc ;;
  if sentsize <? 2 then ret None
  else
    sent <- sentenceAt doc sentno ;;
    g <- drawFromGeometricDistribution phraseLinearisationDecay_ (sentsize -u 1) ;;
    let nperm := g +u 1 in
    start <- drawFromRange (sentsize -u nperm +u 1) ;;
    os <- advance sent 0 (Z.to_nat start) ;;
    oe <- advance sent os (Z.to_nat nperm) ;;
    run <- copyRange sent os oe ;;
    (* check if already in order: [os] is overwritten by the result *)
    let os := (os + adjacent_find (not2 CompareAnchoredPhrasePairs) run)%nat in
    if (os =? oe)%nat then ret None
    else
      orig <- copyRange sent os oe ;;
      let pg := sort CompareAnchoredPhrasePairs orig in
      p <- mismatch pair_eqb orig pg ;;
      q <- mismatch pair_eqb (rev orig) (rev pg) ;;
      (* the debug loop walks [m1.first, m2.first.base()) *)
      copyRange sent (os + p) (oe - q) ;;
      let start := start +u Z.of_nat p in
      let end_ := start +u (Z.of_nat (length pg - q) - Z.of_nat p) in
      new <- copyRange pg p (length pg - q) ;;
      let step := newSearchStep (LinearisePhrasesOperation phraseLinearisationDecay_) in
      ret (Some (addModification step
                   (mkModification sentno start end_ (os + p) (oe - q) new))).

End LinearisePhrasesOperation.

Module SwapPhrasesOperation.

(** The choice of the two positions (the draws between the opening and the
    iterators): [phrase1], [direction] ([true] is right) and [phrase2]. *)
Definition choosePhrases (swapDistanceDecay_ : Float) (sentsize : uint)
  : M (uint * bool * uint) :=
  phrase1 <- drawFromRange sentsize ;;
  direction <-
    (if phrase1 =? 0 then ret true
     else if phrase1 =? sentsize -u 1 then ret false
     else flipCoin (1 # 2)) ;;
  phrase2 <-
    (if direction : bool then
       if phrase1 =? sentsize -u 2 then ret (sentsize -u 1)
       else
         let ph2range := sentsize -u phrase1 -u 1 in
         g <- drawFromGeometricDistribution swapDistanceDecay_ (ph2range -u 1) ;;
         let ph2dist := g +u 1 in
         let phrase2 := phrase1 +u ph2dist in
         assert (phrase2 <? sentsize) ;;
         ret phrase2
     else
       if phrase1 =? 1 then ret 0
       else
         g <- drawFromGeometricDistribution swapDistanceDecay_ (phrase1 -u 1) ;;
         let ph2dist := g +u 1 in
         ret (phrase1 -u ph2dist)) ;;
  ret (phrase1, direction, phrase2).

Definition createSearchStep (swapDistanceDecay_ : Float) (doc : DocumentState)
  : M (option SearchStep) :=
  '(sentno, sentsize) <- drawLongSentence 10 doc ;;
  if sentsize <? 2 then ret None
  else
    sent <- sentenceAt doc sentno ;;
    '(phrase1, _, phrase2) <- choosePhrases swapDistanceDecay_ sentsize ;;
    it1 <- advance sent 0 (Z.to_nat phrase1) ;;
    let after_it1 := S it1 in
    it2 <- advance sent 0 (Z.to_nat phrase2) ;;
    let after_it2 := S it2 in
    new1 <- copyRange sent it2 after_it2 ;;
    new2 <- copyRange sent it1 after_it1 ;;
    let step := newSearchStep (SwapPhrasesOperation swapDistanceDecay_) in
    let step := addModification step
                  (mkModification sentno phrase1 (phrase1 +u 1) it1 after_it1 new1) in
    let step := addModification step
                  (mkModification sentno phrase2 (phrase2 +u 1) it2 after_it2 new2) in
    ret (Some step).

End SwapPhrasesOperation.

Module MovePhrasesOperation.

(** The choice of the block and of its destination, up to the assertion:
    [direction] ([true] is right), [start], [block] and [dest]. *)
Definition chooseMove (blockSizeDecay_ rightMovePreference_ rightDistanceDecay_
                       leftDistanceDecay_ : Float) (sentsize : uint)
  : M (bool * uint * uint * uint) :=
  direction <- flipCoin rightMovePreference_ ;;
  g <- drawFromGeometricDistribution blockSizeDecay_ (sentsize -u 2) ;;
  let block := g +u 1 in
  start <- drawFromRange (sentsize -u block) ;;
  let start := if direction : bool then start else start +u 1 in
  dest <-
    (if direction then
       if start +u block =? sentsize -u 1 then ret sentsize
       else
         let range := sentsize -u start -u block in
         g <- drawFromGeometricDistribution rightDistanceDecay_ (range -u 1) ;;
         let dist := g +u 1 in
         ret (start +u block +u dist)
     else
       if start =? 1 then ret 0
       else
         g <- drawFromGeometricDistribution leftDistanceDecay_ (start -u 1) ;;
         let dist := g +u 1 in
         ret (start -u dist)) ;;
  assert (dest <=? sentsize) ;;
  ret (direction, start, block, dest).

Definition createSearchStep (blockSizeDecay_ rightMovePreference_ rightDistanceDecay_
                             leftDistanceDecay_ : Float) (doc : DocumentState)
  : M (option SearchStep) :=
  '(sentno, sentsize) <- drawLongSentence 10 doc ;;
  if sentsize <? 2 then ret None
  else
    sent <- sentenceAt doc sentno ;;
    '(_, start, block, dest) <-
      chooseMove blockSizeDecay_ rightMovePreference_ rightDistanceDecay_
                 leftDistanceDecay_ sentsize ;;
    block_start <- advance sent 0 (Z.to_nat start) ;;
    block_end <- advance sent block_start (Z.to_nat block) ;;
    dest_it <- advance sent 0 (Z.to_nat dest) ;;
    moved <- copyRange sent block_start block_end ;;
    let step := newSearchStep (MovePhrasesOperation blockSizeDecay_ rightMovePreference_
                                 rightDistanceDecay_ leftDistanceDecay_) in
    let step := addModification step
                  (mkModification sentno dest dest dest_it dest_it moved) in
    let step := addModification step
                  (mkModification sentno start (start +u block) block_start block_end []) in
    ret (Some step).

End MovePhrasesOperation.

Module ResegmentOperation.

(** [tgt |= pair.first] over a range, from the empty bitmap. *)
Definition coverage (seg : PhraseSegmentation) : CoverageBitmap :=
  fold_left (fun tgt pp => N.lor tgt (fst pp)) seg 0%N.

Definition createSearchStep (phraseResegmentationDecay_ : Float) (doc : DocumentState)
  : M (option SearchStep) :=
  sentno <- drawSentence doc ;;
  sent <- sentenceAt doc sentno ;;
  pcoll <- collectionAt doc sentno ;;
  let sentsize := size sent in
  g <- drawFromGeometricDistribution phraseResegmentationDecay_ (sentsize -u 1) ;;
  let nperm := g +u 1 in
  start <- drawFromRange (sentsize -u nperm +u 1) ;;
  os <- advance sent 0 (Z.to_nat start) ;;
  (* for(uint i = start; i < start + nperm; i++) ++oe; *)
  oe <- advance sent os (Z.to_nat ((start +u nperm) - start)) ;;
  orig <- copyRange sent os oe ;;
  let tgt := coverage orig in
  newseg <- call (proposeSegmentation pcoll tgt) ;;
  p <- mismatch pair_eqb orig newseg ;;
  if (p =? length orig)%nat then ret None
  else
    q <- mismatch pair_eqb (rev orig) (rev newseg) ;;
    (* while(it != m1.second) ++start, ++it; *)
    let start := start +u Z.of_nat p in
    (* uint end = start; while(it != m2.second.base()) ++end, ++it;
       [copyRange] checks that [it] can reach [m2.second.base()] *)
    new <- copyRange newseg p (length newseg - q) ;;
    let end_ := start +u Z.of_nat (length new) in
    let step := newSearchStep (ResegmentOperation phraseResegmentationDecay_) in
    ret (Some (addModification step
                 (mkModification sentno start end_ (os + p) (oe - q) new))).

End ResegmentOperation.

(* ------------------------------------------------------------------------- *)
(** ** The dispatcher *)

(** The virtual call [operation.createSearchStep(doc)]. *)
Definition StateOperation_createSearchStep (op : StateOperation) (doc : DocumentState)
  : M (option SearchStep) :=
  match op with
  | ChangePhraseTranslationOperation =>
      ChangePhraseTranslationOperation.createSearchStep doc
  | PermutePhrasesOperation d => PermutePhrasesOperation.createSearchStep d doc
  | LinearisePhrasesOperation d => LinearisePhrasesOperation.createSearchStep d doc
  | SwapPhrasesOperation d => SwapPhrasesOperation.createSearchStep d doc
  | MovePhrasesOperation b r rd ld => MovePhrasesOperation.createSearchStep b r rd ld doc
  | ResegmentOperation d => ResegmentOperation.createSearchStep d doc
  end.

Module StateGenerator.

Record t : Type := mk {
  operations_ : list StateOperation;
  cumulativeOperationDistribution_ : list Float
}.

(** [for(;;)] of [StateGenerator::createSearchStep], cut off after [fuel]
    rounds: a round that ends in [continue] or in [delete nextStep] starts
    the next one. *)
Fixpoint createSearchStep (fuel : nat) (gen : t) (doc : DocumentState) : M SearchStep :=
  match fuel with
  | O => abort OutOfFuel
  | S fuel' =>
      next_op <- drawFromCumulativeDistribution (cumulativeOperationDistribution_ gen) ;;
      op <- deref (operations_ gen) (Z.to_nat next_op) ;;
      nextStep <- StateOperation_createSearchStep op doc ;;
      match nextStep with
      | None => createSearchStep fuel' gen doc
      | Some step =>
          match getModifications step with
          | [] => createSearchStep fuel' gen doc
          | _ :: _ => ret step
          end
      end
  end.

End StateGenerator.

(* ------------------------------------------------------------------------- *)
(** ** Applying a search step *)

(** The replaced slice as the step records it: the elements between the two
    iterators of a modification. *)
Definition oldSlice (sent : PhraseSegmentation) (m : Modification) : PhraseSegmentation :=
  between sent (from_it m) (to_it m).

(** Modelled from the spec: the acceptor's application of a step (SearchStep.h
    and DocumentState.cpp are missing).  In a modification the "indices
    delimit a half-open range [start, end) in the current segmentation and
    newSlice replaces it". *)
Definition replaceRange (seg : PhraseSegmentation) (m : Modification) : PhraseSegmentation :=
  firstn (Z.to_nat (from m)) seg ++ proposal m ++ skipn (Z.to_nat (to m)) seg.

Fixpoint mapNth {A} (n : nat) (f : A -> A) (l : list A) : list A :=
  match l, n with
  | [], _ => []
  | x :: l', O => f x :: l'
  | x :: l', S n' => x :: mapNth n' f l'
  end.

Definition applyModification (sentences : list PhraseSegmentation) (m : Modification)
  : list PhraseSegmentation :=
  mapNth (Z.to_nat (sentno m)) (fun seg => replaceRange seg m) sentences.

(** Modelled from the spec: the modifications of one step are all "specified
    against the original segmentation" and "the acceptor applies them
    atomically".  The ranges further to the right are replaced first, so the
    indices of the remaining ones still denote positions of the original. *)
Fixpoint insertRightToLeft (m : Modification) (ms : list Modification) : list Modification :=
  match ms with
  | [] => [m]
  | m' :: ms' => if from m' <? from m then m :: ms else m' :: insertRightToLeft m ms'
  end.

Definition rightToLeft (ms : list Modification) : list Modification :=
  fold_right insertRightToLeft [] ms.

Definition applyModifications (ms : list Modification) (sentences : list PhraseSegmentation)
  : list PhraseSegmentation :=
  fold_left applyModification (rightToLeft ms) sentences.

Definition applySearchStep (step : SearchStep) (doc : DocumentState) : DocumentState :=
  mkDocument (applyModifications (getModifications step) (getPhraseSegmentations doc))
             (getPhraseTranslations doc).

(** The other reading of a modification: the proposal replaces the slice
    between its two iterators. *)
Definition replaceIteratorRange (seg : PhraseSegmentation) (m : Modification)
  : PhraseSegmentation :=
  firstn (from_it m) seg ++ proposal m ++ skipn (to_it m) seg.

(** The modification whose index range is the range between its iterators:
    applying it replaces the old slice the step recorded. *)
Definition atIterators (m : Modification) : Modification :=
  mkModification (sentno m) (Z.of_nat (from_it m)) (Z.of_nat (to_it m))
    (from_it m) (to_it m) (proposal m).

(** Applying a step by its iterator ranges. *)
Definition applyAtIterators (ms : list Modification) (sentences : list PhraseSegmentation)
  : list PhraseSegmentation :=
  applyModifications (map atIterators ms) sentences.

(* ------------------------------------------------------------------------- *)
(** ** Invariants of the data model and contracts of the collaborators *)

(** A phrase segmentation: every pair covers something and no two pairs
    overlap in source coverage. *)
Fixpoint partitionsSource (seg : PhraseSegmentation) : bool :=
  match seg with
  | [] => true
  | x :: seg' =>
      negb (fst x =? 0)%N
      && forallb (fun y => (N.land (fst x) (fst y) =? 0)%N) seg'
      && partitionsSource seg'
  end.

Definition validSegmentation (seg : PhraseSegmentation) : Prop :=
  (1 <= length seg)%nat /\ Z.of_nat (length seg) < Uint.modulus /\ partitionsSource seg = true.

(** A document: at least one sentence, one collection per sentence, every
    sentence a phrase segmentation of minimum length 1. *)
Definition validDocument (doc : DocumentState) : Prop :=
  (1 <= length (getPhraseSegmentations doc))%nat
  /\ Z.of_nat (length (getPhraseSegmentations doc)) < Uint.modulus
  /\ length (getPhraseTranslations doc) = length (getPhraseSegmentations doc)
  /\ Forall validSegmentation (getPhraseSegmentations doc).

(** [proposeAlternativeTranslation] returns a pair covering the same source
    span. *)
Definition sameSourceSpan (pcoll : PhrasePairCollection) : Prop :=
  forall pp rnd, fst (fst (proposeAlternativeTranslation pcoll pp rnd)) = fst pp.

(** [proposeSegmentation(coverage)] returns non-overlapping pairs covering
    exactly the requested coverage. *)
Definition coversExactly (pcoll : PhrasePairCollection) : Prop :=
  forall tgt rnd,
    partitionsSource (fst (proposeSegmentation pcoll tgt rnd)) = true
    /\ ResegmentOperation.coverage (fst (proposeSegmentation pcoll tgt rnd)) = tgt.

(* ------------------------------------------------------------------------- *)
(** ** The vocabulary of the properties *)

(** The multiset of per-pair source-coverage bitmaps, up to [Permutation]. *)
Definition coverages (seg : PhraseSegmentation) : list CoverageBitmap := map fst seg.

(** Sentence by sentence, the two documents have the same multiset of
    per-pair source-coverage bitmaps. *)
Definition sameCoverageMultiset (before after : list PhraseSegmentation) : Prop :=
  Forall2 (fun b a => Permutation (coverages b) (coverages a)) before after.

(** Sentence by sentence, the two documents cover the same source
    positions. *)
Definition sameCoverage (before after : list PhraseSegmentation) : Prop :=
  Forall2 (fun b a => ResegmentOperation.coverage b = ResegmentOperation.coverage a)
    before after.

(** Sorted ascending by the comparator: no element is strictly less than an
    earlier one. *)
Fixpoint sortedBy {A} (comp : A -> A -> bool) (l : list A) : bool :=
  match l with
  | [] => true
  | x :: l' => forallb (fun y => negb (comp y x)) l' && sortedBy comp l'
  end.

(** The size of the sentence that [drawSentence] selects from the raw draw
    [raw]. *)
Definition sizeOfDraw (doc : DocumentState) (raw : Z) : uint :=
  size (nth (Z.to_nat (raw mod Uint.wrap (Z.of_nat (length (getPhraseSegmentations doc)))))
            (getPhraseSegmentations doc) []).

(** The common opening makes at most [n] calls to [drawSentence]: every call
    moves the cursor of the random source by one. *)
Definition preambleDrawsAtMost (n : nat) (doc : DocumentState) (rnd : Random) : Prop :=
  forall res rnd',
    drawLongSentence 10 doc rnd = Returns res rnd' ->
    (cursor rnd' - cursor rnd <= n)%nat.

(** The step ChangePhraseTranslation builds for the position [ph] and the
    proposed pair [pp]. *)
Definition changeStep (sno ph : uint) (pp : AnchoredPhrasePair) : SearchStep :=
  mkSearchStep ChangePhraseTranslationOperation
    [ mkModification sno ph (ph + 1) (Z.to_nat ph) (S (Z.to_nat ph)) [pp] ].

(** The step SwapPhrases builds for the positions [phrase1] and [phrase2],
    which hold [x1] and [x2]. *)
Definition swapStep (decay : Float) (sentno phrase1 phrase2 : uint)
           (x1 x2 : AnchoredPhrasePair) : SearchStep :=
  mkSearchStep (SwapPhrasesOperation decay)
    [ mkModification sentno phrase1 (phrase1 + 1)
        (Z.to_nat phrase1) (S (Z.to_nat phrase1)) [x2];
      mkModification sentno phrase2 (phrase2 + 1)
        (Z.to_nat phrase2) (S (Z.to_nat phrase2)) [x1] ].

(** The step MovePhrases builds: the insertion at [dest], then the deletion
    of the block at its origin. *)
Definition moveStep (b r rd ld : Float) (sno : uint) (sent : PhraseSegmentation)
           (start block dest : uint) : SearchStep :=
  mkSearchStep (MovePhrasesOperation b r rd ld)
    [ mkModification sno dest dest (Z.to_nat dest) (Z.to_nat dest)
        (between sent (Z.to_nat start) (Z.to_nat start + Z.to_nat block));
      mkModification sno start (start + block)
        (Z.to_nat start) (Z.to_nat start + Z.to_nat block) [] ].

(** The sentence in which the block of [block] phrases at [start] has been
    taken out and put back in front of the phrase that was at [dest]. *)
Definition moveBlock (sent : PhraseSegmentation) (start block dest : nat)
  : PhraseSegmentation :=
  if (start <? dest)%nat then
    firstn start sent ++ between sent (start + block) dest
      ++ between sent start (start + block) ++ skipn dest sent
  else
    firstn dest sent ++ between sent start (start + block)
      ++ between sent dest start ++ skipn (start + block) sent.

(* ------------------------------------------------------------------------- *)
(** ** Concrete documents and random sources *)

(** A random source whose raw draws are the given ones, then zeros. *)
Definition tape (draws : list Z) : Random := mkRandom (fun i => nth i draws 0) 0.

(** Five phrases on the source positions 0 to 4. *)
Definition phraseA : AnchoredPhrasePair := (1%N, [10%N]).
Definition phraseB : AnchoredPhrasePair := (2%N, [20%N]).
Definition phraseC : AnchoredPhrasePair := (4%N, [30%N]).
Definition phraseD : AnchoredPhrasePair := (8%N, [40%N]).
Definition phraseE : AnchoredPhrasePair := (16%N, [50%N]).
(** One phrase on the source positions 0 and 1. *)
Definition phraseAB : AnchoredPhrasePair := (3%N, [10%N; 20%N]).

(** A collection that proposes the pair it was given, splits the coverage
    [{0, 1}] into [phraseA] and [phraseB], and covers any other coverage by
    one pair. *)
Definition splittingCollection : PhrasePairCollection :=
  mkCollection
    (fun pp rnd => (pp, rnd))
    (fun tgt rnd =>
       (if (tgt =? 0)%N then []
        else if (tgt =? 3)%N then [phraseA; phraseB]
        else [(tgt, [])], rnd))
    2.

Definition document (sentences : list PhraseSegmentation) : DocumentState :=
  mkDocument sentences (map (fun _ => splittingCollection) sentences).

(** Documents of one sentence. *)
Definition docA : DocumentState := document [[phraseA]].
Definition docAB1 : DocumentState := document [[phraseAB]].
Definition docAB_C : DocumentState := document [[phraseAB; phraseC]].
Definition docABC : DocumentState := document [[phraseA; phraseB; phraseC]].
Definition docBCA : DocumentState := document [[phraseB; phraseC; phraseA]].
Definition docBACD : DocumentState := document [[phraseB; phraseA; phraseC; phraseD]].
Definition docABCDE : DocumentState :=
  document [[phraseA; phraseB; phraseC; phraseD; phraseE]].

(* ------------------------------------------------------------------------- *)
(** ** Configuring the generator *)

Delimit Scope string_scope with string.
Bind Scope string_scope with String.string.

(** The exceptions of the configuration code. *)
Inductive exception : Type :=
| ConfigurationException
| ParameterException.   (* whatever [Parameters::get] throws *)

(** Modelled from the spec: [Parameters] (declared in a header that is
    missing), a "string-to-value" table of configuration keys.  What
    [get<Float>(name)] and [get<Float>(name, default)] do for a key is left
    open: each answers with a value, or throws ([None]). *)
Module Parameters.
Record t : Type := mk {
  get : String.string -> option Float;
  getOr : String.string -> Float -> option Float
}.
End Parameters.

Definition throwing {A} (e : exception) (x : option A) : exception + A :=
  match x with
  | Some a => inr a
  | None => inl e
  end.

(** The constructors of the six operators, selected by the type key as in
    [StateGenerator::addOperation]; an unknown key is a configuration
    error. *)
Definition newOperation (type : String.string) (params : Parameters.t)
  : exception + StateOperation :=
  let get name := throwing ParameterException (Parameters.get params name) in
  if String.eqb type "change-phrase-translation" then
    inr ChangePhraseTranslationOperation
  else if String.eqb type "permute-phrases" then
    match get "phrase-permutation-decay"%string with
    | inr d => inr (PermutePhrasesOperation d)
    | inl e => inl e
    end
  else if String.eqb type "linearise-phrases" then
    match get "phrase-linearisation-decay"%string with
    | inr d => inr (LinearisePhrasesOperation d)
    | inl e => inl e
    end
  else if String.eqb type "swap-phrases" then
    match get "swap-distance-decay"%string with
    | inr d => inr (SwapPhrasesOperation d)
    | inl e => inl e
    end
  else if String.eqb type "move-phrases" then
    match get "block-size-decay"%string with
    | inr b =>
        match throwing ParameterException
                (Parameters.getOr params "right-move-preference"%string (1 # 2)) with
        | inr r =>
            match get "right-distance-decay"%string with
            | inr rd =>
                match get "left-distance-decay"%string with
                | inr ld => inr (MovePhrasesOperation b r rd ld)
                | inl e => inl e
                end
            | inl e => inl e
            end
        | inl e => inl e
        end
    | inl e => inl e
    end
  else if String.eqb type "resegment" then
    match get "phrase-resegmentation-decay"%string with
    | inr d => inr (ResegmentOperation d)
    | inl e => inl e
    end
  else inl ConfigurationException.

(** [StateGenerator::addOperation(weight, type, params)]: the exception it
    ends with, if any, and the generator it leaves.  [Fadd] is the machine
    addition of [Float]. *)
Definition addOperation (Fadd : Float -> Float -> Float) (weight : Float)
           (type : String.string) (params : Parameters.t) (gen : StateGenerator.t)
  : option exception * StateGenerator.t :=
  match newOperation type params with
  | inl e => (Some e, gen)
  | inr op =>
      let operations := StateGenerator.operations_ gen ++ [op] in
      let cumulative := StateGenerator.cumulativeOperationDistribution_ gen in
      let weight :=
        match cumulative with
        | [] => weight
        | _ :: _ => Fadd weight (last cumulative 0%Q)
        end in
      (None, StateGenerator.mk operations (cumulative ++ [weight]))
  end.

(** The generator as its constructor leaves it: no operation yet. *)
Definition newGenerator : StateGenerator.t := StateGenerator.mk [] [].

(** One call of [addOperation]. *)
Record Call : Type := mkCall {
  callWeight : Float;
  callType : String.string;
  callParams : Parameters.t
}.

(** A series of calls of [addOperation] on the same generator, by a caller
    that goes on after an exception. *)
Definition addOperations (Fadd : Float -> Float -> Float) (calls : list Call)
           (gen : StateGenerator.t) : StateGenerator.t :=
  fold_left
    (fun g c => snd (addOperation Fadd (callWeight c) (callType c) (callParams c) g))
    calls gen.

(** The type key of an operator. *)
Definition typeKey (op : StateOperation) : String.string :=
  match op with
  | ChangePhraseTranslationOperation => "change-phrase-translation"
  | PermutePhrasesOperation _ => "permute-phrases"
  | LinearisePhrasesOperation _ => "linearise-phrases"
  | SwapPhrasesOperation _ => "swap-phrases"
  | MovePhrasesOperation _ _ _ _ => "move-phrases"
  | ResegmentOperation _ => "resegment"
  end%string.

(** The calls of a series that add an operator. *)
Definition accepted (calls : list Call) : list Call :=
  filter (fun c => match newOperation (callType c) (callParams c) with
                   | inr _ => true
                   | inl _ => false
                   end) calls.

(** The running sums of a series of weights, from the left:
    [w1], [w2 + w1], [w3 + (w2 + w1)], ... *)
Fixpoint runningSums (Fadd : Float -> Float -> Float) (acc : option Float)
         (weights : list Float) : list Float :=
  match weights with
  | [] => []
  | w :: weights' =>
      let s := match acc with None => w | Some a => Fadd w a end in
      s :: runningSums Fadd (Some s) weights'
  end.

(** The generator is aligned: one cumulative weight per operation. *)
Definition aligned (gen : StateGenerator.t) : Prop :=
  length (StateGenerator.cumulativeOperationDistribution_ gen)
  = length (StateGenerator.operations_ gen).


(** The operators that open with the search for a sentence of two phrases or
    more. *)
Definition needsTwoPhrases (op : StateOperation) : bool :=
  match op with
  | PermutePhrasesOperation _ | LinearisePhrasesOperation _
  | SwapPhrasesOperation _ | MovePhrasesOperation _ _ _ _ => true
  | ChangePhraseTranslationOperation | ResegmentOperation _ => false
  end.

(** A generator the dispatcher can draw from: aligned, with at least one
    operation and no more than a [uint] counts. *)
Definition configured (gen : StateGenerator.t) : Prop :=
  aligned gen
  /\ (1 <= length (StateGenerator.operations_ gen))%nat
  /\ Z.of_nat (length (StateGenerator.operations_ gen)) < Uint.modulus.

(* ========================================================================= *)
(** * Properties *)

(* ------------------------------------------------------------------------- *)
(** ** Running the monad *)

Lemma bind_eq A B (m : M A) (k : A -> M B) rnd a r :
  m rnd = Returns a r -> bind m k rnd = k a r.
Proof. unfold bind; intros ->; reflexivity. Qed.

Arguments bind_eq [A B m] k [rnd a r] _.

Lemma bind_ret A B (a : A) (k : A -> M B) rnd : bind (ret a) k rnd = k a rnd.
Proof. reflexivity. Qed.

Lemma bind_assoc A B C (m : M A) (f : A -> M B) (g : B -> M C) rnd :
  bind (bind m f) g rnd = bind m (fun x => bind (f x) g) rnd.
Proof. unfold bind; destruct (m rnd); reflexivity. Qed.

Lemma bind_returns A B (m : M A) (k : A -> M B) rnd b rnd' :
  bind m k rnd = Returns b rnd' ->
  exists a r, m rnd = Returns a r /\ k a r = Returns b rnd'.
Proof.
  unfold bind; destruct (m rnd) as [a r|f]; [eauto | discriminate].
Qed.

Lemma bind_aborts A B (m : M A) (k : A -> M B) rnd f :
  bind m k rnd = Aborts f ->
  m rnd = Aborts f \/ exists a r, m rnd = Returns a r /\ k a r = Aborts f.
Proof.
  unfold bind; intros H; destruct (m rnd) as [a r|f'] eqn:E; [right; eauto | left; inversion H; reflexivity].
Qed.

Lemma ret_returns A (a b : A) rnd rnd' :
  ret a rnd = Returns b rnd' -> a = b /\ rnd = rnd'.
Proof. unfold ret; intros H; inversion H; auto. Qed.

Lemma assert_eq b rnd : b = true -> assert b rnd = Returns tt rnd.
Proof. intros ->; reflexivity. Qed.

Lemma call_eq A (f : Random -> A * Random) rnd :
  call f rnd = Returns (fst (f rnd)) (snd (f rnd)).
Proof. unfold call. destruct (f rnd); reflexivity. Qed.

Lemma call_returns A (f : Random -> A * Random) rnd a rnd' :
  call f rnd = Returns a rnd' -> f rnd = (a, rnd').
Proof. unfold call. destruct (f rnd). intros H; inversion H; reflexivity. Qed.

(** Splits an equation [c rnd = Returns x rnd'] along the calls of [c]. *)
Ltac unbind H :=
  let a := fresh "a" in
  let r := fresh "r" in
  let H1 := fresh "Hcall" in
  apply bind_returns in H; destruct H as (a & r & H1 & H); cbv beta in H.

(** Splits a conjunction into its parts, without unfolding definitions. *)
Ltac splits := repeat match goal with |- _ /\ _ => split end.

(* ------------------------------------------------------------------------- *)
(** ** Machine integers and random draws *)

Lemma modulus_eq : Uint.modulus = 4294967296.
Proof. reflexivity. Qed.

Lemma wrap_small z : 0 <= z < Uint.modulus -> Uint.wrap z = z.
Proof. intros; unfold Uint.wrap; apply Z.mod_small; assumption. Qed.

Lemma wrap_range z : 0 <= Uint.wrap z < Uint.modulus.
Proof. unfold Uint.wrap; apply Z.mod_pos_bound; rewrite modulus_eq; lia. Qed.

Lemma add_small a b : 0 <= a + b < Uint.modulus -> a +u b = a + b.
Proof. apply wrap_small. Qed.

Lemma sub_small a b : 0 <= a - b < Uint.modulus -> a -u b = a - b.
Proof. apply wrap_small. Qed.

(** Normalises the wrap-around arithmetic of sums and differences that stay
    in range. *)
Ltac uint_small :=
  repeat match goal with
    | |- context [?a +u ?b] => rewrite (add_small a b) by (rewrite ?modulus_eq; lia)
    | |- context [?a -u ?b] => rewrite (sub_small a b) by (rewrite ?modulus_eq; lia)
    end.

Lemma drawFromRange_eq n rnd :
  0 < n -> drawFromRange n rnd = Returns (peek rnd mod n) (consume rnd).
Proof.
  intros Hn; unfold drawFromRange.
  destruct (Z.leb_spec n 0); [lia | reflexivity].
Qed.

Lemma drawFromRange_returns n rnd x rnd' :
  drawFromRange n rnd = Returns x rnd' ->
  0 < n /\ x = peek rnd mod n /\ 0 <= x < n /\ rnd' = consume rnd.
Proof.
  unfold drawFromRange; destruct (Z.leb_spec n 0); [discriminate|].
  intros E; inversion E; subst.
  repeat split; try lia; apply Z.mod_pos_bound; lia.
Qed.

Lemma drawFromRange_aborts n rnd f : drawFromRange n rnd = Aborts f -> f = Undefined.
Proof.
  unfold drawFromRange; destruct (n <=? 0); [|discriminate].
  intros E; inversion E; reflexivity.
Qed.

Lemma drawFromGeometricDistribution_eq decay n rnd :
  0 <= n ->
  drawFromGeometricDistribution decay n rnd = Returns (peek rnd mod (n + 1)) (consume rnd).
Proof.
  intros Hn; unfold drawFromGeometricDistribution.
  destruct (Z.ltb_spec n 0); [lia | reflexivity].
Qed.

Lemma drawFromGeometricDistribution_returns decay n rnd x rnd' :
  drawFromGeometricDistribution decay n rnd = Returns x rnd' ->
  0 <= n /\ x = peek rnd mod (n + 1) /\ 0 <= x <= n /\ rnd' = consume rnd.
Proof.
  unfold drawFromGeometricDistribution; destruct (Z.ltb_spec n 0); [discriminate|].
  intros E; inversion E; subst.
  assert (0 <= peek rnd mod (n + 1) < n + 1) by (apply Z.mod_pos_bound; lia).
  repeat split; lia.
Qed.

Lemma flipCoin_eq p rnd : flipCoin p rnd = Returns (Z.odd (peek rnd)) (consume rnd).
Proof. reflexivity. Qed.

(** Runs the next call of a computation whose first step is a draw. *)
Ltac draw :=
  first
    [ erewrite bind_eq by (apply flipCoin_eq)
    | erewrite bind_eq by (apply drawFromRange_eq; rewrite ?modulus_eq; lia)
    | erewrite bind_eq
        by (apply drawFromGeometricDistribution_eq; rewrite ?modulus_eq; lia) ].

(* ------------------------------------------------------------------------- *)
(** ** Iterators *)

Lemma deref_eq A (l : list A) i x rnd :
  nth_error l i = Some x -> deref l i rnd = Returns x rnd.
Proof. unfold deref; intros ->; reflexivity. Qed.

Lemma deref_returns A (l : list A) i x rnd rnd' :
  deref l i rnd = Returns x rnd' -> nth_error l i = Some x /\ rnd' = rnd.
Proof.
  unfold deref; destruct (nth_error l i); [|discriminate].
  intros E; inversion E; auto.
Qed.

Lemma deref_aborts A (l : list A) i rnd f : deref l i rnd = Aborts f -> f = Undefined.
Proof.
  unfold deref; destruct (nth_error l i); [discriminate|].
  intros E; inversion E; reflexivity.
Qed.

Lemma advance_eq sent it n rnd :
  (it + n <= length sent)%nat -> advance sent it n rnd = Returns (it + n)%nat rnd.
Proof.
  intros H; unfold advance; destruct (Nat.leb_spec (it + n) (length sent)); [reflexivity|lia].
Qed.

Lemma advance_returns sent it n rnd x rnd' :
  advance sent it n rnd = Returns x rnd' ->
  x = (it + n)%nat /\ (it + n <= length sent)%nat /\ rnd' = rnd.
Proof.
  unfold advance; destruct (Nat.leb_spec (it + n) (length sent)); [|discriminate].
  intros E; inversion E; auto.
Qed.

Lemma advance_aborts sent it n rnd f : advance sent it n rnd = Aborts f -> f = Undefined.
Proof.
  unfold advance; destruct (_ <=? _)%nat; [discriminate|].
  intros E; inversion E; reflexivity.
Qed.

Lemma copyRange_eq A (l : list A) b e rnd :
  (b <= e <= length l)%nat -> copyRange l b e rnd = Returns (between l b e) rnd.
Proof.
  intros H; unfold copyRange.
  destruct (Nat.leb_spec b e); destruct (Nat.leb_spec e (length l)); try lia; reflexivity.
Qed.

Lemma copyRange_returns A (l : list A) b e rnd x rnd' :
  copyRange l b e rnd = Returns x rnd' ->
  x = between l b e /\ (b <= e <= length l)%nat /\ rnd' = rnd.
Proof.
  unfold copyRange.
  destruct (Nat.leb_spec b e); destruct (Nat.leb_spec e (length l)); try discriminate.
  cbn [andb]. intros E; inversion E; auto.
Qed.

Lemma copyRange_aborts A (l : list A) b e rnd f :
  copyRange l b e rnd = Aborts f -> f = Undefined.
Proof.
  unfold copyRange; destruct (_ && _); [discriminate|].
  intros E; inversion E; reflexivity.
Qed.

(* ------------------------------------------------------------------------- *)
(** ** Ranges of a list *)

Lemma nonempty_length A (l : list A) : (0 < length l)%nat -> l <> [].
Proof. destruct l; cbn; [lia|discriminate]. Qed.

Lemma nth_error_in_range A (l : list A) i :
  (i < length l)%nat -> exists x, nth_error l i = Some x.
Proof.
  intros H. destruct (nth_error l i) eqn:E; [eauto|].
  apply nth_error_None in E; lia.
Qed.

Lemma firstn_exact A (l1 l2 : list A) n : n = length l1 -> firstn n (l1 ++ l2) = l1.
Proof.
  intros ->. rewrite firstn_app, Nat.sub_diag, firstn_all. cbn. apply app_nil_r.
Qed.

Lemma skipn_exact A (l1 l2 : list A) n : n = length l1 -> skipn n (l1 ++ l2) = l2.
Proof.
  intros ->. rewrite skipn_app, Nat.sub_diag, skipn_all. reflexivity.
Qed.

Lemma between_split A (l : list A) b e :
  (b <= e <= length l)%nat ->
  l = firstn b l ++ between l b e ++ skipn e l
  /\ length (firstn b l) = b /\ length (between l b e) = (e - b)%nat.
Proof.
  intros H. unfold between. splits.
  - rewrite <- (firstn_skipn b l) at 1. f_equal.
    rewrite <- (firstn_skipn (e - b) (skipn b l)) at 1. f_equal.
    rewrite skipn_skipn. f_equal. lia.
  - rewrite length_firstn. lia.
  - rewrite length_firstn, length_skipn. lia.
Qed.

Lemma between_exact A (l1 mid l3 : list A) b e :
  b = length l1 -> e = (length l1 + length mid)%nat ->
  between (l1 ++ mid ++ l3) b e = mid.
Proof.
  intros -> ->. unfold between. rewrite skipn_exact by reflexivity.
  apply firstn_exact. lia.
Qed.

Lemma between_single A (l : list A) i x :
  nth_error l i = Some x -> between l i (S i) = [x].
Proof.
  intros H. destruct (nth_error_split _ _ H) as (l1 & l2 & -> & <-).
  change (l1 ++ x :: l2) with (l1 ++ [x] ++ l2).
  apply between_exact; cbn; lia.
Qed.

Lemma between_between A (l : list A) a b p e :
  (e <= b - a)%nat ->
  between (between l a b) p e = between l (a + p) (a + e).
Proof.
  intros H. unfold between.
  rewrite skipn_firstn_comm, firstn_firstn, skipn_skipn.
  f_equal; [lia|]. f_equal. lia.
Qed.

Lemma length_between A (l : list A) b e :
  (b <= e <= length l)%nat -> length (between l b e) = (e - b)%nat.
Proof. intros H. unfold between. rewrite length_firstn, length_skipn. lia. Qed.

Lemma nth_error_between A (l : list A) b e i :
  (i < e - b)%nat -> nth_error (between l b e) i = nth_error l (b + i).
Proof.
  intros Hi. unfold between. rewrite nth_error_firstn.
  destruct (Nat.ltb_spec i (e - b)); [|lia]. apply nth_error_skipn.
Qed.

Lemma hd_error_between A (l : list A) b e :
  (b < e)%nat -> hd_error (between l b e) = nth_error l b.
Proof.
  intros H. rewrite <- (Nat.add_0_r b) at 2.
  rewrite <- nth_error_between with (e := e) by lia.
  destruct (between l b e); reflexivity.
Qed.

Lemma split_three A (l : list A) a b c :
  (a <= b <= c)%nat -> (c <= length l)%nat ->
  l = firstn a l ++ between l a b ++ between l b c ++ skipn c l
  /\ length (firstn a l) = a
  /\ length (between l a b) = (b - a)%nat
  /\ length (between l b c) = (c - b)%nat.
Proof.
  intros H1 H2.
  destruct (@between_split _ l a b ltac:(lia)) as (E1 & L1 & L2).
  destruct (@between_split _ l b c ltac:(lia)) as (E2 & L3 & L4).
  splits; try assumption.
  rewrite E1 at 1. do 2 f_equal.
  rewrite E2 at 1. rewrite skipn_app, L3, Nat.sub_diag.
  rewrite skipn_all2 by lia. reflexivity.
Qed.

Lemma rev_between A (l : list A) p q :
  rev (between l p (length l - q)) = between (rev l) q (length l - p).
Proof.
  unfold between.
  destruct (Nat.le_gt_cases (p + q) (length l)) as [Hle|Hgt].
  - rewrite skipn_rev, firstn_rev. f_equal.
    rewrite length_firstn.
    replace (Nat.min (length l - q) (length l) - (length l - p - q))%nat with p by lia.
    rewrite skipn_firstn_comm. reflexivity.
  - replace (length l - q - p)%nat with 0%nat by lia.
    replace (length l - p - q)%nat with 0%nat by lia.
    reflexivity.
Qed.

Lemma rotation_differs A (B Mid : list A) :
  NoDup (B ++ Mid) -> B <> [] -> Mid <> [] -> B ++ Mid <> Mid ++ B.
Proof.
  destruct B as [|b0 B]; [congruence|]. destruct Mid as [|m0 Mid]; [congruence|].
  intros Hnd _ _ E. cbn in E. inversion E; subst m0.
  cbn in Hnd. inversion Hnd as [|? ? Hnotin _]; subst.
  apply Hnotin. apply in_or_app. right. left. reflexivity.
Qed.

Lemma NoDup_positions A (l : list A) i j x :
  NoDup l -> nth_error l i = Some x -> nth_error l j = Some x -> i = j.
Proof.
  intros Hnd Hi Hj. rewrite NoDup_nth_error in Hnd.
  apply Hnd; [apply nth_error_Some; congruence|congruence].
Qed.

Lemma nth_error_two A (l : list A) i j x y :
  (i < j)%nat -> nth_error l i = Some x -> nth_error l j = Some y ->
  exists l1 l2 l3,
    l = l1 ++ x :: l2 ++ y :: l3 /\ length l1 = i /\ (length l1 + 1 + length l2 = j)%nat.
Proof.
  intros Hij Hi Hj.
  destruct (nth_error_split _ _ Hi) as (l1 & rest & -> & L1).
  rewrite nth_error_app2 in Hj by lia.
  replace (j - length l1)%nat with (S (j - length l1 - 1)) in Hj by lia.
  cbn in Hj.
  destruct (nth_error_split _ _ Hj) as (l2 & l3 & -> & L2).
  exists l1, l2, l3. splits; [reflexivity|assumption|lia].
Qed.

Lemma assign_exact A (l1 rest : list A) x y i :
  i = length l1 -> assign (l1 ++ x :: rest) i y = l1 ++ y :: rest.
Proof.
  intros ->. unfold assign.
  rewrite firstn_exact, skipn_exact by reflexivity. reflexivity.
Qed.

Lemma length_assign A (l : list A) i x : length (assign l i x) = length l.
Proof.
  unfold assign. rewrite length_app, length_firstn.
  destruct (skipn i l) as [|y tl] eqn:E;
    apply (f_equal (@length _)) in E; rewrite length_skipn in E; cbn in *; lia.
Qed.

Lemma mapNth_mapNth A (f g : A -> A) n (l : list A) :
  mapNth n f (mapNth n g l) = mapNth n (fun x => f (g x)) l.
Proof.
  revert n; induction l as [|x l IH]; intros [|n]; cbn; try reflexivity.
  rewrite IH; reflexivity.
Qed.

Lemma mapNth_ext A (f g : A -> A) n (l : list A) x :
  nth_error l n = Some x -> f x = g x -> mapNth n f l = mapNth n g l.
Proof.
  revert n; induction l as [|y l IH]; intros [|n]; cbn; try discriminate.
  - intros E; inversion E; subst. intros ->; reflexivity.
  - intros E Hfg. rewrite (IH n E Hfg); reflexivity.
Qed.

Lemma mapNth_changes A (f : A -> A) n (l : list A) x :
  nth_error l n = Some x -> f x <> x -> mapNth n f l <> l.
Proof.
  revert n; induction l as [|y l IH]; intros [|n]; cbn; try discriminate.
  - intros E; inversion E; subst. intros Hne Heq; apply Hne; congruence.
  - intros E Hne Heq. apply (IH n E Hne). congruence.
Qed.

Lemma nth_error_mapNth A (f : A -> A) n (l : list A) x :
  nth_error l n = Some x -> nth_error (mapNth n f l) n = Some (f x).
Proof.
  revert n; induction l as [|y l IH]; intros [|n]; cbn; try discriminate.
  - intros E; inversion E; reflexivity.
  - apply IH.
Qed.

(* ------------------------------------------------------------------------- *)
(** ** Common prefixes and suffixes: std::mismatch *)

Lemma pair_eqb_spec a b : reflect (a = b) (pair_eqb a b).
Proof.
  unfold pair_eqb. destruct (AnchoredPhrasePair_eq_dec a b); constructor; assumption.
Qed.

Lemma commonPrefix_le A (eqb : A -> A -> bool) l1 l2 :
  (commonPrefix eqb l1 l2 <= length l1)%nat /\ (commonPrefix eqb l1 l2 <= length l2)%nat.
Proof.
  revert l2; induction l1 as [|x l1 IH]; intros [|y l2]; cbn; try lia.
  destruct (eqb x y); [|lia]. destruct (IH l2). lia.
Qed.

Lemma commonPrefix_refl l : commonPrefix pair_eqb l l = length l.
Proof.
  induction l as [|x l IH]; cbn; [reflexivity|].
  destruct (pair_eqb_spec x x); [rewrite IH; reflexivity|congruence].
Qed.

Lemma commonPrefix_skipn A (eqb : A -> A -> bool) l1 l2 :
  commonPrefix eqb (skipn (commonPrefix eqb l1 l2) l1) (skipn (commonPrefix eqb l1 l2) l2) = 0%nat.
Proof.
  revert l2; induction l1 as [|x l1 IH]; intros [|y l2]; cbn; try reflexivity.
  destruct (eqb x y) eqn:E; cbn; [apply IH | rewrite E; reflexivity].
Qed.

Lemma commonPrefix_firstn A (eqb : A -> A -> bool) l1 l2 n1 n2 :
  commonPrefix eqb l1 l2 = 0%nat ->
  commonPrefix eqb (firstn n1 l1) (firstn n2 l2) = 0%nat.
Proof.
  destruct l1 as [|x l1], l2 as [|y l2], n1, n2; cbn; try reflexivity.
  destruct (eqb x y); [discriminate|reflexivity].
Qed.

Lemma commonPrefix_zero_heads A (eqb : A -> A -> bool) x l1 y l2 :
  commonPrefix eqb (x :: l1) (y :: l2) = 0%nat -> eqb x y = false.
Proof. cbn. destruct (eqb x y); [discriminate|reflexivity]. Qed.

Lemma commonPrefix_firstn_eq l1 l2 :
  firstn (commonPrefix pair_eqb l1 l2) l1 = firstn (commonPrefix pair_eqb l1 l2) l2.
Proof.
  revert l2; induction l1 as [|x l1 IH]; intros [|y l2]; cbn; try reflexivity.
  destruct (pair_eqb_spec x y) as [->|]; [|reflexivity].
  cbn. rewrite IH. reflexivity.
Qed.

Lemma commonSuffix_skipn_eq (l1 l2 : PhraseSegmentation) :
  let q := commonPrefix pair_eqb (rev l1) (rev l2) in
  skipn (length l1 - q) l1 = skipn (length l2 - q) l2.
Proof.
  intros q. apply rev_inj.
  rewrite <- !firstn_rev. apply commonPrefix_firstn_eq.
Qed.

Lemma commonPrefix_nth (l1 l2 : PhraseSegmentation) i :
  (i < commonPrefix pair_eqb l1 l2)%nat -> nth_error l1 i = nth_error l2 i.
Proof.
  intros Hi. pose proof (commonPrefix_firstn_eq l1 l2) as E.
  apply (f_equal (fun l => nth_error l i)) in E.
  rewrite !nth_error_firstn in E.
  destruct (Nat.ltb_spec i (commonPrefix pair_eqb l1 l2)); [assumption|lia].
Qed.

Lemma commonSuffix_nth (l1 l2 : PhraseSegmentation) j :
  let q := commonPrefix pair_eqb (rev l1) (rev l2) in
  nth_error l1 (length l1 - q + j) = nth_error l2 (length l2 - q + j).
Proof.
  intros q. pose proof (commonSuffix_skipn_eq l1 l2) as E. cbv zeta in E. fold q in E.
  apply (f_equal (fun l => nth_error l j)) in E.
  rewrite !nth_error_skipn in E. exact E.
Qed.

Lemma commonPrefix_mismatch (l1 l2 : PhraseSegmentation) x y :
  nth_error l1 (commonPrefix pair_eqb l1 l2) = Some x ->
  nth_error l2 (commonPrefix pair_eqb l1 l2) = Some y ->
  x <> y.
Proof.
  revert l2; induction l1 as [|a l1 IH]; intros [|b l2]; cbn; try discriminate.
  destruct (pair_eqb_spec a b) as [->|Hne]; cbn.
  - apply IH.
  - intros E1 E2. inversion E1; inversion E2; subst. assumption.
Qed.

Lemma mismatch_eq A (eqb : A -> A -> bool) l1 l2 rnd :
  length l1 = length l2 ->
  mismatch eqb l1 l2 rnd = Returns (commonPrefix eqb l1 l2) rnd.
Proof.
  intros E. unfold mismatch.
  destruct (Nat.eqb_spec (commonPrefix eqb l1 l2) (length l2));
    destruct (Nat.ltb_spec (commonPrefix eqb l1 l2) (length l1)); try reflexivity; lia.
Qed.

Lemma mismatch_returns A (eqb : A -> A -> bool) l1 l2 rnd p rnd' :
  mismatch eqb l1 l2 rnd = Returns p rnd' ->
  p = commonPrefix eqb l1 l2 /\ rnd' = rnd.
Proof.
  unfold mismatch. destruct (_ && _); [discriminate|].
  intros H; apply ret_returns in H. destruct H; auto.
Qed.

Lemma mismatch_aborts A (eqb : A -> A -> bool) l1 l2 rnd f :
  mismatch eqb l1 l2 rnd = Aborts f -> f = Undefined.
Proof.
  unfold mismatch. destruct (_ && _); [|discriminate].
  intros H; inversion H; reflexivity.
Qed.

Lemma trimmed_share_no_end A (eqb : A -> A -> bool) l1 l2 :
  let p := commonPrefix eqb l1 l2 in
  let q := commonPrefix eqb (rev l1) (rev l2) in
  commonPrefix eqb (between l1 p (length l1 - q)) (between l2 p (length l2 - q)) = 0%nat
  /\ commonPrefix eqb (rev (between l1 p (length l1 - q)))
                      (rev (between l2 p (length l2 - q))) = 0%nat.
Proof.
  intros p q. split.
  - unfold between. apply commonPrefix_firstn, commonPrefix_skipn.
  - rewrite !rev_between. unfold between.
    apply commonPrefix_firstn, commonPrefix_skipn.
Qed.

Lemma trimmed_split A (l : list A) p q :
  (p <= length l - q)%nat ->
  l = firstn p l ++ between l p (length l - q) ++ skipn (length l - q) l.
Proof.
  intros H. apply between_split. lia.
Qed.

Lemma trimmed_ends_apart (orig newseg : PhraseSegmentation) :
  NoDup newseg ->
  let p := commonPrefix pair_eqb orig newseg in
  let q := commonPrefix pair_eqb (rev orig) (rev newseg) in
  (p < length orig)%nat -> (p <= length newseg - q)%nat ->
  (p + q <= length orig)%nat.
Proof.
  intros Hnd p q Hp Hpq.
  destruct (Nat.le_gt_cases (p + q) (length orig)) as [|Hgt]; [assumption|exfalso].
  pose proof (commonPrefix_le pair_eqb (rev orig) (rev newseg)) as [Hq1 Hq2].
  rewrite !length_rev in Hq1, Hq2. fold q in Hq1, Hq2.
  pose proof (commonPrefix_le pair_eqb orig newseg) as [_ Hp2]. fold p in Hp2.
  pose proof (@commonPrefix_nth orig newseg (length orig - q) ltac:(fold p; lia)) as E1.
  pose proof (commonSuffix_nth orig newseg 0) as E2. cbv zeta in E2. fold q in E2.
  rewrite !Nat.add_0_r in E2. rewrite E1 in E2.
  rewrite NoDup_nth_error in Hnd. apply Hnd in E2; lia.
Qed.

(** Two lists of the same length that differ at [p] cannot agree on a
    suffix that reaches [p]. *)
Lemma same_length_ends_apart (l1 l2 : PhraseSegmentation) :
  length l1 = length l2 ->
  let p := commonPrefix pair_eqb l1 l2 in
  let q := commonPrefix pair_eqb (rev l1) (rev l2) in
  (p < length l1)%nat -> (p + q < length l1)%nat.
Proof.
  intros Hlen p q Hp.
  destruct (Nat.lt_ge_cases (p + q) (length l1)) as [|Hge]; [assumption|exfalso].
  pose proof (commonPrefix_le pair_eqb (rev l1) (rev l2)) as [Hq _].
  rewrite length_rev in Hq. fold q in Hq.
  pose proof (commonSuffix_nth l1 l2 (p - (length l1 - q))) as E.
  cbv zeta in E. fold q in E. rewrite <- Hlen in E.
  replace (length l1 - q + (p - (length l1 - q)))%nat with p in E by lia.
  destruct (@nth_error_in_range _ l1 p Hp) as [x Hx].
  destruct (@nth_error_in_range _ l2 p ltac:(lia)) as [y Hy].
  apply (commonPrefix_mismatch l1 l2 Hx Hy). congruence.
Qed.

Lemma old_slice_of_run A (sent : list A) os oe p q :
  (os <= oe <= length sent)%nat ->
  (q <= oe - os)%nat ->
  between sent (os + p) (oe - q)
  = between (between sent os oe) p (length (between sent os oe) - q).
Proof.
  intros Hr Hq. rewrite (@length_between _ sent os oe Hr).
  rewrite between_between by lia. f_equal. lia.
Qed.

Lemma trimmed_indices start os oe p q n len :
  0 <= start -> os = Z.to_nat start ->
  (os + p <= oe - q)%nat -> (oe <= n)%nat -> Z.of_nat n < Uint.modulus ->
  len = (oe - os)%nat ->
  Z.to_nat (start +u Z.of_nat p) = (os + p)%nat
  /\ Z.to_nat (start +u Z.of_nat p +u (Z.of_nat (len - q) - Z.of_nat p)) = (oe - q)%nat.
Proof.
  intros Hs -> Hpq Hoe Hn ->. rewrite modulus_eq in Hn.
  rewrite (add_small start) by (rewrite modulus_eq; lia).
  rewrite add_small by (rewrite modulus_eq; lia).
  split; lia.
Qed.

(* ------------------------------------------------------------------------- *)
(** ** Shuffling and sorting *)

Lemma swap_middle A (l2 l3 : list A) x y :
  Permutation (x :: l2 ++ y :: l3) (y :: l2 ++ x :: l3).
Proof.
  transitivity (x :: y :: l2 ++ l3).
  - constructor. symmetry. apply Permutation_middle.
  - transitivity (y :: x :: l2 ++ l3); [apply perm_swap|].
    constructor. apply Permutation_middle.
Qed.

Lemma iter_swap_Permutation A (l : list A) i j :
  i <> j -> Permutation l (iter_swap l i j).
Proof.
  intros Hne. unfold iter_swap.
  destruct (nth_error l i) as [x|] eqn:Hi; [|reflexivity].
  destruct (nth_error l j) as [y|] eqn:Hj; [|reflexivity].
  destruct (Nat.lt_ge_cases i j) as [Hlt|Hge].
  - destruct (nth_error_two _ Hlt Hi Hj) as (l1 & l2 & l3 & -> & L1 & L2).
    rewrite assign_exact by (symmetry; exact L1).
    replace (l1 ++ y :: l2 ++ y :: l3) with ((l1 ++ y :: l2) ++ y :: l3)
      by (rewrite <- app_assoc; reflexivity).
    rewrite assign_exact by (rewrite length_app; cbn; lia).
    rewrite <- app_assoc. cbn.
    apply Permutation_app_head, swap_middle.
  - assert (Hlt : (j < i)%nat) by lia.
    destruct (nth_error_two _ Hlt Hj Hi) as (l1 & l2 & l3 & -> & L1 & L2).
    replace (l1 ++ y :: l2 ++ x :: l3) with ((l1 ++ y :: l2) ++ x :: l3)
      by (rewrite <- app_assoc; reflexivity).
    rewrite assign_exact by (rewrite length_app; cbn; lia).
    rewrite <- !app_assoc. cbn [app].
    rewrite (@assign_exact _ l1 (l2 ++ y :: l3) y x j) by (symmetry; exact L1).
    apply Permutation_app_head, swap_middle.
Qed.

Lemma shuffleFrom_Permutation A todo :
  forall i (l l' : list A) rnd rnd',
    shuffleFrom todo i l rnd = Returns l' rnd' -> Permutation l l'.
Proof.
  induction todo as [|todo IH]; intros i l l' rnd rnd' H; cbn [shuffleFrom] in H.
  - apply ret_returns in H. destruct H as [-> _]. reflexivity.
  - unbind H. apply IH in H.
    etransitivity; [|exact H].
    destruct (Nat.eqb_spec i (Z.to_nat a)); [reflexivity|].
    apply iter_swap_Permutation. assumption.
Qed.

Lemma random_shuffle_Permutation A (l l' : list A) rnd rnd' :
  random_shuffle l rnd = Returns l' rnd' -> Permutation l l'.
Proof.
  unfold random_shuffle. destruct l as [|x tl].
  - intros H. apply ret_returns in H. destruct H as [-> _]. reflexivity.
  - apply shuffleFrom_Permutation.
Qed.

Lemma insertSorted_Permutation A (comp : A -> A -> bool) x l :
  Permutation (x :: l) (insertSorted comp x l).
Proof.
  induction l as [|y l IH]; cbn; [reflexivity|].
  destruct (comp y x); [|reflexivity].
  etransitivity; [apply perm_swap|]. constructor. exact IH.
Qed.

Lemma sort_Permutation A (comp : A -> A -> bool) l : Permutation l (sort comp l).
Proof.
  induction l as [|x l IH]; cbn; [reflexivity|].
  etransitivity; [|apply insertSorted_Permutation]. constructor. exact IH.
Qed.

Lemma adjacent_find_found A (pred : A -> A -> bool) (l : list A) :
  adjacent_find pred l <> length l ->
  exists x y,
    nth_error l (adjacent_find pred l) = Some x
    /\ nth_error l (S (adjacent_find pred l)) = Some y
    /\ pred x y = true.
Proof.
  induction l as [|x l IH]; [cbn; congruence|].
  destruct l as [|y tl]; [cbn; congruence|].
  change (adjacent_find pred (x :: y :: tl))
    with (if pred x y then O else S (adjacent_find pred (y :: tl))).
  destruct (pred x y) eqn:E.
  - intros _. exists x, y. auto.
  - intros H. destruct IH as (x' & y' & H1 & H2 & H3).
    + intros E'. apply H. rewrite E'. reflexivity.
    + exists x', y'. auto.
Qed.

(* ------------------------------------------------------------------------- *)
(** ** Coverage bitmaps of a segmentation *)

Import ResegmentOperation.

Lemma fold_lor (seg : PhraseSegmentation) c d :
  fold_left (fun tgt (pp : AnchoredPhrasePair) => N.lor tgt (fst pp)) seg (N.lor c d)
  = N.lor c (fold_left (fun tgt (pp : AnchoredPhrasePair) => N.lor tgt (fst pp)) seg d).
Proof.
  revert d; induction seg as [|x seg IH]; intros d; cbn [fold_left]; [reflexivity|].
  rewrite <- N.lor_assoc. apply IH.
Qed.

Lemma coverage_cons x seg : coverage (x :: seg) = N.lor (fst x) (coverage seg).
Proof.
  unfold coverage. cbn [fold_left]. rewrite N.lor_0_l.
  etransitivity; [|apply (fold_lor seg (fst x) 0)].
  rewrite N.lor_0_r. reflexivity.
Qed.

Lemma coverage_app l1 l2 : coverage (l1 ++ l2) = N.lor (coverage l1) (coverage l2).
Proof.
  induction l1 as [|x l1 IH]; cbn [app].
  - reflexivity.
  - rewrite !coverage_cons, IH, N.lor_assoc. reflexivity.
Qed.

Lemma land_lor_zero a b c :
  N.land a (N.lor b c) = 0%N <-> N.land a b = 0%N /\ N.land a c = 0%N.
Proof.
  rewrite N.land_lor_distr_r. apply N.lor_eq_0_iff.
Qed.

Lemma lor_cancel a m m' :
  N.land a m = 0%N -> N.land a m' = 0%N -> N.lor a m = N.lor a m' -> m = m'.
Proof.
  intros Hm Hm' E. apply N.bits_inj. intros n.
  apply (f_equal (fun z => N.testbit z n)) in E, Hm, Hm'.
  rewrite !N.lor_spec in E. rewrite N.land_spec, N.bits_0 in Hm, Hm'.
  destruct (N.testbit a n), (N.testbit m n), (N.testbit m' n);
    cbn in *; congruence.
Qed.

Lemma disjoint_from_all c seg :
  forallb (fun y : AnchoredPhrasePair => (N.land c (fst y) =? 0)%N) seg = true
  <-> N.land c (coverage seg) = 0%N.
Proof.
  induction seg as [|x seg IH]; cbn [forallb].
  - unfold coverage; cbn. rewrite N.land_0_r. tauto.
  - rewrite coverage_cons, land_lor_zero, andb_true_iff, N.eqb_eq, IH. tauto.
Qed.

Lemma land_subset_zero c x seg :
  In x seg -> N.land c (coverage seg) = 0%N -> N.land c (fst x) = 0%N.
Proof.
  induction seg as [|y seg IH]; [intros []|].
  rewrite coverage_cons, land_lor_zero. intros [->|Hin] [H1 H2]; auto.
Qed.

Lemma partitionsSource_cons x seg :
  partitionsSource (x :: seg) = true
  <-> fst x <> 0%N /\ N.land (fst x) (coverage seg) = 0%N /\ partitionsSource seg = true.
Proof.
  cbn [partitionsSource].
  rewrite !andb_true_iff, negb_true_iff, N.eqb_neq, disjoint_from_all. tauto.
Qed.

Lemma partitionsSource_app l1 l2 :
  partitionsSource (l1 ++ l2) = true ->
  partitionsSource l1 = true /\ partitionsSource l2 = true
  /\ N.land (coverage l1) (coverage l2) = 0%N.
Proof.
  induction l1 as [|x l1 IH]; cbn [app].
  - intros H. splits; [reflexivity|assumption|reflexivity].
  - rewrite !partitionsSource_cons, coverage_app, land_lor_zero.
    intros (Hx & (Hx1 & Hx2) & Hrest). destruct (IH Hrest) as (H1 & H2 & H12).
    splits; try assumption.
    rewrite coverage_cons, N.land_comm, land_lor_zero.
    split; rewrite N.land_comm; assumption.
Qed.

Lemma partitionsSource_between seg b e :
  partitionsSource seg = true -> partitionsSource (between seg b e) = true.
Proof.
  intros H. unfold between.
  rewrite <- (firstn_skipn b seg) in H. apply partitionsSource_app in H.
  destruct H as (_ & H & _).
  rewrite <- (firstn_skipn (e - b) (skipn b seg)) in H. apply partitionsSource_app in H.
  destruct H as (H & _). exact H.
Qed.

Lemma partitionsSource_NoDup seg : partitionsSource seg = true -> NoDup seg.
Proof.
  induction seg as [|x seg IH]; [constructor|].
  rewrite partitionsSource_cons. intros (Hx & Hd & Hrest).
  constructor; [|apply IH; assumption].
  intros Hin. eapply land_subset_zero in Hd; [|exact Hin].
  rewrite N.land_diag in Hd. contradiction.
Qed.

Lemma partitionsSource_covers seg :
  partitionsSource seg = true -> seg <> [] -> coverage seg <> 0%N.
Proof.
  destruct seg as [|x seg]; [congruence|].
  rewrite partitionsSource_cons, coverage_cons. intros (Hx & _) _ H.
  apply N.lor_eq_0_iff in H. tauto.
Qed.

Lemma lowestBit_set p : N.testbit (N.pos p) (lowestBit p) = true.
Proof.
  induction p as [p _|p IH|]; cbn [lowestBit]; try reflexivity.
  change (N.pos p~0) with (2 * N.pos p)%N.
  rewrite N.testbit_even_succ by apply N.le_0_l. exact IH.
Qed.

Lemma find_first_set c : c <> 0%N -> N.testbit c (find_first c) = true.
Proof. destruct c as [|p]; [congruence|]. intros _. apply lowestBit_set. Qed.

Lemma disjoint_anchors (a b : AnchoredPhrasePair) :
  fst a <> 0%N -> fst b <> 0%N -> N.land (fst a) (fst b) = 0%N ->
  find_first (fst a) <> find_first (fst b).
Proof.
  intros Ha Hb Hd E.
  apply (f_equal (fun z => N.testbit z (find_first (fst a)))) in Hd.
  rewrite N.land_spec, N.bits_0, (find_first_set Ha), E, (find_first_set Hb) in Hd.
  discriminate.
Qed.

Lemma partition_pair seg i j x y :
  partitionsSource seg = true -> (i < j)%nat ->
  nth_error seg i = Some x -> nth_error seg j = Some y ->
  fst x <> 0%N /\ fst y <> 0%N /\ N.land (fst x) (fst y) = 0%N.
Proof.
  intros Hp Hij Hi Hj.
  destruct (nth_error_two _ Hij Hi Hj) as (l1 & l2 & l3 & -> & _ & _).
  apply partitionsSource_app in Hp. destruct Hp as (_ & Hp & _).
  apply partitionsSource_cons in Hp. destruct Hp as (Hx & Hd & Hp).
  apply partitionsSource_app in Hp. destruct Hp as (_ & Hp & _).
  apply partitionsSource_cons in Hp. destruct Hp as (Hy & _).
  splits; try assumption.
  eapply land_subset_zero; [|exact Hd]. apply in_or_app. right. left. reflexivity.
Qed.

Lemma sort_head_minimal seg h :
  hd_error (sort CompareAnchoredPhrasePairs seg) = Some h ->
  forall z, In z seg -> (find_first (fst h) <= find_first (fst z))%N.
Proof.
  revert h; induction seg as [|x seg IH]; intros h Hh z Hz; [destruct Hz|].
  cbn [sort] in Hh.
  destruct (sort CompareAnchoredPhrasePairs seg) as [|y s'] eqn:Es.
  - assert (seg = []).
    { pose proof (Permutation_length (sort_Permutation CompareAnchoredPhrasePairs seg)) as L.
      rewrite Es in L. destruct seg; [reflexivity|discriminate]. }
    subst seg. cbn in Hh. inversion Hh; subst h.
    destruct Hz as [->|[]]. apply N.le_refl.
  - specialize (IH y eq_refl). cbn [insertSorted] in Hh.
    unfold CompareAnchoredPhrasePairs in Hh at 1.
    destruct (N.ltb_spec (find_first (fst y)) (find_first (fst x))) as [Hlt|Hge];
      cbn in Hh; inversion Hh; subst h.
    + destruct Hz as [->|Hz]; [apply N.lt_le_incl; assumption|apply IH; assumption].
    + destruct Hz as [->|Hz]; [apply N.le_refl|].
      etransitivity; [exact Hge|apply IH; assumption].
Qed.

Lemma coverages_Permutation (a b : PhraseSegmentation) :
  Permutation a b -> Permutation (coverages a) (coverages b).
Proof. apply Permutation_map. Qed.

(* ------------------------------------------------------------------------- *)
(** ** Valid documents *)

(** Validity of a concrete document, by evaluation. *)
Ltac valid_document :=
  unfold validDocument, validSegmentation; cbn;
  repeat first [ lia | reflexivity | split | constructor ].

Lemma validDocument_count doc :
  validDocument doc ->
  Uint.wrap (Z.of_nat (length (getPhraseSegmentations doc)))
    = Z.of_nat (length (getPhraseSegmentations doc))
  /\ 0 < Z.of_nat (length (getPhraseSegmentations doc)).
Proof.
  intros (H1 & H2 & _). split; [apply wrap_small|]; lia.
Qed.

Lemma validSegmentation_length sent :
  validSegmentation sent -> Z.of_nat (length sent) < Uint.modulus.
Proof. intros (_ & H & _); exact H. Qed.

Lemma size_valid sent :
  validSegmentation sent -> size sent = Z.of_nat (length sent) /\ 1 <= size sent < Uint.modulus.
Proof.
  intros (H1 & H2 & _). unfold size. rewrite wrap_small by lia. lia.
Qed.

Lemma size_range sent : 0 <= size sent < Uint.modulus.
Proof. apply wrap_range. Qed.

Lemma drawSentence_eq doc rnd :
  validDocument doc ->
  drawSentence doc rnd
    = Returns (peek rnd mod Z.of_nat (length (getPhraseSegmentations doc))) (consume rnd).
Proof.
  intros Hd. destruct (validDocument_count Hd) as [E Hpos].
  unfold drawSentence. rewrite E. apply drawFromRange_eq; assumption.
Qed.

Lemma sentence_in_document doc sentno :
  validDocument doc ->
  0 <= sentno < Z.of_nat (length (getPhraseSegmentations doc)) ->
  exists sent,
    nth_error (getPhraseSegmentations doc) (Z.to_nat sentno) = Some sent
    /\ validSegmentation sent.
Proof.
  intros (_ & _ & _ & Hall) Hs.
  destruct (nth_error (getPhraseSegmentations doc) (Z.to_nat sentno)) as [sent|] eqn:E.
  - exists sent; split; [reflexivity|].
    rewrite Forall_forall in Hall. apply Hall. eapply nth_error_In; eassumption.
  - apply nth_error_None in E. lia.
Qed.

Lemma collection_in_document doc sentno :
  validDocument doc ->
  0 <= sentno < Z.of_nat (length (getPhraseSegmentations doc)) ->
  exists pcoll, nth_error (getPhraseTranslations doc) (Z.to_nat sentno) = Some pcoll.
Proof.
  intros (_ & _ & Hlen & _) Hs. apply nth_error_in_range. lia.
Qed.

Lemma valid_sentence doc n sent :
  validDocument doc ->
  nth_error (getPhraseSegmentations doc) n = Some sent -> validSegmentation sent.
Proof.
  intros (_ & _ & _ & Hall) Hn. rewrite Forall_forall in Hall.
  apply Hall. eapply nth_error_In; eassumption.
Qed.

Lemma splittingCollection_contract :
  sameSourceSpan splittingCollection /\ coversExactly splittingCollection.
Proof.
  split.
  - intros pp rnd. reflexivity.
  - intros tgt rnd. cbn [splittingCollection proposeSegmentation fst].
    destruct (N.eqb_spec tgt 0) as [->|H0]; [split; reflexivity|].
    destruct (N.eqb_spec tgt 3) as [->|H3]; [split; reflexivity|].
    split.
    + cbn. apply N.eqb_neq in H0. rewrite H0. reflexivity.
    + unfold coverage. cbn. reflexivity.
Qed.

Lemma document_contract sentences :
  Forall sameSourceSpan (getPhraseTranslations (document sentences))
  /\ Forall coversExactly (getPhraseTranslations (document sentences)).
Proof.
  unfold document. cbn [getPhraseTranslations].
  split; apply Forall_forall; intros pcoll Hin; apply in_map_iff in Hin;
    destruct Hin as (_ & <- & _); apply splittingCollection_contract.
Qed.

(* ------------------------------------------------------------------------- *)
(** ** Applying modifications *)

Lemma replaceRange_exact l1 mid l3 m :
  Z.to_nat (from m) = length l1 ->
  Z.to_nat (to m) = (length l1 + length mid)%nat ->
  replaceRange (l1 ++ mid ++ l3) m = l1 ++ proposal m ++ l3.
Proof.
  intros Hf Ht. unfold replaceRange. rewrite firstn_exact by assumption.
  rewrite (app_assoc l1 mid l3).
  rewrite (@skipn_exact _ (l1 ++ mid) l3) by (rewrite length_app; assumption).
  reflexivity.
Qed.

Lemma replaceRange_assign seg m i x :
  Z.to_nat (from m) = i -> Z.to_nat (to m) = S i -> proposal m = [x] ->
  (i < length seg)%nat ->
  replaceRange seg m = assign seg i x.
Proof.
  intros Hf Ht Hp Hi. unfold replaceRange, assign. rewrite Hf, Ht, Hp.
  f_equal. replace (S i) with (1 + i)%nat by lia. rewrite <- skipn_skipn.
  destruct (skipn i seg) as [|y tl] eqn:E; [|reflexivity].
  apply (f_equal (@length _)) in E. rewrite length_skipn in E. cbn in E. lia.
Qed.

Lemma nth_error_replace_single seg m x i :
  Z.to_nat (from m) = i -> Z.to_nat (to m) = S i -> proposal m = [x] ->
  (i < length seg)%nat ->
  length (replaceRange seg m) = length seg
  /\ forall k, nth_error (replaceRange seg m) k
               = if (k =? i)%nat then Some x else nth_error seg k.
Proof.
  intros Hf Ht Hp Hi. unfold replaceRange. rewrite Hf, Ht, Hp. split.
  - rewrite !length_app, length_firstn, length_skipn. cbn. lia.
  - intros k. destruct (Nat.eqb_spec k i) as [->|Hne].
    + rewrite nth_error_app2 by (rewrite length_firstn; lia).
      rewrite length_firstn. replace (i - Nat.min i (length seg))%nat with 0%nat by lia.
      reflexivity.
    + destruct (Nat.lt_ge_cases k i) as [Hlt|Hge].
      * rewrite nth_error_app1 by (rewrite length_firstn; lia).
        rewrite nth_error_firstn. destruct (Nat.ltb_spec k i); [reflexivity|lia].
      * rewrite nth_error_app2 by (rewrite length_firstn; lia).
        rewrite length_firstn.
        replace (k - Nat.min i (length seg))%nat with (S (k - i - 1)) by lia.
        cbn [nth_error app]. rewrite nth_error_skipn. f_equal. lia.
Qed.

Lemma replaced_differs (sent new : PhraseSegmentation) a b x y :
  nth_error sent a = Some x -> hd_error new = Some y -> x <> y ->
  firstn a sent ++ new ++ skipn b sent <> sent.
Proof.
  intros Hx Hy Hne E.
  apply (f_equal (fun l => nth_error l a)) in E.
  assert (Ha : (a < length sent)%nat) by (apply nth_error_Some; congruence).
  rewrite nth_error_app2 in E by (rewrite length_firstn; lia).
  rewrite length_firstn in E.
  replace (a - Nat.min a (length sent))%nat with 0%nat in E by lia.
  destruct new as [|y' new]; [discriminate|].
  cbn in Hy, E. congruence.
Qed.

Lemma applyModifications_single m sentences :
  applyModifications [m] sentences
  = mapNth (Z.to_nat (sentno m)) (fun seg => replaceRange seg m) sentences.
Proof. reflexivity. Qed.

Lemma applyModifications_pair m1 m2 sentences :
  sentno m2 = sentno m1 ->
  applyModifications [m1; m2] sentences
  = mapNth (Z.to_nat (sentno m1))
      (fun seg => if from m2 <? from m1
                  then replaceRange (replaceRange seg m1) m2
                  else replaceRange (replaceRange seg m2) m1)
      sentences.
Proof.
  intros Hs. unfold applyModifications, rightToLeft. cbn [fold_right insertRightToLeft].
  destruct (from m2 <? from m1); cbn [fold_left]; unfold applyModification;
    rewrite Hs, mapNth_mapNth; reflexivity.
Qed.

Lemma swap_both_orders sent m1 m2 i j x1 x2 :
  Z.to_nat (from m1) = i -> Z.to_nat (to m1) = S i -> proposal m1 = [x2] ->
  Z.to_nat (from m2) = j -> Z.to_nat (to m2) = S j -> proposal m2 = [x1] ->
  (i < length sent)%nat -> (j < length sent)%nat -> i <> j ->
  replaceRange (replaceRange sent m1) m2 = replaceRange (replaceRange sent m2) m1
  /\ length (replaceRange (replaceRange sent m1) m2) = length sent
  /\ forall k, nth_error (replaceRange (replaceRange sent m1) m2) k
               = if (k =? i)%nat then Some x2
                 else if (k =? j)%nat then Some x1
                 else nth_error sent k.
Proof.
  intros Hf1 Ht1 Hp1 Hf2 Ht2 Hp2 Hi Hj Hne.
  destruct (nth_error_replace_single sent _ Hf1 Ht1 Hp1 Hi) as [L1 N1].
  destruct (nth_error_replace_single sent _ Hf2 Ht2 Hp2 Hj) as [L2 N2].
  destruct (nth_error_replace_single (replaceRange sent m1) _ Hf2 Ht2 Hp2 ltac:(lia))
    as [L12 N12].
  destruct (nth_error_replace_single (replaceRange sent m2) _ Hf1 Ht1 Hp1 ltac:(lia))
    as [L21 N21].
  assert (Hk : forall k, nth_error (replaceRange (replaceRange sent m1) m2) k
               = if (k =? i)%nat then Some x2
                 else if (k =? j)%nat then Some x1
                 else nth_error sent k).
  { intros k. rewrite N12, N1.
    destruct (Nat.eqb_spec k j), (Nat.eqb_spec k i); try reflexivity; lia. }
  splits; [|lia|exact Hk].
  apply nth_error_ext. intros k. rewrite Hk, N21, N2. reflexivity.
Qed.

Lemma move_right_apply sent ins del start block dest :
  (start + block <= dest <= length sent)%nat ->
  Z.to_nat (from ins) = dest -> Z.to_nat (to ins) = dest ->
  proposal ins = between sent start (start + block) ->
  Z.to_nat (from del) = start -> Z.to_nat (to del) = (start + block)%nat ->
  proposal del = [] ->
  replaceRange (replaceRange sent ins) del
  = firstn start sent ++ between sent (start + block) dest
      ++ between sent start (start + block) ++ skipn dest sent.
Proof.
  intros Hr Hfi Hti Hpi Hfd Htd Hpd.
  destruct (@split_three _ sent start (start + block) dest ltac:(lia) ltac:(lia))
    as (E & L1 & L2 & L3).
  set (P := firstn start sent) in *. set (B := between sent start (start + block)) in *.
  set (Mid := between sent (start + block) dest) in *. set (S := skipn dest sent) in *.
  rewrite E.
  replace (P ++ B ++ Mid ++ S) with ((P ++ B ++ Mid) ++ [] ++ S)
    by (cbn; rewrite <- !app_assoc; reflexivity).
  rewrite replaceRange_exact, Hpi
    by (rewrite ?length_app; cbn [length]; lia).
  replace ((P ++ B ++ Mid) ++ B ++ S) with (P ++ B ++ (Mid ++ B ++ S))
    by (rewrite <- !app_assoc; reflexivity).
  rewrite replaceRange_exact, Hpd by lia.
  reflexivity.
Qed.

Lemma move_left_apply sent ins del start block dest :
  (dest <= start)%nat -> (start + block <= length sent)%nat ->
  Z.to_nat (from ins) = dest -> Z.to_nat (to ins) = dest ->
  proposal ins = between sent start (start + block) ->
  Z.to_nat (from del) = start -> Z.to_nat (to del) = (start + block)%nat ->
  proposal del = [] ->
  replaceRange (replaceRange sent del) ins
  = firstn dest sent ++ between sent start (start + block)
      ++ between sent dest start ++ skipn (start + block) sent.
Proof.
  intros Hr Hr' Hfi Hti Hpi Hfd Htd Hpd.
  destruct (@split_three _ sent dest start (start + block) ltac:(lia) ltac:(lia))
    as (E & L1 & L2 & L3).
  set (B := between sent start (start + block)) in *.
  set (P := firstn dest sent) in *. set (Mid := between sent dest start) in *.
  set (S := skipn (start + block) sent) in *.
  rewrite E.
  replace (P ++ Mid ++ B ++ S) with ((P ++ Mid) ++ B ++ S)
    by (rewrite <- !app_assoc; reflexivity).
  rewrite replaceRange_exact, Hpd by (rewrite ?length_app; lia).
  replace ((P ++ Mid) ++ [] ++ S) with (P ++ [] ++ (Mid ++ S))
    by (cbn; rewrite <- !app_assoc; reflexivity).
  rewrite replaceRange_exact, Hpi by (cbn [length]; lia).
  reflexivity.
Qed.

Lemma moveBlock_Permutation (sent : PhraseSegmentation) start block dest :
  (start + block <= length sent)%nat -> (dest <= length sent)%nat ->
  (start + block <= dest \/ dest <= start)%nat ->
  Permutation sent (moveBlock sent start block dest).
Proof.
  intros Hb Hd Hcase. unfold moveBlock.
  destruct (Nat.ltb_spec start dest) as [Hlt|Hge].
  - assert (Hsb : (start + block <= dest)%nat) by lia.
    destruct (@split_three _ sent start (start + block) dest ltac:(lia) ltac:(lia))
      as (E & _).
    rewrite E at 1. apply Permutation_app_head. apply Permutation_app_swap_app.
  - destruct (@split_three _ sent dest start (start + block) ltac:(lia) ltac:(lia))
      as (E & _).
    rewrite E at 1. apply Permutation_app_head. apply Permutation_app_swap_app.
Qed.

Lemma moveBlock_differs (sent : PhraseSegmentation) start block dest :
  NoDup sent -> (1 <= block)%nat ->
  (start + block <= length sent)%nat -> (dest <= length sent)%nat ->
  (start + block + 1 <= dest \/ dest + 1 <= start)%nat ->
  moveBlock sent start block dest <> sent.
Proof.
  intros Hnd Hblock Hb Hd Hcase. unfold moveBlock.
  destruct (Nat.ltb_spec start dest) as [Hlt|Hge].
  - destruct (@split_three _ sent start (start + block) dest ltac:(lia) ltac:(lia))
      as (E & L1 & L2 & L3).
    set (P := firstn start sent) in *. set (B := between sent start (start + block)) in *.
    set (Mid := between sent (start + block) dest) in *. set (S := skipn dest sent) in *.
    clearbody P B Mid S.
    intros E'. rewrite E in E' at 1. apply app_inv_head in E'.
    rewrite !app_assoc in E'. apply app_inv_tail in E'.
    rewrite E in Hnd. apply NoDup_app_remove_l in Hnd.
    rewrite app_assoc in Hnd. apply NoDup_app_remove_r in Hnd.
    apply (rotation_differs Hnd); [apply nonempty_length; lia
                                  |apply nonempty_length; lia|].
    symmetry; exact E'.
  - destruct (@split_three _ sent dest start (start + block) ltac:(lia) ltac:(lia))
      as (E & L1 & L2 & L3).
    set (B := between sent start (start + block)) in *.
    set (P := firstn dest sent) in *. set (Mid := between sent dest start) in *.
    set (S := skipn (start + block) sent) in *.
    clearbody P B Mid S.
    intros E'. rewrite E in E' at 1. apply app_inv_head in E'.
    rewrite !app_assoc in E'. apply app_inv_tail in E'.
    rewrite E in Hnd. apply NoDup_app_remove_l in Hnd.
    rewrite app_assoc in Hnd. apply NoDup_app_remove_r in Hnd.
    apply (rotation_differs Hnd); [apply nonempty_length; lia
                                  |apply nonempty_length; lia|].
    symmetry; exact E'.
Qed.

Lemma replaceRange_atIterators seg m :
  replaceRange seg (atIterators m) = replaceIteratorRange seg m.
Proof.
  unfold replaceRange, replaceIteratorRange, atIterators. cbn [from to proposal].
  rewrite !Nat2Z.id. reflexivity.
Qed.

Lemma atIterators_consistent m :
  from m = Z.of_nat (from_it m) -> to m = Z.of_nat (to_it m) -> atIterators m = m.
Proof.
  destruct m as [s f t fi ti p]. unfold atIterators. cbn. intros -> ->. reflexivity.
Qed.

Lemma applyAtIterators_single m sentences :
  applyAtIterators [m] sentences
  = mapNth (Z.to_nat (sentno m)) (fun seg => replaceIteratorRange seg m) sentences.
Proof.
  unfold applyAtIterators. cbn [map]. rewrite applyModifications_single.
  cbn [sentno atIterators].
  revert sentences. generalize (Z.to_nat (sentno m)).
  intros n sentences; revert n; induction sentences as [|s sentences IH]; intros [|n];
    cbn [mapNth]; try reflexivity.
  - rewrite replaceRange_atIterators. reflexivity.
  - rewrite IH. reflexivity.
Qed.

Lemma sameCoverageMultiset_refl sentences : sameCoverageMultiset sentences sentences.
Proof. induction sentences; constructor; [reflexivity|assumption]. Qed.

Lemma sameCoverageMultiset_mapNth sentences n f sent :
  nth_error sentences n = Some sent ->
  Permutation (coverages sent) (coverages (f sent)) ->
  sameCoverageMultiset sentences (mapNth n f sentences).
Proof.
  revert n; induction sentences as [|s sentences IH]; intros [|n]; cbn;
    try discriminate.
  - intros E Hp. inversion E; subst. constructor; [assumption|].
    apply sameCoverageMultiset_refl.
  - intros E Hp. constructor; [reflexivity|]. eapply IH; eassumption.
Qed.

Lemma sameCoverage_refl sentences : sameCoverage sentences sentences.
Proof. induction sentences; constructor; [reflexivity|assumption]. Qed.

Lemma sameCoverage_mapNth sentences n f sent :
  nth_error sentences n = Some sent ->
  coverage sent = coverage (f sent) ->
  sameCoverage sentences (mapNth n f sentences).
Proof.
  revert n; induction sentences as [|s sentences IH]; intros [|n]; cbn;
    try discriminate.
  - intros E Hp. inversion E; subst. constructor; [assumption|].
    apply sameCoverage_refl.
  - intros E Hp. constructor; [reflexivity|]. eapply IH; eassumption.
Qed.

Lemma trimmed_slices_minimal sent os oe full :
  (os <= oe <= length sent)%nat ->
  let orig := between sent os oe in
  let p := commonPrefix pair_eqb orig full in
  let q := commonPrefix pair_eqb (rev orig) (rev full) in
  let old := between sent (os + p) (oe - q) in
  let new := between full p (length full - q) in
  commonPrefix pair_eqb old new = 0%nat
  /\ commonPrefix pair_eqb (rev old) (rev new) = 0%nat
  /\ (forall x y, hd_error old = Some x -> hd_error new = Some y -> x <> y)
  /\ (forall x y, hd_error (rev old) = Some x -> hd_error (rev new) = Some y -> x <> y).
Proof.
  intros Hr orig p q old new.
  assert (Hq : (q <= oe - os)%nat).
  { pose proof (commonPrefix_le pair_eqb (rev orig) (rev full)) as [Hq _].
    rewrite length_rev in Hq. unfold orig in Hq.
    rewrite (@length_between _ sent os oe Hr) in Hq.
    exact Hq. }
  assert (Hold : old = between orig p (length orig - q))
    by (apply old_slice_of_run; assumption).
  destruct (trimmed_share_no_end pair_eqb orig full) as [Hpre Hsuf].
  fold p q in Hpre, Hsuf. rewrite <- Hold in Hpre, Hsuf. fold new in Hpre, Hsuf.
  splits; try assumption.
  - intros x y Hx Hy. destruct old as [|x' old']; [discriminate|].
    destruct new as [|y' new']; [discriminate|].
    cbn in Hx, Hy. inversion Hx; inversion Hy; subst.
    apply commonPrefix_zero_heads in Hpre.
    destruct (pair_eqb_spec x y); [discriminate|assumption].
  - intros x y Hx Hy. destruct (rev old) as [|x' old']; [discriminate|].
    destruct (rev new) as [|y' new']; [discriminate|].
    cbn in Hx, Hy. inversion Hx; inversion Hy; subst.
    apply commonPrefix_zero_heads in Hsuf.
    destruct (pair_eqb_spec x y); [discriminate|assumption].
Qed.

(** Replacing the middle of a run by the middle of a permutation of the run
    that has the same ends is a permutation of the sentence. *)
Lemma trimmed_replacement_Permutation (sent : PhraseSegmentation) os oe full :
  (os <= oe <= length sent)%nat ->
  Permutation (between sent os oe) full ->
  let orig := between sent os oe in
  let p := commonPrefix pair_eqb orig full in
  let q := commonPrefix pair_eqb (rev orig) (rev full) in
  (os + p <= oe - q)%nat ->
  Permutation sent
    (firstn (os + p) sent ++ between full p (length full - q) ++ skipn (oe - q) sent).
Proof.
  intros Hr Hperm orig p q Hpq.
  assert (Hlen : length orig = (oe - os)%nat) by (apply length_between; assumption).
  assert (Hlen' : length full = (oe - os)%nat)
    by (rewrite <- Hlen; symmetry; apply Permutation_length; assumption).
  assert (Hq : (q <= oe - os)%nat).
  { pose proof (commonPrefix_le pair_eqb (rev orig) (rev full)) as [Hq _].
    rewrite length_rev, Hlen in Hq. exact Hq. }
  pose proof (@trimmed_split _ orig p q ltac:(lia)) as Eo.
  pose proof (@trimmed_split _ full p q ltac:(lia)) as Ef.
  pose proof (commonPrefix_firstn_eq orig full) as Epre. fold p in Epre.
  pose proof (commonSuffix_skipn_eq orig full) as Esuf. cbv zeta in Esuf. fold q in Esuf.
  assert (Hmid : Permutation (between orig p (length orig - q))
                             (between full p (length full - q))).
  { assert (Hperm' : Permutation
                         (firstn p orig ++ between orig p (length orig - q)
                            ++ skipn (length orig - q) orig)
                         (firstn p full ++ between full p (length full - q)
                            ++ skipn (length full - q) full))
      by (rewrite <- Eo, <- Ef; exact Hperm).
    rewrite Epre, Esuf in Hperm'.
    apply Permutation_app_inv_l in Hperm'. apply Permutation_app_inv_r in Hperm'.
    exact Hperm'. }
  destruct (@between_split _ sent os oe Hr) as (Es & _ & _).
  fold orig in Es.
  assert (E1 : firstn (os + p) sent = firstn os sent ++ firstn p orig).
  { unfold orig, between. rewrite firstn_firstn.
    replace (Nat.min p (oe - os)) with p by lia.
    rewrite <- (firstn_skipn os (firstn (os + p) sent)).
    rewrite firstn_firstn. replace (Nat.min os (os + p)) with os by lia.
    f_equal. rewrite skipn_firstn_comm. f_equal. lia. }
  assert (E2 : skipn (oe - q) sent = skipn (length orig - q) orig ++ skipn oe sent).
  { rewrite Es at 1. rewrite skipn_app.
    rewrite skipn_all2 by (rewrite length_firstn; lia). cbn [app].
    rewrite length_firstn. rewrite skipn_app.
    replace (oe - q - Nat.min os (length sent))%nat with (length orig - q)%nat by lia.
    f_equal. rewrite Hlen.
    replace (oe - os - q - (oe - os))%nat with 0%nat by lia. reflexivity. }
  rewrite E1, E2. rewrite Es at 1. rewrite Eo at 1.
  rewrite <- !app_assoc. apply Permutation_app_head, Permutation_app_head.
  apply Permutation_app_tail. exact Hmid.
Qed.

(* ------------------------------------------------------------------------- *)
(** ** The common opening *)

Lemma drawLongSentence_total doc :
  validDocument doc ->
  forall retries rnd,
  exists sentno sent rnd',
    drawLongSentence retries doc rnd = Returns (sentno, size sent) rnd'
    /\ nth_error (getPhraseSegmentations doc) (Z.to_nat sentno) = Some sent
    /\ validSegmentation sent
    /\ 0 <= sentno < Z.of_nat (length (getPhraseSegmentations doc))
    /\ source rnd' = source rnd
    /\ (cursor rnd < cursor rnd' <= cursor rnd + retries + 1)%nat
    /\ (forall i, (cursor rnd <= i < cursor rnd' - 1)%nat -> sizeOfDraw doc (source rnd i) < 2)
    /\ size sent = sizeOfDraw doc (source rnd (cursor rnd' - 1))
    /\ (size sent < 2 -> cursor rnd' = (cursor rnd + retries + 1)%nat).
Proof.
  intros Hd. destruct (validDocument_count Hd) as [Ew Hpos].
  induction retries as [|retries IH]; intros rnd.
  all: assert (Hrange : 0 <= peek rnd mod Z.of_nat (length (getPhraseSegmentations doc))
                        < Z.of_nat (length (getPhraseSegmentations doc)))
         by (apply Z.mod_pos_bound; assumption).
  all: destruct (sentence_in_document Hd Hrange) as (sent & Hnth & Hv).
  all: assert (Hsz : size sent = sizeOfDraw doc (source rnd (cursor rnd)))
         by (unfold sizeOfDraw; rewrite Ew; fold (peek rnd);
             rewrite (nth_error_nth _ _ _ Hnth); reflexivity).
  all: cbn [drawLongSentence].
  all: rewrite (bind_eq _ (drawSentence_eq rnd Hd)).
  all: unfold sentenceAt; erewrite bind_eq by (apply deref_eq; exact Hnth).
  all: destruct (Z.ltb_spec (size sent) 2) as [Hlt|Hge].
  - exists (peek rnd mod Z.of_nat (length (getPhraseSegmentations doc))), sent, (consume rnd).
    cbn [consume cursor source].
    splits; try reflexivity; try assumption; try lia.
    replace (S (cursor rnd) - 1)%nat with (cursor rnd) by lia. assumption.
  - exists (peek rnd mod Z.of_nat (length (getPhraseSegmentations doc))), sent, (consume rnd).
    cbn [consume cursor source].
    splits; try reflexivity; try assumption; try lia.
    replace (S (cursor rnd) - 1)%nat with (cursor rnd) by lia. assumption.
  - destruct (IH (consume rnd))
      as (sentno' & sent' & rnd' & Hrun & Hnth' & Hv' & Hr' & Hsrc & Hcur & Hshort & Hlast & Hgive).
    cbn [consume cursor source] in *.
    exists sentno', sent', rnd'. splits; try assumption; try lia.
    intros i Hi. destruct (Nat.eq_dec i (cursor rnd)) as [->|Hne].
    + rewrite <- Hsz. assumption.
    + apply Hshort. lia.
  - exists (peek rnd mod Z.of_nat (length (getPhraseSegmentations doc))), sent, (consume rnd).
    cbn [consume cursor source].
    splits; try reflexivity; try assumption; try lia.
    replace (S (cursor rnd) - 1)%nat with (cursor rnd) by lia. assumption.
Qed.

Lemma drawLongSentence_returns doc retries :
  forall rnd sentno sentsize rnd',
    drawLongSentence retries doc rnd = Returns (sentno, sentsize) rnd' ->
    exists sent,
      nth_error (getPhraseSegmentations doc) (Z.to_nat sentno) = Some sent
      /\ sentsize = size sent.
Proof.
  induction retries as [|retries IH]; intros rnd sentno sentsize rnd' H;
    cbn [drawLongSentence] in H.
  all: apply bind_returns in H; destruct H as (sentno0 & r1 & _ & H).
  all: apply bind_returns in H; destruct H as (sent & r2 & Hs & H).
  all: apply deref_returns in Hs; destruct Hs as [Hs _].
  all: destruct (size sent <? 2).
  all: try (apply ret_returns in H; destruct H as [H _]; inversion H; subst; eauto).
  eapply IH; eassumption.
Qed.

Lemma drawLongSentence_aborts doc retries :
  forall rnd f, drawLongSentence retries doc rnd = Aborts f -> f = Undefined.
Proof.
  induction retries as [|retries IH]; intros rnd f H; cbn [drawLongSentence] in H.
  all: apply bind_aborts in H; destruct H as [H|(sentno & r1 & _ & H)];
    [eapply drawFromRange_aborts; exact H|].
  all: apply bind_aborts in H; destruct H as [H|(sent & r2 & _ & H)];
    [eapply deref_aborts; exact H|].
  all: destruct (size sent <? 2); try discriminate.
  eapply IH; eassumption.
Qed.

Lemma short_sentence_no_proposal doc rnd sno sentsize rnd' d b r rd ld :
  drawLongSentence 10 doc rnd = Returns (sno, sentsize) rnd' ->
  sentsize < 2 ->
  PermutePhrasesOperation.createSearchStep d doc rnd = Returns None rnd'
  /\ LinearisePhrasesOperation.createSearchStep d doc rnd = Returns None rnd'
  /\ SwapPhrasesOperation.createSearchStep d doc rnd = Returns None rnd'
  /\ MovePhrasesOperation.createSearchStep b r rd ld doc rnd = Returns None rnd'.
Proof.
  intros Hpre Hlt.
  unfold PermutePhrasesOperation.createSearchStep,
    LinearisePhrasesOperation.createSearchStep,
    SwapPhrasesOperation.createSearchStep,
    MovePhrasesOperation.createSearchStep.
  splits; erewrite bind_eq by exact Hpre; cbv beta match;
    (destruct (Z.ltb_spec sentsize 2); [reflexivity|lia]).
Qed.

(** C5 does not hold with a bound of ten: on a document whose only sentence
    has one phrase the opening calls [drawSentence] eleven times. *)
Lemma preamble_draws_eleven_times : ~ preambleDrawsAtMost 10 docA (tape []).
Proof.
  intros H.
  specialize (H (0, 1) (mkRandom (source (tape [])) 11) eq_refl).
  cbn in H. lia.
Qed.

(** C5, amended.  PermutePhrases, LinearisePhrases, SwapPhrases and
    MovePhrases open with the same loop.  On a valid document it draws a
    sentence, draws again as long as the sentence drawn has fewer than two
    phrases, and stops at the first draw of a longer sentence or after the
    eleventh draw (the first one and ten more): at most 11 calls to
    [drawSentence] are made.  The sentence kept is the last one drawn; if it
    still has fewer than two phrases, eleven draws were made and each of the
    four operators returns no proposal. *)
Theorem preamble_draws_at_most_eleven doc rnd d b r rd ld :
  validDocument doc ->
  preambleDrawsAtMost 11 doc rnd
  /\ exists sno sent rnd',
      drawLongSentence 10 doc rnd = Returns (sno, size sent) rnd'
      /\ nth_error (getPhraseSegmentations doc) (Z.to_nat sno) = Some sent
      /\ source rnd' = source rnd
      /\ (1 <= cursor rnd' - cursor rnd <= 11)%nat
      /\ (forall i, (cursor rnd <= i < cursor rnd' - 1)%nat ->
                    sizeOfDraw doc (source rnd i) < 2)
      /\ size sent = sizeOfDraw doc (source rnd (cursor rnd' - 1))
      /\ ((cursor rnd' - cursor rnd < 11)%nat -> 2 <= size sent)
      /\ (size sent < 2 ->
          PermutePhrasesOperation.createSearchStep d doc rnd = Returns None rnd'
          /\ LinearisePhrasesOperation.createSearchStep d doc rnd = Returns None rnd'
          /\ SwapPhrasesOperation.createSearchStep d doc rnd = Returns None rnd'
          /\ MovePhrasesOperation.createSearchStep b r rd ld doc rnd = Returns None rnd').
Proof.
  intros Hd.
  destruct (drawLongSentence_total Hd 10 rnd)
    as (sno & sent & rnd' & Hpre & Hnth & Hv & Hsno & Hsrc & Hcur & Hshort & Hlast & Hgive).
  split.
  - intros res r' Hres. rewrite Hpre in Hres. inversion Hres; subst. lia.
  - exists sno, sent, rnd'. splits; try assumption; try lia.
    intros Hlt. eapply short_sentence_no_proposal; eassumption.
Qed.

Lemma preamble_draws_at_most_eleven_witness :
  validDocument docA /\ preambleDrawsAtMost 11 docA (tape []).
Proof.
  assert (Hd : validDocument docA) by valid_document.
  split; [exact Hd|].
  exact (proj1 (preamble_draws_at_most_eleven (tape []) (1 # 2) (1 # 2) (1 # 2) (1 # 2)
                  (1 # 2) Hd)).
Defined.

(* ------------------------------------------------------------------------- *)
(** ** ChangePhraseTranslation *)

Lemma ChangePhraseTranslation_run doc rnd :
  validDocument doc ->
  exists sno sent pcoll ph old pp r',
    drawSentence doc rnd = Returns sno (consume rnd)
    /\ nth_error (getPhraseSegmentations doc) (Z.to_nat sno) = Some sent
    /\ validSegmentation sent
    /\ nth_error (getPhraseTranslations doc) (Z.to_nat sno) = Some pcoll
    /\ drawFromRange (size sent) (consume rnd) = Returns ph (consume (consume rnd))
    /\ 0 <= ph < Z.of_nat (length sent)
    /\ nth_error sent (Z.to_nat ph) = Some old
    /\ proposeAlternativeTranslation pcoll old (consume (consume rnd)) = (pp, r')
    /\ ChangePhraseTranslationOperation.createSearchStep doc rnd
       = Returns (if pair_eqb old pp then None
                  else Some (changeStep sno ph pp)) r'.
Proof.
  intros Hd.
  pose proof (drawSentence_eq rnd Hd) as Hdraw.
  destruct (validDocument_count Hd) as [_ Hpos].
  pose proof (Z.mod_pos_bound (peek rnd) _ Hpos) as Hsno.
  set (sno := peek rnd mod Z.of_nat (length (getPhraseSegmentations doc))) in *.
  destruct (sentence_in_document Hd Hsno) as (sent & Hnth & Hv).
  destruct (collection_in_document Hd Hsno) as (pcoll & Hcoll).
  destruct (size_valid Hv) as [Hsz Hr].
  assert (Hr' := Hr). rewrite modulus_eq in Hr'.
  pose proof (@drawFromRange_eq (size sent) (consume rnd) ltac:(lia)) as Hph.
  pose proof (Z.mod_pos_bound (peek (consume rnd)) (size sent) ltac:(lia)) as Hphr.
  set (ph := peek (consume rnd) mod size sent) in *.
  destruct (@nth_error_in_range _ sent (Z.to_nat ph) ltac:(lia)) as [old Hold].
  destruct (proposeAlternativeTranslation pcoll old (consume (consume rnd)))
    as [pp r'] eqn:Hprop.
  exists sno, sent, pcoll, ph, old, pp, r'.
  splits; try assumption; try lia.
  unfold ChangePhraseTranslationOperation.createSearchStep.
  erewrite bind_eq by exact Hdraw. cbv beta.
  unfold sentenceAt, collectionAt.
  erewrite bind_eq by (apply deref_eq; exact Hnth).
  erewrite bind_eq by (apply deref_eq; exact Hcoll).
  erewrite bind_eq by exact Hph.
  erewrite bind_eq by (apply advance_eq; cbn; lia).
  cbn [Nat.add].
  erewrite bind_eq by (apply deref_eq; exact Hold).
  erewrite bind_eq by apply call_eq.
  rewrite Hprop. cbn [fst snd].
  destruct (pair_eqb old pp); [reflexivity|].
  unfold ret, changeStep, addModification, newSearchStep. cbn. uint_small. reflexivity.
Qed.

(** C8.  ChangePhraseTranslation on a valid document draws a sentence and a
    position [ph] in it, and asks the sentence's collection for an
    alternative [pp] to the pair [old] at [ph].  It returns no proposal if
    and only if [pp] equals [old]; otherwise it returns a step with exactly
    one modification, which replaces the range [[ph, ph+1)] by the singleton
    [[pp]]. *)
Theorem ChangePhraseTranslation_no_proposal_iff_same_pair doc rnd :
  validDocument doc ->
  exists sno sent pcoll ph old pp result r',
    drawSentence doc rnd = Returns sno (consume rnd)
    /\ nth_error (getPhraseSegmentations doc) (Z.to_nat sno) = Some sent
    /\ nth_error (getPhraseTranslations doc) (Z.to_nat sno) = Some pcoll
    /\ drawFromRange (size sent) (consume rnd) = Returns ph (consume (consume rnd))
    /\ 0 <= ph < Z.of_nat (length sent)
    /\ nth_error sent (Z.to_nat ph) = Some old
    /\ proposeAlternativeTranslation pcoll old (consume (consume rnd)) = (pp, r')
    /\ ChangePhraseTranslationOperation.createSearchStep doc rnd = Returns result r'
    /\ (result = None <-> pp = old)
    /\ (pp <> old ->
        exists step m,
          result = Some step
          /\ getModifications step = [m]
          /\ sentno m = sno /\ from m = ph /\ to m = ph + 1 /\ proposal m = [pp]
          /\ oldSlice sent m = [old]).
Proof.
  intros Hd.
  destruct (ChangePhraseTranslation_run rnd Hd)
    as (sno & sent & pcoll & ph & old & pp & r'
        & Hdraw & Hnth & Hv & Hcoll & Hph & Hphr & Hold & Hprop & Hrun).
  exists sno, sent, pcoll, ph, old, pp.
  eexists; exists r'. splits; try eassumption; try lia.
  - destruct (pair_eqb_spec old pp) as [E|E]; split; intros H;
      try reflexivity; try discriminate; congruence.
  - intros Hne. destruct (pair_eqb_spec old pp) as [E|E]; [congruence|].
    eexists; eexists; splits; try reflexivity.
    unfold oldSlice. cbn [from_it to_it changeStep]. apply between_single. assumption.
Qed.

Lemma ChangePhraseTranslation_no_proposal_iff_same_pair_witness :
  validDocument docABC
  /\ exists (old pp : AnchoredPhrasePair) result r',
      ChangePhraseTranslationOperation.createSearchStep docABC (tape [0; 2])
        = Returns result r'
      /\ (result = None <-> pp = old).
Proof.
  assert (Hd : validDocument docABC) by valid_document.
  split; [exact Hd|].
  destruct (ChangePhraseTranslation_no_proposal_iff_same_pair (tape [0; 2]) Hd)
    as (sno & sent & pcoll & ph & old & pp & result & r'
        & _ & _ & _ & _ & _ & _ & _ & Hrun & Hiff & _).
  exists old, pp, result, r'. split; [exact Hrun|exact Hiff].
Defined.

Lemma ChangePhraseTranslation_preserves_coverage doc rnd step rnd' :
  validDocument doc ->
  Forall sameSourceSpan (getPhraseTranslations doc) ->
  ChangePhraseTranslationOperation.createSearchStep doc rnd = Returns (Some step) rnd' ->
  sameCoverageMultiset (getPhraseSegmentations doc)
    (applyModifications (getModifications step) (getPhraseSegmentations doc)).
Proof.
  intros Hd Hcontract Hrun.
  destruct (ChangePhraseTranslation_run rnd Hd)
    as (sno & sent & pcoll & ph & old & pp & r'
        & _ & Hnth & Hv & Hcoll & _ & Hphr & Hold & Hprop & Hrun').
  rewrite Hrun' in Hrun.
  destruct (pair_eqb old pp); [discriminate|]. inversion Hrun; subst step rnd'.
  cbn [getModifications changeStep]. rewrite applyModifications_single. cbn [sentno].
  eapply sameCoverageMultiset_mapNth; [exact Hnth|].
  assert (Hcov : fst pp = fst old).
  { rewrite Forall_forall in Hcontract.
    specialize (Hcontract pcoll (nth_error_In _ _ Hcoll) old (consume (consume rnd))).
    rewrite Hprop in Hcontract. exact Hcontract. }
  destruct (nth_error_split _ _ Hold) as (l1 & l2 & -> & L1).
  change (l1 ++ old :: l2) with (l1 ++ [old] ++ l2) at 2.
  rewrite replaceRange_exact by (cbn; lia).
  cbn [proposal]. unfold coverages. rewrite !map_app. cbn [map app].
  rewrite Hcov. reflexivity.
Qed.

Lemma ChangePhraseTranslation_changes doc rnd step rnd' :
  validDocument doc ->
  ChangePhraseTranslationOperation.createSearchStep doc rnd = Returns (Some step) rnd' ->
  applyModifications (getModifications step) (getPhraseSegmentations doc)
  <> getPhraseSegmentations doc.
Proof.
  intros Hd Hrun.
  destruct (ChangePhraseTranslation_run rnd Hd)
    as (sno & sent & pcoll & ph & old & pp & r'
        & _ & Hnth & Hv & Hcoll & _ & Hphr & Hold & Hprop & Hrun').
  rewrite Hrun' in Hrun.
  destruct (pair_eqb_spec old pp) as [|Hne]; [discriminate|].
  inversion Hrun; subst step rnd'.
  cbn [getModifications changeStep]. rewrite applyModifications_single. cbn [sentno].
  apply (mapNth_changes _ _ Hnth).
  unfold replaceRange. cbn [from to proposal].
  apply (@replaced_differs sent _ _ _ old pp); [assumption|reflexivity|assumption].
Qed.

Lemma ChangePhraseTranslation_consistent doc rnd step rnd' :
  validDocument doc ->
  ChangePhraseTranslationOperation.createSearchStep doc rnd = Returns (Some step) rnd' ->
  map atIterators (getModifications step) = getModifications step.
Proof.
  intros Hd Hrun.
  destruct (ChangePhraseTranslation_run rnd Hd)
    as (sno & sent & pcoll & ph & old & pp & r'
        & _ & Hnth & Hv & Hcoll & _ & Hphr & Hold & Hprop & Hrun').
  rewrite Hrun' in Hrun. destruct (pair_eqb old pp); [discriminate|].
  inversion Hrun; subst step rnd'. cbn [getModifications changeStep map].
  rewrite atIterators_consistent; [reflexivity|cbn; lia|cbn; lia].
Qed.

(* ------------------------------------------------------------------------- *)
(** ** PermutePhrases *)

Lemma shuffleUntilChanged_returns retries :
  forall orig pg pg' p rnd rnd',
    PermutePhrasesOperation.shuffleUntilChanged retries orig pg rnd = Returns (pg', p) rnd' ->
    Permutation pg pg' /\ p = commonPrefix pair_eqb orig pg'.
Proof.
  induction retries as [|retries IH]; intros orig pg pg' p rnd rnd' H;
    cbn [PermutePhrasesOperation.shuffleUntilChanged] in H.
  all: unbind H; apply random_shuffle_Permutation in Hcall.
  all: unbind H; apply mismatch_returns in Hcall0; destruct Hcall0 as [-> ->].
  all: destruct (_ =? _)%nat.
  all: try (apply ret_returns in H; destruct H as [H _]; inversion H; subst; auto).
  apply IH in H. destruct H as [Hp ->]. split; [|reflexivity].
  etransitivity; eassumption.
Qed.

Lemma PermutePhrases_returns d doc rnd step rnd' :
  PermutePhrasesOperation.createSearchStep d doc rnd = Returns (Some step) rnd' ->
  exists sno sent start oe pg,
    nth_error (getPhraseSegmentations doc) (Z.to_nat sno) = Some sent
    /\ 0 <= start
    /\ (Z.to_nat start <= oe <= length sent)%nat
    /\ Permutation (between sent (Z.to_nat start) oe) pg
    /\ let os := Z.to_nat start in
       let orig := between sent os oe in
       let p := commonPrefix pair_eqb orig pg in
       let q := commonPrefix pair_eqb (rev orig) (rev pg) in
       p <> length orig
       /\ (os + p <= oe - q)%nat
       /\ (p <= length pg - q)%nat
       /\ step = mkSearchStep (PermutePhrasesOperation d)
                  [mkModification sno (start +u Z.of_nat p)
                     (start +u Z.of_nat p +u (Z.of_nat (length pg - q) - Z.of_nat p))
                     (os + p) (oe - q) (between pg p (length pg - q))].
Proof.
  intros H. unfold PermutePhrasesOperation.createSearchStep in H.
  unbind H. destruct a as [sno sentsize].
  destruct (drawLongSentence_returns _ _ _ Hcall) as (sent & Hnth & ->).
  destruct (size sent <? 2); [apply ret_returns in H; destruct H; discriminate|].
  unbind H. apply deref_returns in Hcall0. destruct Hcall0 as [Hnth' ->].
  unfold sentenceAt in *. rewrite Hnth in Hnth'. inversion Hnth'; subst a. clear Hnth'.
  unbind H. unbind H. rename a0 into start.
  apply drawFromRange_returns in Hcall1. destruct Hcall1 as (_ & _ & Hstart & ->).
  unbind H. apply advance_returns in Hcall1. destruct Hcall1 as (-> & _ & ->).
  unbind H. apply advance_returns in Hcall1. destruct Hcall1 as (-> & _ & ->).
  unbind H. apply copyRange_returns in Hcall1. destruct Hcall1 as (-> & Hrange & ->).
  unbind H. destruct a0 as [pg p].
  apply shuffleUntilChanged_returns in Hcall1. destruct Hcall1 as [Hperm ->].
  cbn [Nat.add] in *.
  match type of H with context [(?x =? ?y)%nat] => destruct (Nat.eqb_spec x y) as [E|E] end;
    [apply ret_returns in H; destruct H; discriminate|].
  unbind H. apply mismatch_returns in Hcall1. destruct Hcall1 as [-> ->].
  unbind H. apply copyRange_returns in Hcall1. destruct Hcall1 as (_ & Hold & ->).
  unbind H. apply copyRange_returns in Hcall1. destruct Hcall1 as (-> & Hnew & ->).
  apply ret_returns in H. destruct H as [H _]. inversion H; subst step. clear H.
  exists sno, sent, start, (Z.to_nat start + Z.to_nat (a +u 1))%nat, pg.
  splits; try assumption; try lia; reflexivity.
Qed.

Lemma PermutePhrases_preserves_coverage d doc rnd step rnd' :
  validDocument doc ->
  PermutePhrasesOperation.createSearchStep d doc rnd = Returns (Some step) rnd' ->
  sameCoverageMultiset (getPhraseSegmentations doc)
    (applyModifications (getModifications step) (getPhraseSegmentations doc)).
Proof.
  intros Hd Hrun. apply PermutePhrases_returns in Hrun.
  destruct Hrun as (sno & sent & start & oe & pg & Hnth & Hs & Hr & Hperm
                    & _ & Hpq & _ & ->).
  cbn [getModifications]. rewrite applyModifications_single. cbn [sentno].
  eapply sameCoverageMultiset_mapNth; [exact Hnth|].
  apply coverages_Permutation.
  pose proof (validSegmentation_length (valid_sentence _ Hd Hnth)) as Hlen.
  assert (Hpg : length pg = (oe - Z.to_nat start)%nat).
  { rewrite <- (Permutation_length Hperm). apply length_between. assumption. }
  destruct (@trimmed_indices start (Z.to_nat start) oe
              (commonPrefix pair_eqb (between sent (Z.to_nat start) oe) pg)
              (commonPrefix pair_eqb (rev (between sent (Z.to_nat start) oe)) (rev pg))
              (length sent) (length pg))
    as [Ef Et]; try assumption; try reflexivity; try lia.
  unfold replaceRange. cbn [from to proposal]. rewrite Ef, Et.
  apply trimmed_replacement_Permutation; assumption.
Qed.

Lemma PermutePhrases_changes d doc rnd step rnd' :
  validDocument doc ->
  PermutePhrasesOperation.createSearchStep d doc rnd = Returns (Some step) rnd' ->
  applyModifications (getModifications step) (getPhraseSegmentations doc)
  <> getPhraseSegmentations doc.
Proof.
  intros Hd Hrun. apply PermutePhrases_returns in Hrun.
  destruct Hrun as (sno & sent & start & oe & pg & Hnth & Hs & Hr & Hperm
                    & Hp & Hpq & _ & ->).
  cbn [getModifications]. rewrite applyModifications_single. cbn [sentno].
  apply (mapNth_changes _ _ Hnth).
  pose proof (validSegmentation_length (valid_sentence _ Hd Hnth)) as Hlen.
  set (orig := between sent (Z.to_nat start) oe) in *.
  assert (Horig : length orig = (oe - Z.to_nat start)%nat)
    by (apply length_between; assumption).
  assert (Hpg : length pg = (oe - Z.to_nat start)%nat)
    by (rewrite <- (Permutation_length Hperm); assumption).
  set (p := commonPrefix pair_eqb orig pg) in *.
  set (q := commonPrefix pair_eqb (rev orig) (rev pg)) in *.
  pose proof (commonPrefix_le pair_eqb orig pg) as [Hp1 _]. fold p in Hp1.
  pose proof (@same_length_ends_apart orig pg ltac:(lia) ltac:(fold p; lia)) as Hap.
  cbv zeta in Hap. fold p q in Hap.
  destruct (@trimmed_indices start (Z.to_nat start) oe p q (length sent) (length pg))
    as [Ef Et]; try assumption; try reflexivity; try lia.
  unfold replaceRange. cbn [from to proposal]. rewrite Ef.
  destruct (@nth_error_in_range _ orig p ltac:(lia)) as [x Hx].
  destruct (@nth_error_in_range _ pg p ltac:(lia)) as [y Hy].
  apply (@replaced_differs sent _ _ _ x y).
  - unfold orig in Hx. rewrite nth_error_between in Hx by lia. exact Hx.
  - rewrite hd_error_between by lia. exact Hy.
  - apply (commonPrefix_mismatch orig pg Hx Hy).
Qed.

Lemma PermutePhrases_consistent d doc rnd step rnd' :
  validDocument doc ->
  PermutePhrasesOperation.createSearchStep d doc rnd = Returns (Some step) rnd' ->
  map atIterators (getModifications step) = getModifications step.
Proof.
  intros Hd Hrun. apply PermutePhrases_returns in Hrun.
  destruct Hrun as (sno & sent & start & oe & pg & Hnth & Hs & Hr & Hperm
                    & _ & Hpq & _ & ->).
  pose proof (validSegmentation_length (valid_sentence _ Hd Hnth)) as Hlen.
  assert (Hpg : length pg = (oe - Z.to_nat start)%nat).
  { rewrite <- (Permutation_length Hperm). apply length_between. assumption. }
  destruct (@trimmed_indices start (Z.to_nat start) oe
              (commonPrefix pair_eqb (between sent (Z.to_nat start) oe) pg)
              (commonPrefix pair_eqb (rev (between sent (Z.to_nat start) oe)) (rev pg))
              (length sent) (length pg))
    as [Ef Et]; try assumption; try reflexivity; try lia.
  cbn [getModifications map].
  rewrite atIterators_consistent; [reflexivity| |]; cbn [from to from_it to_it].
  - rewrite <- Ef. symmetry. apply Z2Nat.id. apply wrap_range.
  - rewrite <- Et. symmetry. apply Z2Nat.id. apply wrap_range.
Qed.

(* ------------------------------------------------------------------------- *)
(** ** LinearisePhrases *)

Lemma LinearisePhrases_returns d doc rnd step rnd' :
  LinearisePhrasesOperation.createSearchStep d doc rnd = Returns (Some step) rnd' ->
  exists sno sent start oe,
    nth_error (getPhraseSegmentations doc) (Z.to_nat sno) = Some sent
    /\ 0 <= start
    /\ (Z.to_nat start <= oe <= length sent)%nat
    /\ let os0 := Z.to_nat start in
       let os := (os0 + adjacent_find (not2 CompareAnchoredPhrasePairs)
                          (between sent os0 oe))%nat in
       let orig := between sent os oe in
       let pg := sort CompareAnchoredPhrasePairs orig in
       let p := commonPrefix pair_eqb orig pg in
       let q := commonPrefix pair_eqb (rev orig) (rev pg) in
       os <> oe
       /\ (os <= oe)%nat
       /\ (os + p <= oe - q)%nat
       /\ (p <= length pg - q)%nat
       /\ step = mkSearchStep (LinearisePhrasesOperation d)
                  [mkModification sno (start +u Z.of_nat p)
                     (start +u Z.of_nat p +u (Z.of_nat (length pg - q) - Z.of_nat p))
                     (os + p) (oe - q) (between pg p (length pg - q))].
Proof.
  intros H. unfold LinearisePhrasesOperation.createSearchStep in H.
  unbind H. destruct a as [sno sentsize].
  destruct (drawLongSentence_returns _ _ _ Hcall) as (sent & Hnth & ->).
  destruct (size sent <? 2); [apply ret_returns in H; destruct H; discriminate|].
  unbind H. apply deref_returns in Hcall0. destruct Hcall0 as [Hnth' ->].
  unfold sentenceAt in *. rewrite Hnth in Hnth'. inversion Hnth'; subst a. clear Hnth'.
  unbind H. unbind H. rename a0 into start.
  apply drawFromRange_returns in Hcall1. destruct Hcall1 as (_ & _ & Hstart & ->).
  unbind H. apply advance_returns in Hcall1. destruct Hcall1 as (-> & _ & ->).
  unbind H. apply advance_returns in Hcall1. destruct Hcall1 as (-> & _ & ->).
  unbind H. apply copyRange_returns in Hcall1. destruct Hcall1 as (-> & Hrange & ->).
  cbn [Nat.add] in *.
  match type of H with context [(?x =? ?y)%nat] => destruct (Nat.eqb_spec x y) as [E|E] end;
    [apply ret_returns in H; destruct H; discriminate|].
  unbind H. apply copyRange_returns in Hcall1. destruct Hcall1 as (-> & Horig & ->).
  unbind H. apply mismatch_returns in Hcall1. destruct Hcall1 as [-> ->].
  unbind H. apply mismatch_returns in Hcall1. destruct Hcall1 as [-> ->].
  unbind H. apply copyRange_returns in Hcall1. destruct Hcall1 as (_ & Hold & ->).
  unbind H. apply copyRange_returns in Hcall1. destruct Hcall1 as (-> & Hnew & ->).
  apply ret_returns in H. destruct H as [H _]. inversion H; subst step. clear H.
  exists sno, sent, start, (Z.to_nat start + Z.to_nat (a +u 1))%nat.
  splits; try assumption; try lia; reflexivity.
Qed.

(** C3.  LinearisePhrases overwrites [os] with the result of the order check,
    so only the part of the selected run from its first out-of-order pair on
    is sorted, while the index range is still counted from the start of the
    run.  On the sentence [[B, A, C, D]] with the run [[0, 3)] the first pair
    is out of order and the step is the one the specification describes:
    [[B, A] -> [A, B]] on [[0, 2)].  On the sentence [[B, C, A]] with the run
    [[0, 3)] the step carries the index range [[0, 2)], the iterator range
    [[1, 3)] and the proposal [[A, C]]: replacing the index range gives
    [[A, C, A]], replacing the iterator range gives [[B, A, C]], and in
    neither is the run sorted by anchor. *)
Theorem LinearisePhrases_sorts_from_first_descent :
  (LinearisePhrasesOperation.createSearchStep (1 # 2) docBACD (tape [0; 2; 0])
   = Returns (Some (mkSearchStep (LinearisePhrasesOperation (1 # 2))
                      [mkModification 0 0 2 0 2 [phraseA; phraseB]]))
       (mkRandom (source (tape [0; 2; 0])) 3)
   /\ applyModifications [mkModification 0 0 2 0 2 [phraseA; phraseB]]
        (getPhraseSegmentations docBACD)
      = [[phraseA; phraseB; phraseC; phraseD]])
  /\ (LinearisePhrasesOperation.createSearchStep (1 # 2) docBCA (tape [0; 2; 0])
      = Returns (Some (mkSearchStep (LinearisePhrasesOperation (1 # 2))
                         [mkModification 0 0 2 1 3 [phraseA; phraseC]]))
          (mkRandom (source (tape [0; 2; 0])) 3)
      /\ applyModifications [mkModification 0 0 2 1 3 [phraseA; phraseC]]
           (getPhraseSegmentations docBCA)
         = [[phraseA; phraseC; phraseA]]
      /\ replaceIteratorRange [phraseB; phraseC; phraseA]
           (mkModification 0 0 2 1 3 [phraseA; phraseC])
         = [phraseB; phraseA; phraseC]
      /\ sortedBy CompareAnchoredPhrasePairs [phraseA; phraseC; phraseA] = false
      /\ sortedBy CompareAnchoredPhrasePairs [phraseB; phraseA; phraseC] = false).
Proof.
  repeat split; reflexivity.
Qed.

Lemma LinearisePhrases_preserves_coverage d doc rnd step rnd' :
  validDocument doc ->
  LinearisePhrasesOperation.createSearchStep d doc rnd = Returns (Some step) rnd' ->
  (forall m, In m (getModifications step) -> Z.to_nat (from m) = from_it m) ->
  sameCoverageMultiset (getPhraseSegmentations doc)
    (applyModifications (getModifications step) (getPhraseSegmentations doc)).
Proof.
  intros Hd Hrun Hcons. apply LinearisePhrases_returns in Hrun.
  destruct Hrun as (sno & sent & start & oe & Hnth & Hs & Hr & Hne & Hos & Hpq & _ & ->).
  cbn [getModifications] in *. rewrite applyModifications_single. cbn [sentno].
  specialize (Hcons _ (in_eq _ _)). cbn [from from_it] in Hcons.
  eapply sameCoverageMultiset_mapNth; [exact Hnth|].
  apply coverages_Permutation.
  pose proof (validSegmentation_length (valid_sentence _ Hd Hnth)) as Hlen.
  set (k := adjacent_find (not2 CompareAnchoredPhrasePairs)
              (between sent (Z.to_nat start) oe)) in *.
  assert (Hk : k = 0%nat).
  { rewrite add_small in Hcons by (rewrite modulus_eq in *; lia). lia. }
  clearbody k. subst k. rewrite Nat.add_0_r in *.
  set (orig := between sent (Z.to_nat start) oe) in *.
  set (pg := sort CompareAnchoredPhrasePairs orig) in *.
  assert (Hperm : Permutation orig pg) by apply sort_Permutation.
  assert (Hpg : length pg = (oe - Z.to_nat start)%nat).
  { rewrite <- (Permutation_length Hperm). apply length_between. assumption. }
  destruct (@trimmed_indices start (Z.to_nat start) oe
              (commonPrefix pair_eqb orig pg)
              (commonPrefix pair_eqb (rev orig) (rev pg))
              (length sent) (length pg))
    as [Ef Et]; try assumption; try reflexivity; try lia.
  unfold replaceRange. cbn [from to proposal]. rewrite Ef, Et.
  apply trimmed_replacement_Permutation; assumption.
Qed.

(** On a partition, the run that LinearisePhrases sorts starts with a pair
    that sorting moves: the sorted run has another head. *)
Lemma LinearisePhrases_head sent os0 oe :
  partitionsSource sent = true ->
  (os0 <= oe <= length sent)%nat ->
  let k := adjacent_find (not2 CompareAnchoredPhrasePairs) (between sent os0 oe) in
  let os := (os0 + k)%nat in
  let orig := between sent os oe in
  let pg := sort CompareAnchoredPhrasePairs orig in
  os <> oe ->
  exists x h,
    nth_error sent os = Some x /\ nth_error pg 0 = Some h /\ h <> x
    /\ In h orig
    /\ (S os < oe)%nat
    /\ commonPrefix pair_eqb orig pg = 0%nat
    /\ (commonPrefix pair_eqb (rev orig) (rev pg) < length pg)%nat
    /\ length pg = (oe - os)%nat.
Proof.
  intros Hpart Hr k os orig pg Hne.
  set (run := between sent os0 oe) in *.
  assert (Hrun : length run = (oe - os0)%nat) by (apply length_between; assumption).
  destruct (@adjacent_find_found _ (not2 CompareAnchoredPhrasePairs) run)
    as (x & y & Hx & Hy & Hxy); [fold k; unfold os in Hne; lia|]. fold k in Hx, Hy.
  assert (Hk : (S k < oe - os0)%nat).
  { rewrite <- Hrun. apply nth_error_Some. congruence. }
  unfold run in Hx, Hy. rewrite nth_error_between in Hx, Hy by lia. fold os in Hx.
  assert (Horig : length orig = (oe - os)%nat)
    by (apply length_between; unfold os; lia).
  assert (Hperm : Permutation orig pg) by apply sort_Permutation.
  assert (Hpg : length pg = (oe - os)%nat)
    by (rewrite <- (Permutation_length Hperm); assumption).
  destruct (@nth_error_in_range _ pg 0 ltac:(unfold os in *; lia)) as [h Hh].
  assert (Hhd : hd_error pg = Some h) by (destruct pg; [discriminate|exact Hh]).
  assert (Hyo : In y orig).
  { apply (nth_error_In orig 1). unfold orig.
    rewrite nth_error_between by (unfold os; lia).
    rewrite <- Hy. f_equal. unfold os. lia. }
  pose proof (sort_head_minimal orig Hhd y Hyo) as Hmin.
  destruct (@partition_pair sent os (os0 + S k) x y Hpart ltac:(unfold os; lia) Hx Hy)
    as (Hx0 & Hy0 & Hdis).
  pose proof (disjoint_anchors x y Hx0 Hy0 Hdis) as Hanch.
  unfold not2, CompareAnchoredPhrasePairs in Hxy. apply negb_true_iff in Hxy.
  apply N.ltb_ge in Hxy.
  assert (Hhx : h <> x).
  { intros ->. apply Hanch. apply N.le_antisymm; assumption. }
  assert (Hox : nth_error orig 0 = Some x).
  { unfold orig. rewrite nth_error_between by (unfold os; lia).
    rewrite Nat.add_0_r. exact Hx. }
  assert (Hp : commonPrefix pair_eqb orig pg = 0%nat).
  { destruct orig as [|x' orig']; [discriminate|]. destruct pg as [|h' pg']; [discriminate|].
    cbn in Hox, Hh. inversion Hox; inversion Hh; subst. cbn.
    destruct (pair_eqb_spec x h); [congruence|reflexivity]. }
  pose proof (@same_length_ends_apart orig pg ltac:(lia)) as Hap.
  cbv zeta in Hap. rewrite Hp in Hap. specialize (Hap ltac:(unfold os in *; lia)).
  exists x, h. splits; try assumption; try (unfold os in *; lia).
  eapply Permutation_in; [symmetry; exact Hperm|eapply nth_error_In; exact Hh].
Qed.

Lemma LinearisePhrases_changes d doc rnd step rnd' :
  validDocument doc ->
  LinearisePhrasesOperation.createSearchStep d doc rnd = Returns (Some step) rnd' ->
  applyModifications (getModifications step) (getPhraseSegmentations doc)
  <> getPhraseSegmentations doc.
Proof.
  intros Hd Hrun. apply LinearisePhrases_returns in Hrun.
  destruct Hrun as (sno & sent & start & oe & Hnth & Hs & Hr & Hne & Hos & Hpq & _ & ->).
  cbn [getModifications]. rewrite applyModifications_single. cbn [sentno].
  apply (mapNth_changes _ _ Hnth).
  destruct (valid_sentence _ Hd Hnth) as (_ & Hlen & Hpart).
  rewrite modulus_eq in Hlen.
  pose proof (partitionsSource_NoDup _ Hpart) as Hnd.
  destruct (LinearisePhrases_head sent Hpart Hr Hne)
    as (x & h & Hx & Hh & Hhx & Hin & Hlong & Hp & Hq & Hpg).
  set (os0 := Z.to_nat start) in *.
  set (k := adjacent_find (not2 CompareAnchoredPhrasePairs) (between sent os0 oe)) in *.
  set (orig := between sent (os0 + k) oe) in *.
  set (pg := sort CompareAnchoredPhrasePairs orig) in *.
  rewrite Hp in *.
  unfold replaceRange. cbn [from to proposal].
  rewrite (add_small start) by (rewrite modulus_eq; lia).
  replace (Z.to_nat (start + Z.of_nat 0)) with os0 by (unfold os0; lia).
  destruct (@nth_error_in_range _ sent os0 ltac:(lia)) as [x0 Hx0].
  apply (@replaced_differs sent _ _ _ x0 h); [exact Hx0| |].
  - rewrite hd_error_between by lia. exact Hh.
  - (* the head of the sorted run comes from a position of the run *)
    intros ->. apply In_nth_error in Hin. destruct Hin as [j Hj].
    assert (Hjr : (j < oe - (os0 + k))%nat).
    { rewrite <- (@length_between _ sent (os0 + k) oe) by lia.
      apply nth_error_Some. fold orig. congruence. }
    unfold orig in Hj. rewrite nth_error_between in Hj by lia.
    pose proof (NoDup_positions _ _ Hnd Hx0 Hj) as Epos.
    assert (k = 0%nat /\ j = 0%nat) as [Ek Ej] by lia.
    rewrite Ek, Nat.add_0_r in Hx. rewrite Ek, Ej, !Nat.add_0_r in Hj. congruence.
Qed.

Lemma LinearisePhrases_at_iterators d doc rnd step rnd' :
  validDocument doc ->
  LinearisePhrasesOperation.createSearchStep d doc rnd = Returns (Some step) rnd' ->
  sameCoverageMultiset (getPhraseSegmentations doc)
    (applyAtIterators (getModifications step) (getPhraseSegmentations doc))
  /\ applyAtIterators (getModifications step) (getPhraseSegmentations doc)
     <> getPhraseSegmentations doc.
Proof.
  intros Hd Hrun. apply LinearisePhrases_returns in Hrun.
  destruct Hrun as (sno & sent & start & oe & Hnth & Hs & Hr & Hne & Hos & Hpq & _ & ->).
  cbn [getModifications]. rewrite applyAtIterators_single. cbn [sentno].
  unfold replaceIteratorRange. cbn [from_it to_it proposal].
  destruct (valid_sentence _ Hd Hnth) as (_ & _ & Hpart).
  destruct (LinearisePhrases_head sent Hpart Hr Hne)
    as (x & h & Hx & Hh & Hhx & _ & _ & Hp & Hq & Hpg).
  set (os := (Z.to_nat start
              + adjacent_find (not2 CompareAnchoredPhrasePairs)
                  (between sent (Z.to_nat start) oe))%nat) in *.
  set (orig := between sent os oe) in *.
  set (pg := sort CompareAnchoredPhrasePairs orig) in *.
  split.
  - eapply sameCoverageMultiset_mapNth; [exact Hnth|].
    apply coverages_Permutation.
    apply trimmed_replacement_Permutation; try assumption; try lia.
    apply sort_Permutation.
  - apply (mapNth_changes _ _ Hnth). rewrite Hp in *.
    apply (@replaced_differs sent _ _ _ x h).
    + rewrite Nat.add_0_r. exact Hx.
    + rewrite hd_error_between by lia. exact Hh.
    + congruence.
Qed.

(* ------------------------------------------------------------------------- *)
(** ** SwapPhrases *)

Lemma choosePhrases_total decay sentsize rnd :
  2 <= sentsize < Uint.modulus ->
  exists phrase1 direction phrase2 rnd',
    SwapPhrasesOperation.choosePhrases decay sentsize rnd
      = Returns (phrase1, direction, phrase2) rnd'
    /\ phrase1 = peek rnd mod sentsize
    /\ 0 <= phrase1 < sentsize
    /\ (phrase1 = 0 -> direction = true)
    /\ (phrase1 = sentsize - 1 -> direction = false)
    /\ (phrase1 <> 0 -> phrase1 <> sentsize - 1 ->
        exists r, flipCoin (1 # 2) (consume rnd) = Returns direction r)
    /\ (direction = true ->
        phrase1 < phrase2 < sentsize /\ (phrase1 = sentsize - 2 -> phrase2 = sentsize - 1))
    /\ (direction = false ->
        0 <= phrase2 < phrase1 /\ (phrase1 = 1 -> phrase2 = 0)).
Proof.
  intros Hs. rewrite modulus_eq in Hs.
  unfold SwapPhrasesOperation.choosePhrases.
  draw.
  pose proof (Z.mod_pos_bound (peek rnd) sentsize ltac:(lia)) as Hp.
  set (phrase1 := peek rnd mod sentsize) in *. set (r1 := consume rnd).
  clearbody phrase1.
  uint_small.
  destruct (Z.eqb_spec phrase1 0) as [E0|E0].
  - (* leftmost phrase: right *)
    rewrite bind_ret.
    destruct (Z.eqb_spec phrase1 (sentsize - 2)) as [E2|E2].
    + rewrite bind_ret.
      do 4 eexists; split; [reflexivity|].
      splits; try lia; try reflexivity; try discriminate; intros; lia.
    + rewrite bind_assoc. uint_small. draw.
      match goal with |- context [peek r1 mod ?n] =>
        pose proof (Z.mod_pos_bound (peek r1) n ltac:(lia)) as Hd;
        set (d := peek r1 mod n) in * end.
      uint_small. rewrite bind_assoc.
      erewrite bind_eq by (apply assert_eq, Z.ltb_lt; lia).
      rewrite !bind_ret.
      do 4 eexists; split; [reflexivity|].
      splits; try lia; try reflexivity; try discriminate; intros; lia.
  - destruct (Z.eqb_spec phrase1 (sentsize - 1)) as [E1|E1].
    + (* rightmost phrase: left *)
      rewrite bind_ret.
      destruct (Z.eqb_spec phrase1 1) as [E2|E2].
      * rewrite bind_ret.
        do 4 eexists; split; [reflexivity|].
        splits; try lia; try reflexivity; try discriminate; intros; lia.
      * rewrite bind_assoc. uint_small. draw.
        match goal with |- context [peek r1 mod ?n] =>
          pose proof (Z.mod_pos_bound (peek r1) n ltac:(lia)) as Hd;
          set (d := peek r1 mod n) in * end.
        uint_small. rewrite !bind_ret.
        do 4 eexists; split; [reflexivity|].
        splits; try lia; try reflexivity; try discriminate; intros; lia.
    + draw. set (r2 := consume r1).
      assert (Hcoin : exists r, flipCoin (1 # 2) r1 = Returns (Z.odd (peek r1)) r)
        by (eexists; apply flipCoin_eq).
      destruct (Z.odd (peek r1)).
      * destruct (Z.eqb_spec phrase1 (sentsize - 2)) as [E2|E2].
        -- rewrite bind_ret.
           do 4 eexists; split; [reflexivity|].
           splits; try lia; try reflexivity; try discriminate; try (intros; lia).
           intros; assumption.
        -- rewrite bind_assoc. uint_small. draw.
           match goal with |- context [peek r2 mod ?n] =>
             pose proof (Z.mod_pos_bound (peek r2) n ltac:(lia)) as Hd;
             set (d := peek r2 mod n) in * end.
           uint_small. rewrite bind_assoc.
           erewrite bind_eq by (apply assert_eq, Z.ltb_lt; lia).
           rewrite !bind_ret.
           do 4 eexists; split; [reflexivity|].
           splits; try lia; try reflexivity; try discriminate; try (intros; lia).
           intros; assumption.
      * destruct (Z.eqb_spec phrase1 1) as [E2|E2].
        -- rewrite bind_ret.
           do 4 eexists; split; [reflexivity|].
           splits; try lia; try reflexivity; try discriminate; try (intros; lia).
           intros; assumption.
        -- rewrite bind_assoc. uint_small. draw.
           match goal with |- context [peek r2 mod ?n] =>
             pose proof (Z.mod_pos_bound (peek r2) n ltac:(lia)) as Hd;
             set (d := peek r2 mod n) in * end.
           uint_small. rewrite !bind_ret.
           do 4 eexists; split; [reflexivity|].
           splits; try lia; try reflexivity; try discriminate; try (intros; lia).
           intros; assumption.
Qed.

Lemma SwapPhrases_run decay doc rnd :
  validDocument doc ->
  exists sentno sent r1,
    drawLongSentence 10 doc rnd = Returns (sentno, size sent) r1
    /\ nth_error (getPhraseSegmentations doc) (Z.to_nat sentno) = Some sent
    /\ validSegmentation sent
    /\ (size sent < 2 ->
        SwapPhrasesOperation.createSearchStep decay doc rnd = Returns None r1)
    /\ (2 <= size sent ->
        exists phrase1 direction phrase2 r2 x1 x2,
          SwapPhrasesOperation.choosePhrases decay (size sent) r1
            = Returns (phrase1, direction, phrase2) r2
          /\ phrase1 = peek r1 mod size sent
          /\ 0 <= phrase1 < size sent
          /\ (phrase1 = 0 -> direction = true)
          /\ (phrase1 = size sent - 1 -> direction = false)
          /\ (phrase1 <> 0 -> phrase1 <> size sent - 1 ->
              exists r, flipCoin (1 # 2) (consume r1) = Returns direction r)
          /\ (direction = true ->
              phrase1 < phrase2 < size sent
              /\ (phrase1 = size sent - 2 -> phrase2 = size sent - 1))
          /\ (direction = false ->
              0 <= phrase2 < phrase1 /\ (phrase1 = 1 -> phrase2 = 0))
          /\ nth_error sent (Z.to_nat phrase1) = Some x1
          /\ nth_error sent (Z.to_nat phrase2) = Some x2
          /\ SwapPhrasesOperation.createSearchStep decay doc rnd
             = Returns (Some (swapStep decay sentno phrase1 phrase2 x1 x2)) r2).
Proof.
  intros Hd.
  destruct (drawLongSentence_total Hd 10 rnd)
    as (sentno & sent & r1 & Hpre & Hnth & Hv & _).
  exists sentno, sent, r1. splits; try assumption.
  - intros Hlt. unfold SwapPhrasesOperation.createSearchStep.
    erewrite bind_eq by exact Hpre. cbv beta match.
    destruct (Z.ltb_spec (size sent) 2); [reflexivity|lia].
  - intros Hge. destruct (size_valid Hv) as [Hsz Hr].
    assert (Hr' := Hr). rewrite modulus_eq in Hr'.
    destruct (@choosePhrases_total decay (size sent) r1 ltac:(lia))
      as (phrase1 & direction & phrase2 & r2 & Hch & Hp1 & Hr1 & H0 & Hlast & Hcoin & Hright & Hleft).
    assert (Hr2 : 0 <= phrase2 < size sent).
    { destruct direction; [specialize (Hright eq_refl)|specialize (Hleft eq_refl)]; lia. }
    destruct (@nth_error_in_range _ sent (Z.to_nat phrase1) ltac:(lia)) as [x1 Hx1].
    destruct (@nth_error_in_range _ sent (Z.to_nat phrase2) ltac:(lia)) as [x2 Hx2].
    exists phrase1, direction, phrase2, r2, x1, x2. splits; try assumption; try lia.
    unfold SwapPhrasesOperation.createSearchStep.
    erewrite bind_eq by exact Hpre. cbv beta match.
    destruct (Z.ltb_spec (size sent) 2); [lia|].
    unfold sentenceAt. erewrite bind_eq by (apply deref_eq; exact Hnth).
    erewrite bind_eq by exact Hch. cbv beta match.
    erewrite bind_eq by (apply advance_eq; cbn; lia).
    erewrite bind_eq by (apply advance_eq; cbn; lia).
    cbn [Nat.add].
    erewrite bind_eq by (apply copyRange_eq; lia).
    erewrite bind_eq by (apply copyRange_eq; lia).
    rewrite (between_single _ _ Hx1), (between_single _ _ Hx2).
    unfold swapStep, addModification, newSearchStep, ret. cbn.
    uint_small. reflexivity.
Qed.

(** C7.  SwapPhrases on a valid document: once the opening has found a
    sentence of two phrases or more, [phrase1] is drawn from [[0, size)]; the
    direction is right when [phrase1 = 0], left when [phrase1 = size-1], and
    the outcome of [flipCoin()] (the coin of probability 1/2) otherwise;
    [phrase2] lies to that side; the step has exactly two modifications,
    both with indices of the original sentence: [[phrase1, phrase1+1)]
    replaced by the phrase at [phrase2], then [[phrase2, phrase2+1)]
    replaced by the phrase at [phrase1]. *)
Theorem SwapPhrases_direction_and_modifications decay doc rnd :
  validDocument doc ->
  exists sentno sent r1,
    drawLongSentence 10 doc rnd = Returns (sentno, size sent) r1
    /\ nth_error (getPhraseSegmentations doc) (Z.to_nat sentno) = Some sent
    /\ (2 <= size sent ->
        exists phrase1 direction phrase2 r2 x1 x2,
          SwapPhrasesOperation.choosePhrases decay (size sent) r1
            = Returns (phrase1, direction, phrase2) r2
          /\ drawFromRange (size sent) r1 = Returns phrase1 (consume r1)
          /\ 0 <= phrase1 < size sent
          /\ (phrase1 = 0 -> direction = true)
          /\ (phrase1 = size sent - 1 -> direction = false)
          /\ (phrase1 <> 0 -> phrase1 <> size sent - 1 ->
              exists r, flipCoin (1 # 2) (consume r1) = Returns direction r)
          /\ (direction = true -> phrase1 < phrase2 < size sent)
          /\ (direction = false -> 0 <= phrase2 < phrase1)
          /\ nth_error sent (Z.to_nat phrase1) = Some x1
          /\ nth_error sent (Z.to_nat phrase2) = Some x2
          /\ exists step,
              SwapPhrasesOperation.createSearchStep decay doc rnd = Returns (Some step) r2
              /\ getModifications step
                 = [ mkModification sentno phrase1 (phrase1 + 1)
                       (Z.to_nat phrase1) (S (Z.to_nat phrase1)) [x2];
                     mkModification sentno phrase2 (phrase2 + 1)
                       (Z.to_nat phrase2) (S (Z.to_nat phrase2)) [x1] ]).
Proof.
  intros Hd.
  destruct (SwapPhrases_run decay rnd Hd)
    as (sentno & sent & r1 & Hpre & Hnth & Hv & _ & Hlong).
  exists sentno, sent, r1. splits; try assumption.
  intros Hge. destruct (Hlong Hge)
    as (phrase1 & direction & phrase2 & r2 & x1 & x2
        & Hch & Hp1 & Hr1 & H0 & Hlast & Hcoin & Hright & Hleft & Hx1 & Hx2 & Hstep).
  exists phrase1, direction, phrase2, r2, x1, x2. splits; try assumption; try lia.
  all: try (rewrite Hp1; apply drawFromRange_eq; lia).
  all: try (intros E; specialize (Hright E); lia).
  all: try (intros E; specialize (Hleft E); lia).
  eexists; split; [exact Hstep|reflexivity].
Qed.

Lemma SwapPhrases_direction_and_modifications_witness :
  validDocument docABC
  /\ exists step r,
      SwapPhrasesOperation.createSearchStep (1 # 2) docABC (tape [0; 0; 1])
        = Returns (Some step) r
      /\ length (getModifications step) = 2%nat.
Proof.
  assert (Hd : validDocument docABC) by valid_document.
  split; [exact Hd|].
  destruct (SwapPhrases_direction_and_modifications (1 # 2) (tape [0; 0; 1]) Hd)
    as (sentno & sent & r1 & Hpre & Hnth & Hlong).
  assert (E : drawLongSentence 10 docABC (tape [0; 0; 1])
              = Returns (0, 3) (consume (tape [0; 0; 1]))) by reflexivity.
  rewrite E in Hpre. inversion Hpre as [[Hs Hz Hr]].
  destruct (Hlong ltac:(rewrite <- Hz; lia))
    as (p1 & d & p2 & r2 & x1 & x2 & _ & _ & _ & _ & _ & _ & _ & _ & _ & _ & step & Hrun & Hm).
  exists step, r2. split; [exact Hrun|]. rewrite Hm. reflexivity.
Defined.

(** C10.  SwapPhrases on a valid document: in every step it emits, [phrase2]
    is a position of the sentence other than [phrase1] (it is at least one
    cell away, and the cell next to [phrase1] when [phrase1] is the last but
    one going right or the second going left); the two modifications
    replace the one-phrase ranges at [phrase1] and at [phrase2], which are
    disjoint, so they can be applied in either order, and applying the step
    exchanges the two phrases and leaves the others in place. *)
Theorem SwapPhrases_positions_distinct decay doc rnd step rnd' :
  validDocument doc ->
  SwapPhrasesOperation.createSearchStep decay doc rnd = Returns (Some step) rnd' ->
  exists sno sent r1 phrase1 direction phrase2 x1 x2 m1 m2,
    nth_error (getPhraseSegmentations doc) (Z.to_nat sno) = Some sent
    /\ SwapPhrasesOperation.choosePhrases decay (size sent) r1
       = Returns (phrase1, direction, phrase2) rnd'
    /\ 0 <= phrase1 < Z.of_nat (length sent)
    /\ 0 <= phrase2 < Z.of_nat (length sent)
    /\ phrase2 <> phrase1
    /\ (direction = true ->
        1 <= phrase2 - phrase1
        /\ (phrase1 = Z.of_nat (length sent) - 2 -> phrase2 = Z.of_nat (length sent) - 1))
    /\ (direction = false ->
        1 <= phrase1 - phrase2 /\ (phrase1 = 1 -> phrase2 = 0))
    /\ nth_error sent (Z.to_nat phrase1) = Some x1
    /\ nth_error sent (Z.to_nat phrase2) = Some x2
    /\ getModifications step = [m1; m2]
    /\ (sentno m1 = sno /\ from m1 = phrase1 /\ to m1 = phrase1 + 1 /\ proposal m1 = [x2])
    /\ (sentno m2 = sno /\ from m2 = phrase2 /\ to m2 = phrase2 + 1 /\ proposal m2 = [x1])
    /\ (to m1 <= from m2 \/ to m2 <= from m1)
    /\ replaceRange (replaceRange sent m1) m2 = replaceRange (replaceRange sent m2) m1
    /\ applyModifications (getModifications step) (getPhraseSegmentations doc)
       = mapNth (Z.to_nat sno) (fun seg => replaceRange (replaceRange seg m1) m2)
           (getPhraseSegmentations doc)
    /\ length (replaceRange (replaceRange sent m1) m2) = length sent
    /\ forall k, nth_error (replaceRange (replaceRange sent m1) m2) k
                 = if (k =? Z.to_nat phrase1)%nat then Some x2
                   else if (k =? Z.to_nat phrase2)%nat then Some x1
                   else nth_error sent k.
Proof.
  intros Hd Hrun.
  destruct (SwapPhrases_run decay rnd Hd)
    as (sentno & sent & r1 & Hpre & Hnth & Hv & Hshort & Hlong).
  destruct (Z.lt_ge_cases (size sent) 2) as [Hlt|Hge].
  { rewrite (Hshort Hlt) in Hrun. discriminate. }
  destruct (Hlong Hge)
    as (phrase1 & direction & phrase2 & r2 & x1 & x2
        & Hch & Hp1 & Hr1 & H0 & Hlast & Hcoin & Hright & Hleft & Hx1 & Hx2 & Hstep).
  rewrite Hstep in Hrun. inversion Hrun; subst step rnd'. clear Hrun.
  destruct (size_valid Hv) as [Hsz Hr].
  assert (Hr2 : 0 <= phrase2 < size sent /\ phrase2 <> phrase1).
  { destruct direction; [specialize (Hright eq_refl)|specialize (Hleft eq_refl)]; lia. }
  set (m1 := mkModification sentno phrase1 (phrase1 + 1)
               (Z.to_nat phrase1) (S (Z.to_nat phrase1)) [x2]).
  set (m2 := mkModification sentno phrase2 (phrase2 + 1)
               (Z.to_nat phrase2) (S (Z.to_nat phrase2)) [x1]).
  destruct (@swap_both_orders sent m1 m2 (Z.to_nat phrase1) (Z.to_nat phrase2) x1 x2)
    as (Hcomm & Hlen & Hk); try reflexivity; try (cbn; lia).
  exists sentno, sent, r1, phrase1, direction, phrase2, x1, x2, m1, m2.
  rewrite <- Hsz.
  splits; try assumption; try reflexivity; try (cbn; lia).
  all: try (intros E; specialize (Hright E); lia).
  all: try (intros E; specialize (Hleft E); lia).
  change (getModifications (swapStep decay sentno phrase1 phrase2 x1 x2)) with [m1; m2].
  rewrite applyModifications_pair by reflexivity.
  eapply mapNth_ext; [exact Hnth|].
  destruct (from m2 <? from m1); [reflexivity|symmetry; assumption].
Qed.

Lemma SwapPhrases_positions_distinct_witness :
  validDocument docABC
  /\ exists step r m1 m2,
      SwapPhrasesOperation.createSearchStep (1 # 2) docABC (tape [0; 0; 1])
        = Returns (Some step) r
      /\ getModifications step = [m1; m2]
      /\ (to m1 <= from m2 \/ to m2 <= from m1).
Proof.
  assert (Hd : validDocument docABC) by valid_document.
  split; [exact Hd|].
  destruct (@SwapPhrases_positions_distinct (1 # 2) docABC (tape [0; 0; 1]) _ _ Hd eq_refl)
    as (sno & sent & r1 & p1 & d & p2 & x1 & x2 & m1 & m2
        & _ & _ & _ & _ & _ & _ & _ & _ & _ & Hm & _ & _ & Hdisj & _).
  eexists; exists (consume (consume (consume (tape [0; 0; 1])))), m1, m2.
  split; [reflexivity|]. split; [exact Hm|exact Hdisj].
Defined.

Lemma SwapPhrases_preserves_coverage d doc rnd step rnd' :
  validDocument doc ->
  SwapPhrasesOperation.createSearchStep d doc rnd = Returns (Some step) rnd' ->
  sameCoverageMultiset (getPhraseSegmentations doc)
    (applyModifications (getModifications step) (getPhraseSegmentations doc)).
Proof.
  intros Hd Hrun.
  destruct (SwapPhrases_run d rnd Hd)
    as (sno & sent & r1 & Hpre & Hnth & Hv & Hshort & Hlong).
  destruct (Z.lt_ge_cases (size sent) 2) as [Hlt|Hge].
  { rewrite (Hshort Hlt) in Hrun. discriminate. }
  destruct (Hlong Hge)
    as (phrase1 & direction & phrase2 & r2 & x1 & x2
        & Hch & Hp1 & Hr1 & H0 & Hlast & Hcoin & Hright & Hleft & Hx1 & Hx2 & Hstep).
  rewrite Hstep in Hrun. inversion Hrun; subst step rnd'. clear Hrun.
  destruct (size_valid Hv) as [Hsz Hr].
  assert (Hr2 : 0 <= phrase2 < size sent /\ phrase2 <> phrase1).
  { destruct direction; [specialize (Hright eq_refl)|specialize (Hleft eq_refl)]; lia. }
  set (m1 := mkModification sno phrase1 (phrase1 + 1)
               (Z.to_nat phrase1) (S (Z.to_nat phrase1)) [x2]).
  set (m2 := mkModification sno phrase2 (phrase2 + 1)
               (Z.to_nat phrase2) (S (Z.to_nat phrase2)) [x1]).
  change (getModifications (swapStep d sno phrase1 phrase2 x1 x2)) with [m1; m2].
  rewrite applyModifications_pair by reflexivity.
  eapply sameCoverageMultiset_mapNth; [exact Hnth|].
  apply coverages_Permutation.
  destruct (@swap_both_orders sent m1 m2 (Z.to_nat phrase1) (Z.to_nat phrase2) x1 x2)
    as (Hcomm & _ & _); try reflexivity; try (cbn; lia).
  assert (HR : replaceRange (replaceRange sent m1) m2
               = iter_swap sent (Z.to_nat phrase1) (Z.to_nat phrase2)).
  { unfold iter_swap. rewrite Hx1, Hx2.
    rewrite (@replaceRange_assign sent m1 (Z.to_nat phrase1) x2)
      by (try reflexivity; cbn; lia).
    rewrite (@replaceRange_assign _ m2 (Z.to_nat phrase2) x1)
      by (try reflexivity; try rewrite length_assign; cbn; lia).
    reflexivity. }
  destruct (from m2 <? from m1); [|rewrite <- Hcomm]; rewrite HR;
    apply iter_swap_Permutation; lia.
Qed.

Lemma SwapPhrases_changes d doc rnd step rnd' :
  validDocument doc ->
  SwapPhrasesOperation.createSearchStep d doc rnd = Returns (Some step) rnd' ->
  applyModifications (getModifications step) (getPhraseSegmentations doc)
  <> getPhraseSegmentations doc.
Proof.
  intros Hd Hrun.
  destruct (SwapPhrases_run d rnd Hd)
    as (sno & sent & r1 & Hpre & Hnth & Hv & Hshort & Hlong).
  destruct (Z.lt_ge_cases (size sent) 2) as [Hlt|Hge].
  { rewrite (Hshort Hlt) in Hrun. discriminate. }
  destruct (Hlong Hge)
    as (phrase1 & direction & phrase2 & r2 & x1 & x2
        & Hch & Hp1 & Hr1 & H0 & Hlast & Hcoin & Hright & Hleft & Hx1 & Hx2 & Hstep).
  rewrite Hstep in Hrun. inversion Hrun; subst step rnd'. clear Hrun.
  destruct (size_valid Hv) as [Hsz Hr].
  assert (Hr2 : 0 <= phrase2 < size sent /\ phrase2 <> phrase1).
  { destruct direction; [specialize (Hright eq_refl)|specialize (Hleft eq_refl)]; lia. }
  set (m1 := mkModification sno phrase1 (phrase1 + 1)
               (Z.to_nat phrase1) (S (Z.to_nat phrase1)) [x2]).
  set (m2 := mkModification sno phrase2 (phrase2 + 1)
               (Z.to_nat phrase2) (S (Z.to_nat phrase2)) [x1]).
  change (getModifications (swapStep d sno phrase1 phrase2 x1 x2)) with [m1; m2].
  rewrite applyModifications_pair by reflexivity.
  apply (mapNth_changes _ _ Hnth).
  destruct (@swap_both_orders sent m1 m2 (Z.to_nat phrase1) (Z.to_nat phrase2) x1 x2)
    as (Hcomm & _ & Hk); try reflexivity; try (cbn; lia).
  assert (Hne : replaceRange (replaceRange sent m1) m2 <> sent).
  { intros E. specialize (Hk (Z.to_nat phrase1)). rewrite E, Nat.eqb_refl, Hx1 in Hk.
    inversion Hk; subst x2.
    destruct Hv as (_ & _ & Hpart). apply partitionsSource_NoDup in Hpart.
    pose proof (NoDup_positions _ _ Hpart Hx1 Hx2). lia. }
  destruct (from m2 <? from m1); [|rewrite <- Hcomm]; exact Hne.
Qed.

Lemma SwapPhrases_consistent d doc rnd step rnd' :
  validDocument doc ->
  SwapPhrasesOperation.createSearchStep d doc rnd = Returns (Some step) rnd' ->
  map atIterators (getModifications step) = getModifications step.
Proof.
  intros Hd Hrun.
  destruct (SwapPhrases_run d rnd Hd)
    as (sno & sent & r1 & Hpre & Hnth & Hv & Hshort & Hlong).
  destruct (Z.lt_ge_cases (size sent) 2) as [Hlt|Hge].
  { rewrite (Hshort Hlt) in Hrun. discriminate. }
  destruct (Hlong Hge)
    as (phrase1 & direction & phrase2 & r2 & x1 & x2
        & Hch & Hp1 & Hr1 & H0 & Hlast & Hcoin & Hright & Hleft & Hx1 & Hx2 & Hstep).
  rewrite Hstep in Hrun. inversion Hrun; subst step rnd'. clear Hrun.
  assert (Hr2 : 0 <= phrase2).
  { destruct direction; [specialize (Hright eq_refl)|specialize (Hleft eq_refl)]; lia. }
  cbn [getModifications swapStep map].
  rewrite !atIterators_consistent; [reflexivity|cbn; lia..].
Qed.

(* ------------------------------------------------------------------------- *)
(** ** MovePhrases *)

Lemma chooseMove_total b r rd ld sentsize rnd :
  2 <= sentsize < Uint.modulus ->
  exists direction start block dest rnd',
    MovePhrasesOperation.chooseMove b r rd ld sentsize rnd
      = Returns (direction, start, block, dest) rnd'
    /\ 1 <= block <= sentsize - 1
    /\ 0 <= dest <= sentsize
    /\ (direction = true ->
        0 <= start /\ start + block <= sentsize - 1 /\ start + block + 1 <= dest)
    /\ (direction = false ->
        1 <= start /\ start + block <= sentsize /\ dest <= start - 1).
Proof.
  intros Hs. rewrite modulus_eq in Hs.
  unfold MovePhrasesOperation.chooseMove.
  draw. set (direction := Z.odd (peek rnd)). set (r1 := consume rnd).
  uint_small. draw.
  replace (sentsize - 2 + 1) with (sentsize - 1) by lia.
  pose proof (Z.mod_pos_bound (peek r1) (sentsize - 1) ltac:(lia)) as Hg.
  set (g := peek r1 mod (sentsize - 1)) in *. set (r2 := consume r1).
  uint_small. draw.
  pose proof (Z.mod_pos_bound (peek r2) (sentsize - (g + 1)) ltac:(lia)) as Hst.
  set (start0 := peek r2 mod (sentsize - (g + 1))) in *. set (r3 := consume r2).
  clearbody direction g start0 r3. clear r1 r2.
  destruct direction.
  - uint_small.
    destruct (Z.eqb_spec (start0 + (g + 1)) (sentsize - 1)) as [E|E].
    + rewrite bind_ret. erewrite bind_eq by (apply assert_eq, Z.leb_le; lia).
      do 5 eexists; split; [reflexivity|]. repeat split; try lia; discriminate.
    + rewrite bind_assoc. draw. rewrite bind_ret.
      match goal with |- context [peek r3 mod ?n] =>
        pose proof (Z.mod_pos_bound (peek r3) n ltac:(lia)) as Hd;
        set (d := peek r3 mod n) in * end.
      uint_small.
      erewrite bind_eq by (apply assert_eq, Z.leb_le; lia).
      do 5 eexists; split; [reflexivity|]. repeat split; try lia; discriminate.
  - uint_small.
    destruct (Z.eqb_spec (start0 + 1) 1) as [E|E].
    + rewrite bind_ret. erewrite bind_eq by (apply assert_eq, Z.leb_le; lia).
      do 5 eexists; split; [reflexivity|]. repeat split; try lia; discriminate.
    + rewrite bind_assoc. draw. rewrite bind_ret.
      match goal with |- context [peek r3 mod ?n] =>
        pose proof (Z.mod_pos_bound (peek r3) n ltac:(lia)) as Hd;
        set (d := peek r3 mod n) in * end.
      uint_small.
      erewrite bind_eq by (apply assert_eq, Z.leb_le; lia).
      do 5 eexists; split; [reflexivity|]. repeat split; try lia; discriminate.
Qed.

Lemma MovePhrases_never_fails_assertion b r rd ld doc rnd :
  MovePhrasesOperation.createSearchStep b r rd ld doc rnd <> Aborts AssertionFailed.
Proof.
  intros H. unfold MovePhrasesOperation.createSearchStep in H.
  apply bind_aborts in H. destruct H as [H|([sentno sentsize] & r1 & Hpre & H)].
  { apply drawLongSentence_aborts in H; discriminate. }
  destruct (Z.ltb_spec sentsize 2) as [|Hge]; [discriminate|].
  destruct (drawLongSentence_returns _ _ _ Hpre) as (sent0 & _ & ->).
  apply bind_aborts in H. destruct H as [H|(sent & r2 & _ & H)].
  { apply deref_aborts in H; discriminate. }
  pose proof (size_range sent0) as Hr.
  destruct (@chooseMove_total b r rd ld (size sent0) r2 ltac:(lia))
    as (dir & start & block & dest & r3 & Hm & _).
  apply bind_aborts in H. destruct H as [H|(x & r3' & Hm' & H)]; [congruence|].
  rewrite Hm in Hm'; inversion Hm'; subst x r3'.
  repeat (apply bind_aborts in H; destruct H as [H|(? & ? & _ & H)];
          [first [apply advance_aborts in H | apply copyRange_aborts in H]; discriminate|]).
  discriminate.
Qed.

(** C9.  MovePhrases, for every sentence size the operator lets through (at
    least 2, held in a [uint]) and every random source: the draws of the
    block, of its start and of the distance end without a failed assertion;
    the block has 1 to size-1 phrases, the destination lies in [[0, size]], a
    right move lands at start+block+1 or further to the right (so at least
    there, or at size), a left move at start-1 or further to the left.  The
    operator as a whole never stops on the assertion. *)
Theorem MovePhrases_destination_in_range b r rd ld :
  (forall sentsize rnd,
      2 <= sentsize < Uint.modulus ->
      exists direction start block dest rnd',
        MovePhrasesOperation.chooseMove b r rd ld sentsize rnd
          = Returns (direction, start, block, dest) rnd'
        /\ 1 <= block <= sentsize - 1
        /\ 0 <= dest <= sentsize
        /\ (direction = true ->
            0 <= start < sentsize - block
            /\ (start + block + 1 <= dest \/ dest = sentsize)
            /\ start + block + 1 <= dest)
        /\ (direction = false ->
            1 <= start <= sentsize - block /\ dest <= start - 1))
  /\ (forall doc rnd,
         MovePhrasesOperation.createSearchStep b r rd ld doc rnd <> Aborts AssertionFailed).
Proof.
  split.
  - intros sentsize rnd Hs.
    destruct (@chooseMove_total b r rd ld sentsize rnd Hs)
      as (direction & start & block & dest & rnd' & Hrun & Hb & Hd & Hright & Hleft).
    exists direction, start, block, dest, rnd'.
    splits; try assumption; try lia.
    + intros E; specialize (Hright E); lia.
    + intros E; specialize (Hleft E); lia.
  - intros doc rnd. apply MovePhrases_never_fails_assertion.
Qed.

Lemma MovePhrases_destination_in_range_witness :
  exists direction start block dest rnd',
    MovePhrasesOperation.chooseMove (1 # 2) (1 # 2) (1 # 2) (1 # 2) 5 (tape [1; 1; 1; 1])
      = Returns (direction, start, block, dest) rnd'
    /\ 1 <= block <= 5 - 1
    /\ 0 <= dest <= 5
    /\ (direction = true ->
        0 <= start < 5 - block
        /\ (start + block + 1 <= dest \/ dest = 5)
        /\ start + block + 1 <= dest)
    /\ (direction = false ->
        1 <= start <= 5 - block /\ dest <= start - 1).
Proof.
  apply (proj1 (MovePhrases_destination_in_range (1 # 2) (1 # 2) (1 # 2) (1 # 2))).
  rewrite modulus_eq; lia.
Defined.

Lemma MovePhrases_run b r rd ld doc rnd :
  validDocument doc ->
  exists sno sent r1,
    drawLongSentence 10 doc rnd = Returns (sno, size sent) r1
    /\ nth_error (getPhraseSegmentations doc) (Z.to_nat sno) = Some sent
    /\ validSegmentation sent
    /\ (size sent < 2 ->
        MovePhrasesOperation.createSearchStep b r rd ld doc rnd = Returns None r1)
    /\ (2 <= size sent ->
        exists direction start block dest r2,
          MovePhrasesOperation.chooseMove b r rd ld (size sent) r1
            = Returns (direction, start, block, dest) r2
          /\ 1 <= block <= size sent - 1
          /\ 0 <= dest <= size sent
          /\ (direction = true ->
              0 <= start /\ start + block <= size sent - 1 /\ start + block + 1 <= dest)
          /\ (direction = false ->
              1 <= start /\ start + block <= size sent /\ dest <= start - 1)
          /\ MovePhrasesOperation.createSearchStep b r rd ld doc rnd
             = Returns (Some (moveStep b r rd ld sno sent start block dest)) r2).
Proof.
  intros Hd.
  destruct (drawLongSentence_total Hd 10 rnd)
    as (sno & sent & r1 & Hpre & Hnth & Hv & _).
  exists sno, sent, r1. splits; try assumption.
  - intros Hlt. unfold MovePhrasesOperation.createSearchStep.
    erewrite bind_eq by exact Hpre. cbv beta match.
    destruct (Z.ltb_spec (size sent) 2); [reflexivity|lia].
  - intros Hge. destruct (size_valid Hv) as [Hsz Hr].
    assert (Hr' := Hr). rewrite modulus_eq in Hr'.
    destruct (@chooseMove_total b r rd ld (size sent) r1 ltac:(lia))
      as (direction & start & block & dest & r2 & Hch & Hb & Hdst & Hright & Hleft).
    assert (Hst : 0 <= start /\ start + block <= size sent).
    { destruct direction; [specialize (Hright eq_refl)|specialize (Hleft eq_refl)]; lia. }
    exists direction, start, block, dest, r2. splits; try assumption; try lia.
    unfold MovePhrasesOperation.createSearchStep.
    erewrite bind_eq by exact Hpre. cbv beta match.
    destruct (Z.ltb_spec (size sent) 2); [lia|].
    unfold sentenceAt. erewrite bind_eq by (apply deref_eq; exact Hnth).
    erewrite bind_eq by exact Hch. cbv beta match.
    erewrite bind_eq by (apply advance_eq; cbn; lia).
    erewrite bind_eq by (apply advance_eq; cbn; lia).
    erewrite bind_eq by (apply advance_eq; cbn; lia).
    cbn [Nat.add].
    erewrite bind_eq by (apply copyRange_eq; lia).
    unfold moveStep, addModification, newSearchStep, ret. cbn.
    uint_small. reflexivity.
Qed.

(** C6.  MovePhrases on a valid document, once the opening has found a
    sentence of two phrases or more: the step has exactly two modifications,
    both with indices of the original sentence.  The first inserts the block
    at [dest] (the empty range [[dest, dest)] is replaced by the phrases of
    the block), the second deletes the block at its origin (the range
    [[start, start+block)] is replaced by the empty slice).  Applying both
    moves the block in front of the phrase that was at [dest].  For a
    sentence of five phrases, a right move with [start = 1], [block = 2]
    and [dest = 5] gives [seg[0], seg[3], seg[4], seg[1], seg[2]]. *)
Theorem MovePhrases_inserts_then_deletes b r rd ld doc rnd :
  validDocument doc ->
  exists sno sent r1,
    drawLongSentence 10 doc rnd = Returns (sno, size sent) r1
    /\ nth_error (getPhraseSegmentations doc) (Z.to_nat sno) = Some sent
    /\ (2 <= size sent ->
        exists direction start block dest r2 step ins del,
          MovePhrasesOperation.chooseMove b r rd ld (size sent) r1
            = Returns (direction, start, block, dest) r2
          /\ MovePhrasesOperation.createSearchStep b r rd ld doc rnd
             = Returns (Some step) r2
          /\ getModifications step = [ins; del]
          /\ (sentno ins = sno /\ from ins = dest /\ to ins = dest
              /\ proposal ins = between sent (Z.to_nat start) (Z.to_nat (start + block))
              /\ oldSlice sent ins = [])
          /\ (sentno del = sno /\ from del = start /\ to del = start + block
              /\ proposal del = []
              /\ oldSlice sent del = between sent (Z.to_nat start) (Z.to_nat (start + block)))
          /\ applyModifications (getModifications step) (getPhraseSegmentations doc)
             = mapNth (Z.to_nat sno)
                 (fun seg => moveBlock seg (Z.to_nat start) (Z.to_nat block) (Z.to_nat dest))
                 (getPhraseSegmentations doc)
          /\ (forall s0 s1 s2 s3 s4,
                 sent = [s0; s1; s2; s3; s4] ->
                 direction = true -> start = 1 -> block = 2 -> dest = 5 ->
                 proposal ins = [s1; s2]
                 /\ nth_error
                      (applyModifications (getModifications step)
                         (getPhraseSegmentations doc)) (Z.to_nat sno)
                    = Some [s0; s3; s4; s1; s2])).
Proof.
  intros Hd.
  destruct (MovePhrases_run b r rd ld rnd Hd)
    as (sno & sent & r1 & Hpre & Hnth & Hv & _ & Hlong).
  exists sno, sent, r1. splits; try assumption.
  intros Hge. destruct (Hlong Hge)
    as (direction & start & block & dest & r2 & Hch & Hb & Hdst & Hright & Hleft & Hrun).
  destruct (size_valid Hv) as [Hsz Hr].
  assert (Hst : 0 <= start /\ start + block <= size sent).
  { destruct direction; [specialize (Hright eq_refl)|specialize (Hleft eq_refl)]; lia. }
  set (ins := mkModification sno dest dest (Z.to_nat dest) (Z.to_nat dest)
                (between sent (Z.to_nat start) (Z.to_nat start + Z.to_nat block))).
  set (del := mkModification sno start (start + block)
                (Z.to_nat start) (Z.to_nat start + Z.to_nat block) []).
  assert (Happly : forall sentences,
             nth_error sentences (Z.to_nat sno) = Some sent ->
             applyModifications [ins; del] sentences
             = mapNth (Z.to_nat sno)
                 (fun seg => moveBlock seg (Z.to_nat start) (Z.to_nat block) (Z.to_nat dest))
                 sentences).
  { intros sentences Hs. rewrite applyModifications_pair by reflexivity.
    eapply mapNth_ext; [exact Hs|]. cbn [from ins del]. unfold moveBlock.
    destruct direction.
    - specialize (Hright eq_refl).
      destruct (Z.ltb_spec start dest); [|lia].
      destruct (Nat.ltb_spec (Z.to_nat start) (Z.to_nat dest)); [|lia].
      apply move_right_apply; cbn; try reflexivity; lia.
    - specialize (Hleft eq_refl).
      destruct (Z.ltb_spec start dest); [lia|].
      destruct (Nat.ltb_spec (Z.to_nat start) (Z.to_nat dest)); [lia|].
      apply move_left_apply; cbn; try reflexivity; lia. }
  exists direction, start, block, dest, r2,
    (moveStep b r rd ld sno sent start block dest), ins, del.
  splits; try assumption; try reflexivity.
  - cbn [proposal ins]. f_equal. lia.
  - unfold oldSlice, between. cbn. rewrite Nat.sub_diag. reflexivity.
  - unfold oldSlice. cbn [from_it to_it del]. f_equal. lia.
  - apply Happly. assumption.
  - intros s0 s1 s2 s3 s4 -> -> -> -> ->. split; [reflexivity|].
    change (getModifications (moveStep b r rd ld sno [s0; s1; s2; s3; s4] 1 2 5))
      with [ins; del].
    rewrite (Happly _ Hnth). rewrite (nth_error_mapNth _ _ _ Hnth). reflexivity.
Qed.

Lemma MovePhrases_inserts_then_deletes_witness :
  validDocument docABCDE
  /\ exists step r,
      MovePhrasesOperation.createSearchStep (1 # 2) (1 # 2) (1 # 2) (1 # 2) docABCDE
        (tape [0; 1; 1; 1; 1]) = Returns (Some step) r
      /\ nth_error (applyModifications (getModifications step)
                      (getPhraseSegmentations docABCDE)) 0
         = Some [phraseA; phraseD; phraseE; phraseB; phraseC].
Proof.
  assert (Hd : validDocument docABCDE) by valid_document.
  split; [exact Hd|].
  destruct (MovePhrases_inserts_then_deletes (1 # 2) (1 # 2) (1 # 2) (1 # 2)
              (tape [0; 1; 1; 1; 1]) Hd)
    as (sno & sent & r1 & Hpre & Hnth & Hlong).
  assert (E : drawLongSentence 10 docABCDE (tape [0; 1; 1; 1; 1])
              = Returns (0, 5) (consume (tape [0; 1; 1; 1; 1]))) by reflexivity.
  rewrite E in Hpre. inversion Hpre as [[Hs Hz Hr]]. subst sno r1.
  cbn in Hnth. inversion Hnth as [Hsent]. subst sent.
  destruct (Hlong ltac:(cbn; lia))
    as (direction & start & block & dest & r2 & step & ins & del
        & Hch & Hrun & _ & _ & _ & _ & Hfive).
  vm_compute in Hch. inversion Hch; subst direction start block dest r2.
  exists step. eexists. split; [exact Hrun|].
  exact (proj2 (Hfive _ _ _ _ _ eq_refl eq_refl eq_refl eq_refl eq_refl)).
Defined.

Lemma MovePhrases_applied b r rd ld doc rnd step rnd' :
  validDocument doc ->
  MovePhrasesOperation.createSearchStep b r rd ld doc rnd = Returns (Some step) rnd' ->
  exists sno sent start block dest,
    nth_error (getPhraseSegmentations doc) (Z.to_nat sno) = Some sent
    /\ validSegmentation sent
    /\ (1 <= block)%nat
    /\ (start + block <= length sent)%nat /\ (dest <= length sent)%nat
    /\ (start + block + 1 <= dest \/ dest + 1 <= start)%nat
    /\ getModifications step <> []
    /\ applyModifications (getModifications step) (getPhraseSegmentations doc)
       = mapNth (Z.to_nat sno) (fun seg => moveBlock seg start block dest)
           (getPhraseSegmentations doc).
Proof.
  intros Hd Hrun.
  destruct (MovePhrases_run b r rd ld rnd Hd)
    as (sno & sent & r1 & Hpre & Hnth & Hv & Hshort & Hlong).
  destruct (Z.lt_ge_cases (size sent) 2) as [Hlt|Hge].
  { rewrite (Hshort Hlt) in Hrun. discriminate. }
  destruct (Hlong Hge)
    as (direction & start & block & dest & r2 & Hch & Hb & Hdst & Hright & Hleft & Hstep).
  rewrite Hstep in Hrun. inversion Hrun; subst step rnd'. clear Hrun.
  destruct (size_valid Hv) as [Hsz Hr].
  assert (Hst : 0 <= start /\ start + block <= size sent).
  { destruct direction; [specialize (Hright eq_refl)|specialize (Hleft eq_refl)]; lia. }
  exists sno, sent, (Z.to_nat start), (Z.to_nat block), (Z.to_nat dest).
  splits; try assumption; try lia.
  - destruct direction; [specialize (Hright eq_refl)|specialize (Hleft eq_refl)]; lia.
  - discriminate.
  - unfold moveStep. cbn [getModifications].
    rewrite applyModifications_pair by reflexivity.
    eapply mapNth_ext; [exact Hnth|]. cbn [from]. unfold moveBlock.
    destruct direction.
    + specialize (Hright eq_refl).
      destruct (Z.ltb_spec start dest); [|lia].
      destruct (Nat.ltb_spec (Z.to_nat start) (Z.to_nat dest)); [|lia].
      apply move_right_apply; cbn; try reflexivity; lia.
    + specialize (Hleft eq_refl).
      destruct (Z.ltb_spec start dest); [lia|].
      destruct (Nat.ltb_spec (Z.to_nat start) (Z.to_nat dest)); [lia|].
      apply move_left_apply; cbn; try reflexivity; lia.
Qed.

Lemma MovePhrases_preserves_coverage b r rd ld doc rnd step rnd' :
  validDocument doc ->
  MovePhrasesOperation.createSearchStep b r rd ld doc rnd = Returns (Some step) rnd' ->
  sameCoverageMultiset (getPhraseSegmentations doc)
    (applyModifications (getModifications step) (getPhraseSegmentations doc)).
Proof.
  intros Hd Hrun.
  destruct (MovePhrases_applied _ _ _ _ _ Hd Hrun)
    as (sno & sent & start & block & dest & Hnth & _ & _ & Hsb & Hdst & Hcase & _ & ->).
  eapply sameCoverageMultiset_mapNth; [exact Hnth|].
  apply coverages_Permutation, moveBlock_Permutation; lia.
Qed.

Lemma MovePhrases_changes b r rd ld doc rnd step rnd' :
  validDocument doc ->
  MovePhrasesOperation.createSearchStep b r rd ld doc rnd = Returns (Some step) rnd' ->
  applyModifications (getModifications step) (getPhraseSegmentations doc)
  <> getPhraseSegmentations doc.
Proof.
  intros Hd Hrun.
  destruct (MovePhrases_applied _ _ _ _ _ Hd Hrun)
    as (sno & sent & start & block & dest & Hnth & Hv & Hblock & Hsb & Hdst & Hcase & _ & ->).
  apply (mapNth_changes _ _ Hnth).
  destruct Hv as (_ & _ & Hpart). apply partitionsSource_NoDup in Hpart.
  apply moveBlock_differs; assumption.
Qed.

Lemma MovePhrases_consistent b r rd ld doc rnd step rnd' :
  validDocument doc ->
  MovePhrasesOperation.createSearchStep b r rd ld doc rnd = Returns (Some step) rnd' ->
  map atIterators (getModifications step) = getModifications step.
Proof.
  intros Hd Hrun.
  destruct (MovePhrases_run b r rd ld rnd Hd)
    as (sno & sent & r1 & Hpre & Hnth & Hv & Hshort & Hlong).
  destruct (Z.lt_ge_cases (size sent) 2) as [Hlt|Hge].
  { rewrite (Hshort Hlt) in Hrun. discriminate. }
  destruct (Hlong Hge)
    as (direction & start & block & dest & r2 & Hch & Hb & Hdst & Hright & Hleft & Hstep).
  rewrite Hstep in Hrun. inversion Hrun; subst step rnd'. clear Hrun.
  assert (Hst : 0 <= start).
  { destruct direction; [specialize (Hright eq_refl)|specialize (Hleft eq_refl)]; lia. }
  cbn [getModifications moveStep map].
  rewrite !atIterators_consistent; [reflexivity|cbn; lia..].
Qed.

(* ------------------------------------------------------------------------- *)
(** ** Resegment *)

Lemma Resegment_returns d doc rnd step rnd' :
  ResegmentOperation.createSearchStep d doc rnd = Returns (Some step) rnd' ->
  exists sno sent pcoll start oe newseg r,
    nth_error (getPhraseSegmentations doc) (Z.to_nat sno) = Some sent
    /\ nth_error (getPhraseTranslations doc) (Z.to_nat sno) = Some pcoll
    /\ 0 <= start
    /\ (Z.to_nat start <= oe <= length sent)%nat
    /\ proposeSegmentation pcoll
         (ResegmentOperation.coverage (between sent (Z.to_nat start) oe)) r
       = (newseg, rnd')
    /\ let os := Z.to_nat start in
       let orig := between sent os oe in
       let p := commonPrefix pair_eqb orig newseg in
       let q := commonPrefix pair_eqb (rev orig) (rev newseg) in
       p <> length orig
       /\ (p <= length newseg - q)%nat
       /\ step = mkSearchStep (ResegmentOperation d)
                  [mkModification sno (start +u Z.of_nat p)
                     (start +u Z.of_nat p
                      +u Z.of_nat (length (between newseg p (length newseg - q))))
                     (os + p) (oe - q) (between newseg p (length newseg - q))].
Proof.
  intros H. unfold ResegmentOperation.createSearchStep in H.
  unbind H. rename a into sno.
  unbind H. apply deref_returns in Hcall0. destruct Hcall0 as [Hnth ->].
  rename a into sent.
  unbind H. apply deref_returns in Hcall0. destruct Hcall0 as [Hcoll ->].
  rename a into pcoll.
  unbind H. unbind H. rename a0 into start.
  apply drawFromRange_returns in Hcall1. destruct Hcall1 as (_ & _ & Hstart & ->).
  unbind H. apply advance_returns in Hcall1. destruct Hcall1 as (-> & _ & ->).
  unbind H. apply advance_returns in Hcall1. destruct Hcall1 as (-> & _ & ->).
  unbind H. apply copyRange_returns in Hcall1. destruct Hcall1 as (-> & Hrange & ->).
  unbind H. apply call_returns in Hcall1. rename a0 into newseg.
  cbn [Nat.add] in *.
  unbind H. apply mismatch_returns in Hcall2. destruct Hcall2 as [-> ->].
  match type of H with context [(?x =? ?y)%nat] => destruct (Nat.eqb_spec x y) as [E|E] end;
    [apply ret_returns in H; destruct H; discriminate|].
  unbind H. apply mismatch_returns in Hcall2. destruct Hcall2 as [-> ->].
  unbind H. apply copyRange_returns in Hcall2. destruct Hcall2 as (-> & Hnew & ->).
  apply ret_returns in H. destruct H as [H ->]. inversion H; subst step. clear H.
  exists sno, sent, pcoll, start,
    (Z.to_nat start + Z.to_nat (start +u (a +u 1) - start))%nat, newseg.
  eexists. splits; try eassumption; try lia; reflexivity.
Qed.

(** The proposed slice covers exactly what the old slice covers. *)
Lemma Resegment_slices_cover_alike sent os oe newseg :
  partitionsSource sent = true ->
  partitionsSource newseg = true ->
  (os <= oe <= length sent)%nat ->
  coverage newseg = coverage (between sent os oe) ->
  let orig := between sent os oe in
  let p := commonPrefix pair_eqb orig newseg in
  let q := commonPrefix pair_eqb (rev orig) (rev newseg) in
  p <> length orig -> (p <= length newseg - q)%nat ->
  (p + q <= length orig)%nat
  /\ coverage (between newseg p (length newseg - q))
     = coverage (between sent (os + p) (oe - q)).
Proof.
  intros Hvs Hvn Hr Hcov orig p q Hp Hpq.
  assert (Hvo : partitionsSource orig = true) by (apply partitionsSource_between; assumption).
  pose proof (commonPrefix_le pair_eqb orig newseg) as [Hp1 _]. fold p in Hp1.
  pose proof (commonPrefix_le pair_eqb (rev orig) (rev newseg)) as [Hq1 _].
  rewrite length_rev in Hq1. fold q in Hq1.
  assert (Hlen : length orig = (oe - os)%nat) by (apply length_between; assumption).
  assert (Hapart : (p + q <= length orig)%nat).
  { apply trimmed_ends_apart; try assumption; try (fold p; lia).
    apply partitionsSource_NoDup; assumption. }
  split; [assumption|].
  rewrite (@old_slice_of_run _ sent os oe p q Hr) by lia. fold orig.
  pose proof (@trimmed_split _ orig p q ltac:(lia)) as Eo.
  pose proof (@trimmed_split _ newseg p q ltac:(lia)) as En.
  pose proof (commonPrefix_firstn_eq orig newseg) as Epre. fold p in Epre.
  pose proof (commonSuffix_skipn_eq orig newseg) as Esuf. cbv zeta in Esuf. fold q in Esuf.
  set (P := firstn p orig) in *. set (S := skipn (length orig - q) orig) in *.
  set (M := between orig p (length orig - q)) in *.
  set (M' := between newseg p (length newseg - q)) in *.
  rewrite <- Epre, <- Esuf in En.
  assert (Hvo' : partitionsSource (P ++ M ++ S) = true) by (rewrite <- Eo; assumption).
  assert (Hvn' : partitionsSource (P ++ M' ++ S) = true) by (rewrite <- En; assumption).
  assert (Hc : coverage (P ++ M' ++ S) = coverage (P ++ M ++ S)).
  { rewrite <- En. fold orig in Hcov. rewrite Hcov. rewrite Eo at 1. reflexivity. }
  rewrite !coverage_app in Hc.
  apply partitionsSource_app in Hvo'. destruct Hvo' as (_ & Hms & Hpms).
  apply partitionsSource_app in Hvn'. destruct Hvn' as (_ & Hms' & Hpms').
  rewrite coverage_app in Hpms, Hpms'.
  apply lor_cancel in Hc; [|assumption|assumption].
  apply partitionsSource_app in Hms. destruct Hms as (_ & _ & Hdis).
  apply partitionsSource_app in Hms'. destruct Hms' as (_ & _ & Hdis').
  rewrite (N.lor_comm (coverage M')), (N.lor_comm (coverage M)) in Hc.
  apply lor_cancel in Hc; [assumption| |]; rewrite N.land_comm; assumption.
Qed.

Lemma Resegment_preserves_slice_coverage d doc rnd step rnd' m :
  validDocument doc ->
  Forall coversExactly (getPhraseTranslations doc) ->
  ResegmentOperation.createSearchStep d doc rnd = Returns (Some step) rnd' ->
  In m (getModifications step) ->
  exists sent,
    nth_error (getPhraseSegmentations doc) (Z.to_nat (sentno m)) = Some sent
    /\ coverage (proposal m) = coverage (oldSlice sent m).
Proof.
  intros Hd Hcontract Hrun Hin. apply Resegment_returns in Hrun.
  destruct Hrun as (sno & sent & pcoll & start & oe & newseg & r
                    & Hnth & Hcoll & _ & Hr & Hprop & Hp & Hpq & ->).
  destruct Hin as [<-|[]]. exists sent. split; [exact Hnth|].
  rewrite Forall_forall in Hcontract.
  destruct (Hcontract pcoll (nth_error_In _ _ Hcoll)
              (coverage (between sent (Z.to_nat start) oe)) r) as [Hvn Hcov].
  rewrite Hprop in Hvn, Hcov. cbn [fst] in Hvn, Hcov.
  destruct (valid_sentence _ Hd Hnth) as (_ & _ & Hvs).
  unfold oldSlice. cbn [proposal from_it to_it].
  apply Resegment_slices_cover_alike; assumption.
Qed.

(** C1 does not hold for Resegment: the collaborators keep their contracts,
    Resegment splits the phrase [AB] of the sentence into [A] and [B], and
    the multiset of per-pair bitmaps changes from [{3}] to [{1, 2}]. *)
Lemma Resegment_changes_coverage_multiset :
  validDocument docAB1
  /\ Forall sameSourceSpan (getPhraseTranslations docAB1)
  /\ Forall coversExactly (getPhraseTranslations docAB1)
  /\ exists step r,
      StateOperation_createSearchStep (ResegmentOperation (1 # 2)) docAB1 (tape [])
        = Returns (Some step) r
      /\ applyModifications (getModifications step) (getPhraseSegmentations docAB1)
         = [[phraseA; phraseB]]
      /\ ~ sameCoverageMultiset (getPhraseSegmentations docAB1)
             (applyModifications (getModifications step) (getPhraseSegmentations docAB1)).
Proof.
  splits; [valid_document|apply document_contract|apply document_contract|].
  exists (mkSearchStep (ResegmentOperation (1 # 2))
            [mkModification 0 0 2 0 1 [phraseA; phraseB]]),
    (mkRandom (source (tape [])) 3).
  splits; [reflexivity|reflexivity|].
  intros H. inversion H as [|b a bs as_ Hp _]; subst.
  apply Permutation_length in Hp. discriminate.
Qed.

(** Under the contract the trimmed proposal is not empty and starts with a
    pair other than the one at the start of the old slice. *)
Lemma Resegment_proposal_differs sent os oe newseg :
  partitionsSource sent = true ->
  partitionsSource newseg = true ->
  (os <= oe <= length sent)%nat ->
  coverage newseg = coverage (between sent os oe) ->
  let orig := between sent os oe in
  let p := commonPrefix pair_eqb orig newseg in
  let q := commonPrefix pair_eqb (rev orig) (rev newseg) in
  p <> length orig -> (p <= length newseg - q)%nat ->
  (os + p <= oe - q)%nat
  /\ coverage (between newseg p (length newseg - q))
     = coverage (between sent (os + p) (oe - q))
  /\ exists x y,
      nth_error sent (os + p) = Some x
      /\ hd_error (between newseg p (length newseg - q)) = Some y
      /\ x <> y.
Proof.
  intros Hvs Hvn Hr Hcov orig p q Hp Hpq.
  destruct (Resegment_slices_cover_alike sent newseg Hvs Hvn Hr Hcov Hp Hpq)
    as [Hapart Hmid].
  fold orig p q in Hapart, Hmid.
  assert (Horig : length orig = (oe - os)%nat) by (apply length_between; assumption).
  pose proof (commonPrefix_le pair_eqb orig newseg) as [Hp1 Hp2]. fold p in Hp1, Hp2.
  pose proof (commonPrefix_le pair_eqb (rev orig) (rev newseg)) as [Hq1 Hq2].
  rewrite !length_rev in Hq1, Hq2. fold q in Hq1, Hq2.
  assert (Hstrict : (p + q < length newseg)%nat).
  { destruct (Nat.lt_ge_cases (p + q) (length newseg)) as [|Hge]; [assumption|exfalso].
    assert (Hnil : between newseg p (length newseg - q) = []).
    { unfold between. replace (length newseg - q - p)%nat with 0%nat by lia. reflexivity. }
    rewrite Hnil in Hmid.
    rewrite (@old_slice_of_run _ sent os oe p q Hr) in Hmid by lia. fold orig in Hmid.
    assert (Hold : between orig p (length orig - q) = []).
    { destruct (between orig p (length orig - q)) eqn:E; [reflexivity|exfalso].
      symmetry in Hmid. revert Hmid. apply partitionsSource_covers; [|discriminate].
      rewrite <- E. apply partitionsSource_between, partitionsSource_between. assumption. }
    pose proof (@trimmed_split _ orig p q ltac:(lia)) as Eo.
    pose proof (@trimmed_split _ newseg p q ltac:(lia)) as En.
    pose proof (commonPrefix_firstn_eq orig newseg) as Epre. fold p in Epre.
    pose proof (commonSuffix_skipn_eq orig newseg) as Esuf. cbv zeta in Esuf. fold q in Esuf.
    rewrite Hold in Eo. rewrite Hnil in En. rewrite <- Epre, <- Esuf, <- Eo in En.
    apply Hp. unfold p. rewrite En. apply commonPrefix_refl. }
  destruct (@nth_error_in_range _ orig p ltac:(lia)) as [x Hx].
  destruct (@nth_error_in_range _ newseg p ltac:(lia)) as [y Hy].
  splits; [lia|exact Hmid|].
  exists x, y. splits.
  - unfold orig in Hx. rewrite nth_error_between in Hx by lia. exact Hx.
  - rewrite hd_error_between by lia. exact Hy.
  - apply (commonPrefix_mismatch orig newseg Hx Hy).
Qed.

Lemma Resegment_changes d doc rnd step rnd' :
  validDocument doc ->
  Forall coversExactly (getPhraseTranslations doc) ->
  ResegmentOperation.createSearchStep d doc rnd = Returns (Some step) rnd' ->
  applyModifications (getModifications step) (getPhraseSegmentations doc)
  <> getPhraseSegmentations doc.
Proof.
  intros Hd Hcontract Hrun. apply Resegment_returns in Hrun.
  destruct Hrun as (sno & sent & pcoll & start & oe & newseg & r
                    & Hnth & Hcoll & Hs & Hr & Hprop & Hp & Hpq & ->).
  cbn [getModifications]. rewrite applyModifications_single. cbn [sentno].
  apply (mapNth_changes _ _ Hnth).
  rewrite Forall_forall in Hcontract.
  destruct (Hcontract pcoll (nth_error_In _ _ Hcoll)
              (coverage (between sent (Z.to_nat start) oe)) r) as [Hvn Hcov].
  rewrite Hprop in Hvn, Hcov. cbn [fst] in Hvn, Hcov.
  destruct (valid_sentence _ Hd Hnth) as (_ & Hlen & Hvs).
  rewrite modulus_eq in Hlen.
  destruct (Resegment_proposal_differs sent newseg Hvs Hvn Hr Hcov Hp Hpq)
    as (Hapart & _ & x & y & Hx & Hy & Hxy).
  unfold replaceRange. cbn [from to proposal].
  rewrite (add_small start) by (rewrite modulus_eq; lia).
  rewrite Z2Nat.inj_add, Nat2Z.id by lia.
  apply (@replaced_differs sent _ _ _ x y); assumption.
Qed.

Lemma Resegment_at_iterators d doc rnd step rnd' :
  validDocument doc ->
  Forall coversExactly (getPhraseTranslations doc) ->
  ResegmentOperation.createSearchStep d doc rnd = Returns (Some step) rnd' ->
  sameCoverage (getPhraseSegmentations doc)
    (applyAtIterators (getModifications step) (getPhraseSegmentations doc))
  /\ applyAtIterators (getModifications step) (getPhraseSegmentations doc)
     <> getPhraseSegmentations doc.
Proof.
  intros Hd Hcontract Hrun. apply Resegment_returns in Hrun.
  destruct Hrun as (sno & sent & pcoll & start & oe & newseg & r
                    & Hnth & Hcoll & Hs & Hr & Hprop & Hp & Hpq & ->).
  cbn [getModifications]. rewrite applyAtIterators_single. cbn [sentno].
  rewrite Forall_forall in Hcontract.
  destruct (Hcontract pcoll (nth_error_In _ _ Hcoll)
              (coverage (between sent (Z.to_nat start) oe)) r) as [Hvn Hcov].
  rewrite Hprop in Hvn, Hcov. cbn [fst] in Hvn, Hcov.
  destruct (valid_sentence _ Hd Hnth) as (_ & Hlen & Hvs).
  destruct (Resegment_proposal_differs sent newseg Hvs Hvn Hr Hcov Hp Hpq)
    as (Hapart & Hmid & x & y & Hx & Hy & Hxy).
  unfold replaceIteratorRange. cbn [from_it to_it proposal].
  split.
  - eapply sameCoverage_mapNth; [exact Hnth|].
    destruct (@between_split _ sent
                (Z.to_nat start
                 + commonPrefix pair_eqb (between sent (Z.to_nat start) oe) newseg)
                (oe - commonPrefix pair_eqb (rev (between sent (Z.to_nat start) oe))
                        (rev newseg)) ltac:(lia)) as (E & _).
    rewrite E at 1. rewrite !coverage_app, Hmid. reflexivity.
  - apply (mapNth_changes _ _ Hnth).
    apply (@replaced_differs sent _ _ _ x y); assumption.
Qed.

(** Resegment counts its end index along the proposed slice, not along the
    old one.  On the sentence [[AB, C]], resegmenting the run [[0, 1)] into
    [[A, B]] gives the index range [[0, 2)] for the old slice [[0, 1)]:
    replacing the index range drops [C], replacing the old slice does
    not. *)
Remark Resegment_end_counts_proposed_phrases :
  ResegmentOperation.createSearchStep (1 # 2) docAB_C (tape [0; 0; 0])
  = Returns (Some (mkSearchStep (ResegmentOperation (1 # 2))
                     [mkModification 0 0 2 0 1 [phraseA; phraseB]]))
      (mkRandom (source (tape [0; 0; 0])) 3)
  /\ applyModifications [mkModification 0 0 2 0 1 [phraseA; phraseB]]
       (getPhraseSegmentations docAB_C)
     = [[phraseA; phraseB]]
  /\ applyAtIterators [mkModification 0 0 2 0 1 [phraseA; phraseB]]
       (getPhraseSegmentations docAB_C)
     = [[phraseA; phraseB; phraseC]].
Proof. repeat split; reflexivity. Qed.

(* ------------------------------------------------------------------------- *)
(** ** Minimal diff *)

(** C4.  Every modification emitted by PermutePhrases, LinearisePhrases or
    Resegment is a minimal diff: the proposed slice and the old slice it
    replaces (the phrases between the two iterators of the modification)
    share no common prefix and no common suffix; when both are non-empty
    their first phrases differ and their last phrases differ. *)
Theorem trimmed_modification_is_minimal op doc rnd step rnd' m :
  (exists d, op = PermutePhrasesOperation d
             \/ op = LinearisePhrasesOperation d
             \/ op = ResegmentOperation d) ->
  StateOperation_createSearchStep op doc rnd = Returns (Some step) rnd' ->
  In m (getModifications step) ->
  exists sent,
    nth_error (getPhraseSegmentations doc) (Z.to_nat (sentno m)) = Some sent
    /\ commonPrefix pair_eqb (oldSlice sent m) (proposal m) = 0%nat
    /\ commonPrefix pair_eqb (rev (oldSlice sent m)) (rev (proposal m)) = 0%nat
    /\ (forall x y, hd_error (oldSlice sent m) = Some x ->
                    hd_error (proposal m) = Some y -> x <> y)
    /\ (forall x y, hd_error (rev (oldSlice sent m)) = Some x ->
                    hd_error (rev (proposal m)) = Some y -> x <> y).
Proof.
  intros (d & [->| [->| ->]]) Hrun Hin; cbn [StateOperation_createSearchStep] in Hrun.
  - apply PermutePhrases_returns in Hrun.
    destruct Hrun as (sno & sent & start & oe & pg & Hnth & _ & Hr & _ & _ & _ & _ & ->).
    destruct Hin as [<-|[]]. exists sent. split; [exact Hnth|].
    apply (trimmed_slices_minimal sent pg Hr).
  - apply LinearisePhrases_returns in Hrun.
    destruct Hrun as (sno & sent & start & oe & Hnth & _ & Hr & _ & Hos & _ & _ & ->).
    destruct Hin as [<-|[]]. exists sent. split; [exact Hnth|].
    apply (@trimmed_slices_minimal sent _ oe
             (sort CompareAnchoredPhrasePairs _)). lia.
  - apply Resegment_returns in Hrun.
    destruct Hrun
      as (sno & sent & pcoll & start & oe & newseg & r & Hnth & _ & _ & Hr & _ & _ & _ & ->).
    destruct Hin as [<-|[]]. exists sent. split; [exact Hnth|].
    apply (trimmed_slices_minimal sent newseg Hr).
Qed.

Lemma trimmed_modification_is_minimal_witness :
  exists step r m sent,
    StateOperation_createSearchStep (LinearisePhrasesOperation (1 # 2)) docBACD
      (tape [0; 2; 0]) = Returns (Some step) r
    /\ In m (getModifications step)
    /\ nth_error (getPhraseSegmentations docBACD) (Z.to_nat (sentno m)) = Some sent
    /\ commonPrefix pair_eqb (oldSlice sent m) (proposal m) = 0%nat
    /\ commonPrefix pair_eqb (rev (oldSlice sent m)) (rev (proposal m)) = 0%nat.
Proof.
  pose (m := mkModification 0 0 2 0 2 [phraseA; phraseB]).
  pose (step := mkSearchStep (LinearisePhrasesOperation (1 # 2)) [m]).
  pose (r := mkRandom (source (tape [0; 2; 0])) 3).
  assert (Hrun : StateOperation_createSearchStep (LinearisePhrasesOperation (1 # 2)) docBACD
                   (tape [0; 2; 0]) = Returns (Some step) r) by reflexivity.
  assert (Hin : In m (getModifications step)) by apply in_eq.
  destruct (@trimmed_modification_is_minimal _ _ _ _ _ m
              (ex_intro _ (1 # 2) (or_intror (or_introl eq_refl))) Hrun Hin)
    as (sent & Hnth & Hpre & Hsuf & _).
  exists step, r, m, sent. splits; assumption.
Defined.

(* ------------------------------------------------------------------------- *)
(** ** Coverage preservation, for every operator *)

(** C1, amended.  On a valid document whose collections keep their
    contracts, applying the modifications of a step emitted by
    ChangePhraseTranslation, PermutePhrases, SwapPhrases or MovePhrases
    yields, sentence by sentence, the same multiset of per-pair
    source-coverage bitmaps (their index ranges and their old slices
    coincide).  For LinearisePhrases the same holds when the proposal
    replaces the old slice recorded in the modification, and for the index
    range whenever it starts where the old slice starts.  A step of
    Resegment does not keep the per-pair bitmaps: its proposed slice covers
    exactly the source positions of the old slice, so replacing the old
    slice keeps the coverage of the sentence (the union of the per-pair
    bitmaps). *)
Theorem coverage_preserved_by_design op doc rnd step rnd' :
  validDocument doc ->
  Forall sameSourceSpan (getPhraseTranslations doc) ->
  Forall coversExactly (getPhraseTranslations doc) ->
  StateOperation_createSearchStep op doc rnd = Returns (Some step) rnd' ->
  match op with
  | ResegmentOperation _ =>
      sameCoverage (getPhraseSegmentations doc)
        (applyAtIterators (getModifications step) (getPhraseSegmentations doc))
      /\ forall m, In m (getModifications step) ->
           exists sent,
             nth_error (getPhraseSegmentations doc) (Z.to_nat (sentno m)) = Some sent
             /\ coverage (proposal m) = coverage (oldSlice sent m)
  | LinearisePhrasesOperation _ =>
      sameCoverageMultiset (getPhraseSegmentations doc)
        (applyAtIterators (getModifications step) (getPhraseSegmentations doc))
      /\ ((forall m, In m (getModifications step) -> Z.to_nat (from m) = from_it m) ->
          sameCoverageMultiset (getPhraseSegmentations doc)
            (applyModifications (getModifications step) (getPhraseSegmentations doc)))
  | _ =>
      sameCoverageMultiset (getPhraseSegmentations doc)
        (applyModifications (getModifications step) (getPhraseSegmentations doc))
      /\ applyAtIterators (getModifications step) (getPhraseSegmentations doc)
         = applyModifications (getModifications step) (getPhraseSegmentations doc)
  end.
Proof.
  intros Hd Hsame Hcov Hrun. unfold applyAtIterators.
  destruct op; cbn [StateOperation_createSearchStep] in Hrun.
  - split; [eapply ChangePhraseTranslation_preserves_coverage; eassumption|].
    rewrite (ChangePhraseTranslation_consistent _ Hd Hrun). reflexivity.
  - split; [eapply PermutePhrases_preserves_coverage; eassumption|].
    rewrite (PermutePhrases_consistent _ _ Hd Hrun). reflexivity.
  - split; [eapply LinearisePhrases_at_iterators; eassumption|].
    intros Hcons. eapply LinearisePhrases_preserves_coverage; eassumption.
  - split; [eapply SwapPhrases_preserves_coverage; eassumption|].
    rewrite (SwapPhrases_consistent _ _ Hd Hrun). reflexivity.
  - split; [eapply MovePhrases_preserves_coverage; eassumption|].
    rewrite (MovePhrases_consistent _ _ _ _ _ Hd Hrun). reflexivity.
  - split; [eapply Resegment_at_iterators; eassumption|].
    intros m Hin. eapply Resegment_preserves_slice_coverage; eassumption.
Qed.

Lemma coverage_preserved_by_design_witness :
  validDocument docABC
  /\ exists step r,
      StateOperation_createSearchStep (SwapPhrasesOperation (1 # 2)) docABC
        (tape [0; 0; 1]) = Returns (Some step) r
      /\ sameCoverageMultiset (getPhraseSegmentations docABC)
           (applyModifications (getModifications step) (getPhraseSegmentations docABC)).
Proof.
  assert (Hd : validDocument docABC) by valid_document.
  split; [exact Hd|].
  eexists; eexists; split; [reflexivity|].
  exact (proj1 (@coverage_preserved_by_design (SwapPhrasesOperation (1 # 2)) docABC
                  (tape [0; 0; 1]) _ _ Hd
                  (proj1 (document_contract _)) (proj2 (document_contract _)) eq_refl)).
Defined.

(* ------------------------------------------------------------------------- *)
(** ** The dispatcher *)

Lemma operation_changes op doc rnd step rnd' :
  validDocument doc ->
  Forall coversExactly (getPhraseTranslations doc) ->
  StateOperation_createSearchStep op doc rnd = Returns (Some step) rnd' ->
  applyModifications (getModifications step) (getPhraseSegmentations doc)
  <> getPhraseSegmentations doc.
Proof.
  intros Hd Hcov Hrun. destruct op; cbn [StateOperation_createSearchStep] in Hrun.
  - eapply ChangePhraseTranslation_changes; eassumption.
  - eapply PermutePhrases_changes; eassumption.
  - eapply LinearisePhrases_changes; eassumption.
  - eapply SwapPhrases_changes; eassumption.
  - eapply MovePhrases_changes; eassumption.
  - eapply Resegment_changes; eassumption.
Qed.

Lemma operation_changes_at_iterators op doc rnd step rnd' :
  validDocument doc ->
  Forall coversExactly (getPhraseTranslations doc) ->
  StateOperation_createSearchStep op doc rnd = Returns (Some step) rnd' ->
  applyAtIterators (getModifications step) (getPhraseSegmentations doc)
  <> getPhraseSegmentations doc.
Proof.
  intros Hd Hcov Hrun. unfold applyAtIterators.
  destruct op; cbn [StateOperation_createSearchStep] in Hrun.
  - rewrite (ChangePhraseTranslation_consistent _ Hd Hrun).
    eapply ChangePhraseTranslation_changes; eassumption.
  - rewrite (PermutePhrases_consistent _ _ Hd Hrun).
    eapply PermutePhrases_changes; eassumption.
  - eapply LinearisePhrases_at_iterators; eassumption.
  - rewrite (SwapPhrases_consistent _ _ Hd Hrun).
    eapply SwapPhrases_changes; eassumption.
  - rewrite (MovePhrases_consistent _ _ _ _ _ Hd Hrun).
    eapply MovePhrases_changes; eassumption.
  - eapply Resegment_at_iterators; eassumption.
Qed.

Lemma dispatcher_returns fuel gen doc :
  forall rnd step rnd',
    StateGenerator.createSearchStep fuel gen doc rnd = Returns step rnd' ->
    getModifications step <> []
    /\ exists op r, In op (StateGenerator.operations_ gen)
                    /\ StateOperation_createSearchStep op doc r = Returns (Some step) rnd'.
Proof.
  induction fuel as [|fuel IH]; intros rnd step rnd' H;
    cbn [StateGenerator.createSearchStep] in H; [discriminate|].
  unbind H. unbind H. unbind H.
  apply deref_returns in Hcall0. destruct Hcall0 as [Hop ->].
  destruct a1 as [candidate|]; [|eapply IH; exact H].
  destruct (getModifications candidate) as [|m ms] eqn:Hm; [eapply IH; exact H|].
  apply ret_returns in H. destruct H as [-> ->].
  split; [rewrite Hm; discriminate|].
  exists a0, r. split; [eapply nth_error_In; exact Hop|exact Hcall1].
Qed.

Lemma dispatcher_more_fuel fuel gen doc :
  forall rnd step rnd' fuel',
    StateGenerator.createSearchStep fuel gen doc rnd = Returns step rnd' ->
    (fuel <= fuel')%nat ->
    StateGenerator.createSearchStep fuel' gen doc rnd = Returns step rnd'.
Proof.
  induction fuel as [|fuel IH]; intros rnd step rnd' fuel' H Hle;
    cbn [StateGenerator.createSearchStep] in H; [discriminate|].
  destruct fuel' as [|fuel']; [lia|]. cbn [StateGenerator.createSearchStep].
  unbind H. erewrite bind_eq by exact Hcall.
  unbind H. erewrite bind_eq by exact Hcall0.
  unbind H. erewrite bind_eq by exact Hcall1. cbv beta.
  destruct a1 as [candidate|]; [|apply IH; [exact H|lia]].
  destruct (getModifications candidate); [apply IH; [exact H|lia]|exact H].
Qed.

(** C2.  On a valid document (every sentence a phrase segmentation of at
    least one phrase) whose collections keep the contract of
    [proposeSegmentation], whenever the dispatcher returns a step, the step
    has at least one modification and applying it gives a document state
    other than the current one, whether the proposals replace the index
    ranges or the old slices; more rounds of the loop return the same
    step. *)
Theorem dispatcher_step_is_effective fuel gen doc rnd step rnd' :
  validDocument doc ->
  Forall coversExactly (getPhraseTranslations doc) ->
  StateGenerator.createSearchStep fuel gen doc rnd = Returns step rnd' ->
  getModifications step <> []
  /\ applyModifications (getModifications step) (getPhraseSegmentations doc)
     <> getPhraseSegmentations doc
  /\ applySearchStep step doc <> doc
  /\ applyAtIterators (getModifications step) (getPhraseSegmentations doc)
     <> getPhraseSegmentations doc
  /\ forall fuel', (fuel <= fuel')%nat ->
       StateGenerator.createSearchStep fuel' gen doc rnd = Returns step rnd'.
Proof.
  intros Hd Hcov Hrun.
  destruct (dispatcher_returns _ _ _ _ Hrun) as (Hne & op & r & _ & Hop).
  pose proof (operation_changes _ _ Hd Hcov Hop) as Hch.
  pose proof (operation_changes_at_iterators _ _ Hd Hcov Hop) as Hch'.
  splits; try assumption.
  - intros E. apply Hch. apply (f_equal getPhraseSegmentations) in E. exact E.
  - intros fuel' Hle. eapply dispatcher_more_fuel; eassumption.
Qed.

Lemma dispatcher_step_is_effective_witness :
  validDocument docABC
  /\ Forall coversExactly (getPhraseTranslations docABC)
  /\ exists step r,
      StateGenerator.createSearchStep 5
        (StateGenerator.mk [ChangePhraseTranslationOperation; SwapPhrasesOperation (1 # 2)]
           [1 # 2; 1 # 1])
        docABC (tape [0; 0; 1; 1; 0; 0; 1]) = Returns step r
      /\ getModifications step <> []
      /\ applySearchStep step docABC <> docABC.
Proof.
  assert (Hd : validDocument docABC) by valid_document.
  assert (Hc : Forall coversExactly (getPhraseTranslations docABC))
    by apply document_contract.
  splits; [exact Hd|exact Hc|].
  eexists; eexists.
  assert (Hrun : StateGenerator.createSearchStep 5
                   (StateGenerator.mk
                      [ChangePhraseTranslationOperation; SwapPhrasesOperation (1 # 2)]
                      [1 # 2; 1 # 1])
                   docABC (tape [0; 0; 1; 1; 0; 0; 1])
                 = Returns (swapStep (1 # 2) 0 0 2 phraseA phraseC)
                     (mkRandom (source (tape [0; 0; 1; 1; 0; 0; 1])) 7))
    by reflexivity.
  split; [exact Hrun|].
  destruct (dispatcher_step_is_effective _ _ _ Hd Hc Hrun) as (H1 & _ & H3 & _).
  split; assumption.
Defined.

(* ------------------------------------------------------------------------- *)
(** ** Configuring the generator *)

Lemma addOperation_cases Fadd weight type params gen :
  (exists e, newOperation type params = inl e
             /\ addOperation Fadd weight type params gen = (Some e, gen))
  \/ (exists op w, newOperation type params = inr op
                   /\ addOperation Fadd weight type params gen
                      = (None, StateGenerator.mk
                                 (StateGenerator.operations_ gen ++ [op])
                                 (StateGenerator.cumulativeOperationDistribution_ gen ++ [w]))
                   /\ w = match StateGenerator.cumulativeOperationDistribution_ gen with
                          | [] => weight
                          | _ :: _ =>
                              Fadd weight
                                (last (StateGenerator.cumulativeOperationDistribution_ gen) 0%Q)
                          end).
Proof.
  unfold addOperation. destruct (newOperation type params) as [e|op].
  - left. eauto.
  - right. eauto.
Qed.

Lemma newOperation_typeKey type params op :
  newOperation type params = inr op -> typeKey op = type.
Proof.
  unfold newOperation, throwing.
  repeat match goal with
         | |- context [String.eqb type ?k] =>
             destruct (String.eqb_spec type k) as [->|]
         end;
    repeat match goal with
           | |- context [match ?x with Some _ => _ | None => _ end] => destruct x
           end;
    intros E; inversion E; reflexivity.
Qed.


Lemma addOperations_cons Fadd c calls gen :
  addOperations Fadd (c :: calls) gen
  = addOperations Fadd calls
      (snd (addOperation Fadd (callWeight c) (callType c) (callParams c) gen)).
Proof. reflexivity. Qed.

Lemma last_snoc A (l : list A) x d : last (l ++ [x]) d = x.
Proof. apply last_last. Qed.

Lemma addOperations_from Fadd calls :
  forall gen,
    map typeKey (StateGenerator.operations_ (addOperations Fadd calls gen))
    = map typeKey (StateGenerator.operations_ gen) ++ map callType (accepted calls)
    /\ StateGenerator.cumulativeOperationDistribution_ (addOperations Fadd calls gen)
       = StateGenerator.cumulativeOperationDistribution_ gen
         ++ runningSums Fadd
              (match StateGenerator.cumulativeOperationDistribution_ gen with
               | [] => None
               | _ :: _ =>
                   Some (last (StateGenerator.cumulativeOperationDistribution_ gen) 0%Q)
               end)
              (map callWeight (accepted calls)).
Proof.
  induction calls as [|c calls IH]; intros gen.
  - cbn. rewrite !app_nil_r. split; reflexivity.
  - rewrite addOperations_cons. unfold accepted. cbn [filter].
    fold (accepted calls).
    destruct (addOperation_cases Fadd (callWeight c) (callType c) (callParams c) gen)
      as [(e & Hnew & Hadd)|(op & w & Hnew & Hadd & Hw)];
      rewrite Hadd, Hnew; cbn [snd].
    + apply IH.
    + destruct (IH (StateGenerator.mk (StateGenerator.operations_ gen ++ [op])
                      (StateGenerator.cumulativeOperationDistribution_ gen ++ [w])))
        as [IHo IHc].
      rewrite IHo, IHc. cbn [StateGenerator.operations_
                               StateGenerator.cumulativeOperationDistribution_].
      rewrite map_app, <- !app_assoc. cbn [map app].
      rewrite (newOperation_typeKey _ _ Hnew).
      split; [reflexivity|].
      f_equal. cbn [runningSums app].
      assert (Hlast : match StateGenerator.cumulativeOperationDistribution_ gen ++ [w] with
                      | [] => None
                      | _ :: _ =>
                          Some (last (StateGenerator.cumulativeOperationDistribution_ gen
                                      ++ [w]) 0%Q)
                      end = Some w).
      { rewrite last_snoc.
        destruct (StateGenerator.cumulativeOperationDistribution_ gen); reflexivity. }
      rewrite Hlast.
      destruct (StateGenerator.cumulativeOperationDistribution_ gen); subst w; reflexivity.
Qed.

(** X1.  Whatever calls of [addOperation] are made on a generator, and
    whether or not some of them end with an exception, the generator keeps
    one cumulative weight per operation; it has one more operation for each
    call that did not throw. *)
Theorem addOperations_keep_alignment Fadd calls gen :
  aligned gen ->
  aligned (addOperations Fadd calls gen)
  /\ length (StateGenerator.operations_ (addOperations Fadd calls gen))
     = (length (StateGenerator.operations_ gen) + length (accepted calls))%nat.
Proof.
  unfold aligned. intros Hal.
  destruct (addOperations_from Fadd calls gen) as [Ho Hc].
  apply (f_equal (@length _)) in Ho. apply (f_equal (@length _)) in Hc.
  rewrite length_app, !length_map in Ho.
  rewrite length_app in Hc.
  assert (Hr : forall acc ws, length (runningSums Fadd acc ws) = length ws).
  { intros acc ws; revert acc; induction ws as [|w ws IHw]; intros acc; cbn;
      [reflexivity|rewrite IHw; reflexivity]. }
  rewrite Hr, length_map in Hc. split; lia.
Qed.

Lemma addOperations_keep_alignment_witness :
  aligned newGenerator
  /\ aligned (addOperations Qplus
                [mkCall (1 # 1) "swap-phrases" (Parameters.mk (fun _ => None) (fun _ d => Some d));
                 mkCall (1 # 1) "change-phrase-translation"
                   (Parameters.mk (fun _ => None) (fun _ d => Some d))]
                newGenerator).
Proof.
  assert (H : aligned newGenerator) by reflexivity.
  split; [exact H|].
  exact (proj1 (addOperations_keep_alignment Qplus _ H)).
Defined.

(** X2.  A generator configured from scratch holds, in the order of the
    calls, one operator for each call of [addOperation] that did not throw,
    of the type the call named; its cumulative weights are the running sums
    of the weights of those calls, so the bucket at an index belongs to the
    operator at that index. *)
Theorem addOperations_contents Fadd calls :
  map typeKey (StateGenerator.operations_ (addOperations Fadd calls newGenerator))
  = map callType (accepted calls)
  /\ StateGenerator.cumulativeOperationDistribution_ (addOperations Fadd calls newGenerator)
     = runningSums Fadd None (map callWeight (accepted calls)).
Proof.
  apply (addOperations_from Fadd calls newGenerator).
Qed.

(* ------------------------------------------------------------------------- *)
(** ** The operators always return *)

Lemma length_iter_swap A (l : list A) i j : length (iter_swap l i j) = length l.
Proof.
  unfold iter_swap. destruct (nth_error l i), (nth_error l j); try reflexivity.
  rewrite !length_assign. reflexivity.
Qed.

Lemma shuffleFrom_total A todo :
  forall i (l : list A) rnd,
  exists l' rnd', shuffleFrom todo i l rnd = Returns l' rnd' /\ length l' = length l.
Proof.
  induction todo as [|todo IH]; intros i l rnd; cbn [shuffleFrom].
  - exists l, rnd. split; reflexivity.
  - unfold uintGenerator. erewrite bind_eq by (apply drawFromRange_eq; lia).
    match goal with |- context [shuffleFrom todo (S i) ?l0 ?r] =>
      destruct (IH (S i) l0 r) as (l' & rnd' & Hrun & Hlen) end.
    exists l', rnd'. split; [exact Hrun|].
    rewrite Hlen. destruct (i =? _)%nat; [reflexivity|apply length_iter_swap].
Qed.

Lemma random_shuffle_total A (l : list A) rnd :
  exists l' rnd', random_shuffle l rnd = Returns l' rnd' /\ length l' = length l.
Proof.
  unfold random_shuffle. destruct l as [|x tl].
  - exists [], rnd. split; reflexivity.
  - apply shuffleFrom_total.
Qed.

Lemma shuffleUntilChanged_total retries :
  forall orig pg rnd,
    length pg = length orig ->
    exists pg' rnd',
      PermutePhrasesOperation.shuffleUntilChanged retries orig pg rnd
        = Returns (pg', commonPrefix pair_eqb orig pg') rnd'
      /\ length pg' = length orig.
Proof.
  induction retries as [|retries IH]; intros orig pg rnd Hlen;
    cbn [PermutePhrasesOperation.shuffleUntilChanged].
  all: destruct (random_shuffle_total pg rnd) as (pg1 & r1 & Hsh & Hl1).
  all: erewrite bind_eq by exact Hsh.
  all: erewrite bind_eq by (apply mismatch_eq; congruence).
  all: destruct (_ =? _)%nat.
  all: try (exists pg1, r1; split; [reflexivity|congruence]).
  apply IH. congruence.
Qed.

Lemma PermutePhrases_run d doc rnd :
  validDocument doc ->
  exists sno sent r1,
    drawLongSentence 10 doc rnd = Returns (sno, size sent) r1
    /\ nth_error (getPhraseSegmentations doc) (Z.to_nat sno) = Some sent
    /\ validSegmentation sent
    /\ (size sent < 2 ->
        PermutePhrasesOperation.createSearchStep d doc rnd = Returns None r1)
    /\ (2 <= size sent ->
        exists nperm start pg r2,
          1 <= nperm <= size sent /\ 0 <= start <= size sent - nperm
          /\ let os := Z.to_nat start in
             let oe := (os + Z.to_nat nperm)%nat in
             let orig := between sent os oe in
             let p := commonPrefix pair_eqb orig pg in
             let q := commonPrefix pair_eqb (rev orig) (rev pg) in
             PermutePhrasesOperation.shuffleUntilChanged 10 orig orig
               (consume (consume r1)) = Returns (pg, p) r2
             /\ length pg = length orig
             /\ PermutePhrasesOperation.createSearchStep d doc rnd
                = Returns
                    (if (p =? length orig)%nat then None
                     else Some (mkSearchStep (PermutePhrasesOperation d)
                                  [mkModification sno (start + Z.of_nat p)
                                     (start + Z.of_nat (length pg - q))
                                     (os + p) (oe - q) (between pg p (length pg - q))]))
                    r2).
Proof.
  intros Hd.
  destruct (drawLongSentence_total Hd 10 rnd)
    as (sno & sent & r1 & Hpre & Hnth & Hv & _).
  exists sno, sent, r1. splits; try assumption.
  - intros Hlt. unfold PermutePhrasesOperation.createSearchStep.
    erewrite bind_eq by exact Hpre. cbv beta match.
    destruct (Z.ltb_spec (size sent) 2); [reflexivity|lia].
  - intros Hge. destruct (size_valid Hv) as [Hsz Hr].
    assert (Hr' := Hr). rewrite modulus_eq in Hr'.
    unfold PermutePhrasesOperation.createSearchStep.
    erewrite bind_eq by exact Hpre. cbv beta match.
    destruct (Z.ltb_spec (size sent) 2); [lia|].
    unfold sentenceAt. erewrite bind_eq by (apply deref_eq; exact Hnth).
    uint_small. draw.
    replace (size sent - 1 + 1) with (size sent) by lia.
    pose proof (Z.mod_pos_bound (peek r1) (size sent) ltac:(lia)) as Hg.
    set (g := peek r1 mod size sent) in *.
    cbv zeta. uint_small. draw.
    pose proof (Z.mod_pos_bound (peek (consume r1)) (size sent - (g + 1) + 1) ltac:(lia))
      as Hst.
    set (start := peek (consume r1) mod (size sent - (g + 1) + 1)) in *.
    erewrite bind_eq by (apply advance_eq; lia).
    erewrite bind_eq by (apply advance_eq; lia).
    cbn [Nat.add].
    erewrite bind_eq by (apply copyRange_eq; lia).
    destruct (@shuffleUntilChanged_total 10
                (between sent (Z.to_nat start) (Z.to_nat start + Z.to_nat (g + 1)))
                (between sent (Z.to_nat start) (Z.to_nat start + Z.to_nat (g + 1)))
                (consume (consume r1)) eq_refl)
      as (pg & r2 & Hsh & Hlen).
    exists (g + 1), start, pg, r2.
    split; [lia|]. split; [lia|]. cbv zeta.
    set (os := Z.to_nat start) in *. set (oe := (os + Z.to_nat (g + 1))%nat) in *.
    set (orig := between sent os oe) in *.
    assert (Hlo : length orig = Z.to_nat (g + 1)).
    { unfold orig. rewrite length_between by lia. lia. }
    splits; try assumption.
    erewrite bind_eq by exact Hsh. cbv beta match.
    set (p := commonPrefix pair_eqb orig pg).
    destruct (Nat.eqb_spec p (length orig)) as [E|E]; [reflexivity|].
    erewrite bind_eq by (apply mismatch_eq; rewrite !length_rev; congruence).
    set (q := commonPrefix pair_eqb (rev orig) (rev pg)).
    assert (Hp : (p <= length orig)%nat) by apply commonPrefix_le.
    assert (Hpq : (p + q < length orig)%nat)
      by (apply (@same_length_ends_apart orig pg); [congruence|fold p; lia]).
    erewrite bind_eq by (apply copyRange_eq; lia).
    erewrite bind_eq by (apply copyRange_eq; lia).
    unfold ret, addModification, newSearchStep. cbn [getModifications operation app].
    do 4 f_equal. uint_small. f_equal. lia.
Qed.

Lemma adjacent_find_le A (pred : A -> A -> bool) (l : list A) :
  (adjacent_find pred l <= length l)%nat.
Proof.
  induction l as [|x [|y tl] IH]; cbn [adjacent_find length] in *; try lia.
  destruct (pred x y); lia.
Qed.

Lemma LinearisePhrases_run d doc rnd :
  validDocument doc ->
  exists sno sent r1,
    drawLongSentence 10 doc rnd = Returns (sno, size sent) r1
    /\ nth_error (getPhraseSegmentations doc) (Z.to_nat sno) = Some sent
    /\ validSegmentation sent
    /\ (size sent < 2 ->
        LinearisePhrasesOperation.createSearchStep d doc rnd = Returns None r1)
    /\ (2 <= size sent ->
        exists nperm start,
          1 <= nperm <= size sent /\ 0 <= start <= size sent - nperm
          /\ let os0 := Z.to_nat start in
             let oe := (os0 + Z.to_nat nperm)%nat in
             let k := adjacent_find (not2 CompareAnchoredPhrasePairs) (between sent os0 oe) in
             let os := (os0 + k)%nat in
             let orig := between sent os oe in
             let pg := sort CompareAnchoredPhrasePairs orig in
             let q := commonPrefix pair_eqb (rev orig) (rev pg) in
             (os <= oe)%nat
             /\ (os <> oe -> commonPrefix pair_eqb orig pg = 0%nat
                             /\ (q < length pg)%nat /\ length pg = (oe - os)%nat)
             /\ LinearisePhrasesOperation.createSearchStep d doc rnd
                = Returns
                    (if (os =? oe)%nat then None
                     else Some (mkSearchStep (LinearisePhrasesOperation d)
                                  [mkModification sno start
                                     (start + Z.of_nat (length pg - q))
                                     os (oe - q) (between pg 0 (length pg - q))]))
                    (consume (consume r1))).
Proof.
  intros Hd.
  destruct (drawLongSentence_total Hd 10 rnd)
    as (sno & sent & r1 & Hpre & Hnth & Hv & _).
  exists sno, sent, r1. splits; try assumption.
  - intros Hlt. unfold LinearisePhrasesOperation.createSearchStep.
    erewrite bind_eq by exact Hpre. cbv beta match.
    destruct (Z.ltb_spec (size sent) 2); [reflexivity|lia].
  - intros Hge. destruct (size_valid Hv) as [Hsz Hr].
    assert (Hr' := Hr). rewrite modulus_eq in Hr'.
    destruct Hv as (_ & _ & Hpart).
    unfold LinearisePhrasesOperation.createSearchStep.
    erewrite bind_eq by exact Hpre. cbv beta match.
    destruct (Z.ltb_spec (size sent) 2); [lia|].
    unfold sentenceAt. erewrite bind_eq by (apply deref_eq; exact Hnth).
    uint_small. draw.
    replace (size sent - 1 + 1) with (size sent) by lia.
    pose proof (Z.mod_pos_bound (peek r1) (size sent) ltac:(lia)) as Hg.
    set (g := peek r1 mod size sent) in *.
    cbv zeta. uint_small. draw.
    pose proof (Z.mod_pos_bound (peek (consume r1)) (size sent - (g + 1) + 1) ltac:(lia))
      as Hst.
    set (start := peek (consume r1) mod (size sent - (g + 1) + 1)) in *.
    erewrite bind_eq by (apply advance_eq; lia).
    erewrite bind_eq by (apply advance_eq; lia).
    cbn [Nat.add].
    erewrite bind_eq by (apply copyRange_eq; lia).
    exists (g + 1), start.
    split; [lia|]. split; [lia|]. cbv zeta.
    set (os0 := Z.to_nat start) in *. set (oe := (os0 + Z.to_nat (g + 1))%nat) in *.
    set (k := adjacent_find (not2 CompareAnchoredPhrasePairs) (between sent os0 oe)) in *.
    assert (Hk : (k <= oe - os0)%nat).
    { unfold k. etransitivity; [apply adjacent_find_le|].
      rewrite length_between by lia. lia. }
    set (os := (os0 + k)%nat) in *.
    set (orig := between sent os oe) in *.
    set (pg := sort CompareAnchoredPhrasePairs orig) in *.
    set (q := commonPrefix pair_eqb (rev orig) (rev pg)) in *.
    assert (Hhead : os <> oe -> commonPrefix pair_eqb orig pg = 0%nat
                                /\ (q < length pg)%nat /\ length pg = (oe - os)%nat).
    { intros Hne.
      destruct (@LinearisePhrases_head sent os0 oe Hpart ltac:(lia) Hne)
        as (x & h & _ & _ & _ & _ & _ & Hp0 & Hq & Hlen).
      splits; assumption. }
    split; [lia|]. split; [exact Hhead|].
    destruct (Nat.eqb_spec os oe) as [E|E]; [reflexivity|].
    destruct (Hhead E) as (Hp0 & Hq & Hlen).
    assert (Hlo : length orig = (oe - os)%nat)
      by (unfold orig; apply length_between; lia).
    erewrite bind_eq by (apply copyRange_eq; lia).
    fold orig. fold pg.
    erewrite bind_eq by (apply mismatch_eq; congruence).
    erewrite bind_eq by (apply mismatch_eq; rewrite !length_rev; congruence).
    fold q. rewrite Hp0.
    erewrite bind_eq by (apply copyRange_eq; lia).
    erewrite bind_eq by (apply copyRange_eq; lia).
    unfold ret, addModification, newSearchStep. cbn [getModifications operation app].
    rewrite Nat.add_0_r.
    do 4 f_equal. uint_small. f_equal; lia.
Qed.

Lemma trimmed_ends_apart_in_proposal (orig newseg : PhraseSegmentation) :
  NoDup orig ->
  let p := commonPrefix pair_eqb orig newseg in
  let q := commonPrefix pair_eqb (rev orig) (rev newseg) in
  (p < length orig)%nat -> (p + q <= length newseg)%nat.
Proof.
  intros Hnd p q Hp.
  destruct (commonPrefix_le pair_eqb orig newseg) as [_ Hp2]. fold p in Hp2.
  destruct (commonPrefix_le pair_eqb (rev orig) (rev newseg)) as [Hq1 Hq2].
  fold q in Hq1, Hq2. rewrite length_rev in Hq1, Hq2.
  destruct (Nat.le_gt_cases (p + q) (length newseg)) as [|Hover]; [assumption|exfalso].
  set (i := (length newseg - q)%nat).
  assert (Hi : (i < p)%nat) by (unfold i; lia).
  pose proof (@commonPrefix_nth orig newseg i Hi) as Hpre.
  pose proof (@commonSuffix_nth orig newseg 0) as Hsuf.
  cbv zeta in Hsuf. fold q in Hsuf. rewrite !Nat.add_0_r in Hsuf. fold i in Hsuf.
  destruct (@nth_error_in_range _ newseg i ltac:(lia)) as [x Hx].
  rewrite Hx in Hpre, Hsuf.
  pose proof (NoDup_positions _ _ Hnd Hpre Hsuf) as E.
  assert (Hlen : length orig = length newseg) by (unfold i in E; lia).
  pose proof (@same_length_ends_apart orig newseg Hlen Hp) as Hap.
  cbv zeta in Hap. fold p in Hap. fold q in Hap. lia.
Qed.

Lemma land_lor_split a b c :
  N.land a (N.lor b c) = 0%N <-> N.land a b = 0%N /\ N.land a c = 0%N.
Proof.
  rewrite N.land_lor_distr_r. apply N.lor_eq_0_iff.
Qed.

Lemma coverage_Permutation (l l' : PhraseSegmentation) :
  Permutation l l' -> coverage l = coverage l'.
Proof.
  induction 1 as [|x l l' _ IH|x y l|l l' l'' _ IH1 _ IH2].
  - reflexivity.
  - rewrite !coverage_cons, IH. reflexivity.
  - rewrite !coverage_cons, !N.lor_assoc, (N.lor_comm (fst y)). reflexivity.
  - congruence.
Qed.

Lemma partitionsSource_Permutation (l l' : PhraseSegmentation) :
  Permutation l l' -> partitionsSource l = true -> partitionsSource l' = true.
Proof.
  induction 1 as [|x l l' Hperm IH|x y l|l l' l'' _ IH1 _ IH2].
  - auto.
  - rewrite !partitionsSource_cons. intros (Hx & Hd & Hp).
    rewrite <- (coverage_Permutation Hperm). auto.
  - rewrite !partitionsSource_cons, !coverage_cons, !land_lor_split.
    intros (Hy & (Hyx & Hyl) & Hx & Hxl & Hp).
    rewrite N.land_comm in Hyx. tauto.
  - auto.
Qed.

(** A partition that starts with all the pairs of another and covers no more
    is the other one. *)
Lemma same_coverage_prefix (l1 l2 : PhraseSegmentation) :
  partitionsSource l2 = true -> coverage l1 = coverage l2 ->
  commonPrefix pair_eqb l1 l2 = length l1 -> l1 = l2.
Proof.
  intros Hpart Hcov Hp.
  pose proof (commonPrefix_firstn_eq l1 l2) as E. rewrite Hp, firstn_all in E.
  rewrite <- (firstn_skipn (length l1) l2) in Hpart, Hcov |- *.
  rewrite <- E in Hpart, Hcov |- *.
  destruct (partitionsSource_app _ _ Hpart) as (_ & Hrest & Hdisj).
  rewrite coverage_app in Hcov.
  assert (Hzero : coverage (skipn (length l1) l2) = 0%N).
  { symmetry. apply (@lor_cancel (coverage l1)).
    - apply N.land_0_r.
    - assumption.
    - rewrite N.lor_0_r. assumption. }
  destruct (skipn (length l1) l2) as [|y rest] eqn:Es.
  - rewrite app_nil_r. reflexivity.
  - exfalso. apply (partitionsSource_covers Hrest); [discriminate|assumption].
Qed.

Lemma commonPrefix_sym (l1 l2 : PhraseSegmentation) :
  commonPrefix pair_eqb l1 l2 = commonPrefix pair_eqb l2 l1.
Proof.
  revert l2; induction l1 as [|x l1 IH]; intros [|y l2]; cbn; try reflexivity.
  destruct (pair_eqb_spec x y), (pair_eqb_spec y x); congruence.
Qed.

Lemma mismatch_within A (eqb : A -> A -> bool) l1 l2 rnd :
  (commonPrefix eqb l1 l2 = length l2 -> commonPrefix eqb l1 l2 = length l1) ->
  mismatch eqb l1 l2 rnd = Returns (commonPrefix eqb l1 l2) rnd.
Proof.
  intros H. unfold mismatch.
  destruct (Nat.eqb_spec (commonPrefix eqb l1 l2) (length l2)) as [E|E]; [|reflexivity].
  destruct (Nat.ltb_spec (commonPrefix eqb l1 l2) (length l1)) as [L|L]; [|reflexivity].
  specialize (H E). lia.
Qed.

Lemma Resegment_run d doc rnd :
  validDocument doc ->
  Forall coversExactly (getPhraseTranslations doc) ->
  exists sno sent pcoll nperm start newseg r',
    drawSentence doc rnd = Returns sno (consume rnd)
    /\ nth_error (getPhraseSegmentations doc) (Z.to_nat sno) = Some sent
    /\ validSegmentation sent
    /\ nth_error (getPhraseTranslations doc) (Z.to_nat sno) = Some pcoll
    /\ 1 <= nperm <= size sent /\ 0 <= start <= size sent - nperm
    /\ let os := Z.to_nat start in
       let oe := (os + Z.to_nat nperm)%nat in
       let orig := between sent os oe in
       let p := commonPrefix pair_eqb orig newseg in
       let q := commonPrefix pair_eqb (rev orig) (rev newseg) in
       proposeSegmentation pcoll (coverage orig) (consume (consume (consume rnd)))
       = (newseg, r')
       /\ (p = length orig <-> newseg = orig)
       /\ (p <> length orig -> (p + q <= length newseg)%nat /\ (p + q <= length orig)%nat)
       /\ ResegmentOperation.createSearchStep d doc rnd
          = Returns
              (if (p =? length orig)%nat then None
               else Some (mkSearchStep (ResegmentOperation d)
                            [mkModification sno (start + Z.of_nat p)
                               (start + Z.of_nat p +u Z.of_nat (length newseg - q - p))
                               (os + p) (oe - q) (between newseg p (length newseg - q))]))
              r'.
Proof.
  intros Hd Hcontract.
  pose proof (drawSentence_eq rnd Hd) as Hdraw.
  destruct (validDocument_count Hd) as [_ Hpos].
  pose proof (Z.mod_pos_bound (peek rnd) _ Hpos) as Hsno.
  set (sno := peek rnd mod Z.of_nat (length (getPhraseSegmentations doc))) in *.
  destruct (sentence_in_document Hd Hsno) as (sent & Hnth & Hv).
  destruct (collection_in_document Hd Hsno) as (pcoll & Hcoll).
  destruct (size_valid Hv) as [Hsz Hr].
  assert (Hr' := Hr). rewrite modulus_eq in Hr'.
  assert (Hpart : partitionsSource sent = true) by apply Hv.
  unfold ResegmentOperation.createSearchStep.
  erewrite bind_eq by exact Hdraw. cbv beta.
  unfold sentenceAt, collectionAt.
  erewrite bind_eq by (apply deref_eq; exact Hnth).
  erewrite bind_eq by (apply deref_eq; exact Hcoll).
  cbv zeta. uint_small. draw.
  replace (size sent - 1 + 1) with (size sent) by lia.
  pose proof (Z.mod_pos_bound (peek (consume rnd)) (size sent) ltac:(lia)) as Hg.
  set (g := peek (consume rnd) mod size sent) in *.
  uint_small. draw.
  pose proof (Z.mod_pos_bound (peek (consume (consume rnd))) (size sent - (g + 1) + 1)
                ltac:(lia)) as Hst.
  set (start := peek (consume (consume rnd)) mod (size sent - (g + 1) + 1)) in *.
  erewrite bind_eq by (apply advance_eq; lia).
  uint_small.
  replace (start + (g + 1) - start) with (g + 1) by lia.
  erewrite bind_eq by (apply advance_eq; lia).
  cbn [Nat.add].
  erewrite bind_eq by (apply copyRange_eq; lia).
  erewrite bind_eq by apply call_eq.
  set (os := Z.to_nat start) in *. set (oe := (os + Z.to_nat (g + 1))%nat) in *.
  set (orig := between sent os oe) in *.
  destruct (proposeSegmentation pcoll (coverage orig) (consume (consume (consume rnd))))
    as [newseg r'] eqn:Hprop.
  cbn [fst snd].
  rewrite Forall_forall in Hcontract.
  destruct (Hcontract pcoll (nth_error_In _ _ Hcoll) (coverage orig)
              (consume (consume (consume rnd)))) as [Hvn Hcov].
  rewrite Hprop in Hvn, Hcov. cbn [fst] in Hvn, Hcov.
  assert (Hpo : partitionsSource orig = true) by (apply partitionsSource_between; exact Hpart).
  set (p := commonPrefix pair_eqb orig newseg).
  set (q := commonPrefix pair_eqb (rev orig) (rev newseg)).
  assert (Hiff : p = length orig <-> newseg = orig).
  { split.
    - intros E. symmetry. apply same_coverage_prefix; [assumption|congruence|exact E].
    - intros ->. apply commonPrefix_refl. }
  assert (Hfront : p = length newseg -> p = length orig).
  { intros E. unfold p in E. rewrite commonPrefix_sym in E.
    pose proof (@same_coverage_prefix newseg orig Hpo Hcov E) as En.
    unfold p. rewrite En. apply commonPrefix_refl. }
  assert (Hback : q = length (rev newseg) -> q = length (rev orig)).
  { intros E. unfold q in E. rewrite commonPrefix_sym in E.
    assert (Erev : rev newseg = rev orig).
    { apply same_coverage_prefix.
      - apply (partitionsSource_Permutation (Permutation_rev orig)). exact Hpo.
      - rewrite <- (coverage_Permutation (Permutation_rev newseg)),
                 <- (coverage_Permutation (Permutation_rev orig)). exact Hcov.
      - exact E. }
    unfold q. rewrite Erev. apply commonPrefix_refl. }
  assert (Hp : (p <= length orig)%nat) by apply commonPrefix_le.
  assert (Hends : p <> length orig ->
                  (p + q <= length newseg)%nat /\ (p + q <= length orig)%nat).
  { intros Hne.
    assert (H1 : (p + q <= length newseg)%nat).
    { apply (@trimmed_ends_apart_in_proposal orig newseg);
        [apply partitionsSource_NoDup; exact Hpo|fold p; lia]. }
    split; [exact H1|].
    apply (@trimmed_ends_apart orig newseg);
      [apply partitionsSource_NoDup; exact Hvn|fold p; lia|fold p; fold q; lia]. }
  exists sno, sent, pcoll, (g + 1), start, newseg, r'.
  splits; try assumption; try lia.
  change (between sent (Z.to_nat start) (Z.to_nat start + Z.to_nat (g + 1))) with orig.
  change (commonPrefix pair_eqb orig newseg) with p.
  change (commonPrefix pair_eqb (rev orig) (rev newseg)) with q.
  erewrite bind_eq by (apply mismatch_within; exact Hfront).
  fold p. destruct (Nat.eqb_spec p (length orig)) as [E|E]; [reflexivity|].
  erewrite bind_eq by (apply mismatch_within; exact Hback).
  fold q. destruct (Hends E) as [H1 H2].
  assert (Hlo : length orig = Z.to_nat (g + 1)).
  { unfold orig. rewrite length_between by lia. lia. }
  erewrite bind_eq by (apply copyRange_eq; lia).
  unfold ret, addModification, newSearchStep. cbn [getModifications operation app].
  rewrite length_between by lia.
  rewrite (add_small start (Z.of_nat p)) by (rewrite modulus_eq; lia).
  reflexivity.
Qed.

Lemma operation_returns op doc rnd :
  validDocument doc ->
  match op with
  | ResegmentOperation _ => Forall coversExactly (getPhraseTranslations doc)
  | _ => True
  end ->
  exists result rnd',
    StateOperation_createSearchStep op doc rnd = Returns result rnd'
    /\ forall step, result = Some step ->
                    operation step = op /\ getModifications step <> [].
Proof.
  intros Hd Hc. destruct op as [|d|d|d|b r rd ld|d]; cbn [StateOperation_createSearchStep].
  - destruct (ChangePhraseTranslation_run rnd Hd)
      as (sno & sent & pcoll & ph & old & pp & r' & _ & _ & _ & _ & _ & _ & _ & _ & Hrun).
    rewrite Hrun. eexists; eexists; split; [reflexivity|].
    intros step. destruct (pair_eqb old pp); [discriminate|].
    intros E; inversion E; subst. split; [reflexivity|discriminate].
  - destruct (PermutePhrases_run d rnd Hd)
      as (sno & sent & r1 & _ & _ & Hv & Hshort & Hlong).
    destruct (Z.lt_ge_cases (size sent) 2) as [Hlt|Hge].
    + rewrite (Hshort Hlt). eexists; eexists; split; [reflexivity|discriminate].
    + destruct (Hlong Hge) as (nperm & start & pg & r2 & _ & _ & Hrest).
      cbv zeta in Hrest. destruct Hrest as (_ & _ & Hrun). rewrite Hrun.
      eexists; eexists; split; [reflexivity|].
      intros step. destruct (_ =? _)%nat; [discriminate|].
      intros E; inversion E; subst. split; [reflexivity|discriminate].
  - destruct (LinearisePhrases_run d rnd Hd)
      as (sno & sent & r1 & _ & _ & Hv & Hshort & Hlong).
    destruct (Z.lt_ge_cases (size sent) 2) as [Hlt|Hge].
    + rewrite (Hshort Hlt). eexists; eexists; split; [reflexivity|discriminate].
    + destruct (Hlong Hge) as (nperm & start & _ & _ & Hrest).
      cbv zeta in Hrest. destruct Hrest as (_ & _ & Hrun). rewrite Hrun.
      eexists; eexists; split; [reflexivity|].
      intros step. destruct (_ =? _)%nat; [discriminate|].
      intros E; inversion E; subst. split; [reflexivity|discriminate].
  - destruct (SwapPhrases_run d rnd Hd)
      as (sno & sent & r1 & _ & _ & Hv & Hshort & Hlong).
    destruct (Z.lt_ge_cases (size sent) 2) as [Hlt|Hge].
    + rewrite (Hshort Hlt). eexists; eexists; split; [reflexivity|discriminate].
    + destruct (Hlong Hge)
        as (p1 & dir & p2 & r2 & x1 & x2 & _ & _ & _ & _ & _ & _ & _ & _ & _ & _ & Hrun).
      rewrite Hrun. eexists; eexists; split; [reflexivity|].
      intros step E; inversion E; subst. split; [reflexivity|discriminate].
  - destruct (MovePhrases_run b r rd ld rnd Hd)
      as (sno & sent & r1 & _ & _ & Hv & Hshort & Hlong).
    destruct (Z.lt_ge_cases (size sent) 2) as [Hlt|Hge].
    + rewrite (Hshort Hlt). eexists; eexists; split; [reflexivity|discriminate].
    + destruct (Hlong Hge)
        as (dir & start & block & dest & r2 & _ & _ & _ & _ & _ & Hrun).
      rewrite Hrun. eexists; eexists; split; [reflexivity|].
      intros step E; inversion E; subst. split; [reflexivity|discriminate].
  - destruct (Resegment_run d rnd Hd Hc)
      as (sno & sent & pcoll & nperm & start & newseg & r' & _ & _ & _ & _ & _ & _ & Hrest).
    cbv zeta in Hrest. destruct Hrest as (_ & _ & _ & Hrun). rewrite Hrun.
    eexists; eexists; split; [reflexivity|].
    intros step. destruct (_ =? _)%nat; [discriminate|].
    intros E; inversion E; subst. split; [reflexivity|discriminate].
Qed.

(** X4.  On a valid document no operator runs into undefined behaviour or
    into a failed assertion, whatever the random source draws (for Resegment:
    when the collections keep the contract of [proposeSegmentation]): each
    call returns, with no proposal or with a step that names the operator
    and has at least one modification.  The branch of the dispatcher that
    deletes a step without modifications is never taken. *)
Theorem operators_always_return op doc rnd :
  validDocument doc ->
  match op with
  | ResegmentOperation _ => Forall coversExactly (getPhraseTranslations doc)
  | _ => True
  end ->
  (forall f, StateOperation_createSearchStep op doc rnd <> Aborts f)
  /\ exists result rnd',
      StateOperation_createSearchStep op doc rnd = Returns result rnd'
      /\ forall step, result = Some step ->
                      operation step = op /\ getModifications step <> [].
Proof.
  intros Hd Hc. destruct (operation_returns op rnd Hd Hc) as (result & rnd' & Hrun & Hstep).
  split.
  - intros f E. rewrite Hrun in E. discriminate.
  - exists result, rnd'. split; assumption.
Qed.

Lemma operators_always_return_witness :
  validDocument docABC
  /\ exists result rnd',
      StateOperation_createSearchStep (PermutePhrasesOperation (1 # 2)) docABC
        (tape [0; 1; 0; 0]) = Returns result rnd'.
Proof.
  assert (Hd : validDocument docABC) by valid_document.
  split; [exact Hd|].
  destruct (@operators_always_return (PermutePhrasesOperation (1 # 2)) docABC
              (tape [0; 1; 0; 0]) Hd I) as (_ & result & rnd' & Hrun & _).
  exists result, rnd'. exact Hrun.
Defined.

(* ------------------------------------------------------------------------- *)
(** ** The rounds of the dispatcher *)

Lemma dispatcher_draws_operation gen rnd :
  configured gen ->
  exists next_op op,
    drawFromCumulativeDistribution (StateGenerator.cumulativeOperationDistribution_ gen) rnd
    = Returns next_op (consume rnd)
    /\ nth_error (StateGenerator.operations_ gen) (Z.to_nat next_op) = Some op.
Proof.
  intros (Hal & Hne & Hlt). unfold aligned in Hal.
  unfold drawFromCumulativeDistribution. rewrite Hal.
  rewrite wrap_small by lia.
  pose proof (Z.mod_pos_bound (peek rnd) (Z.of_nat (length (StateGenerator.operations_ gen)))
                ltac:(lia)) as Hr.
  destruct (@nth_error_in_range _ (StateGenerator.operations_ gen)
              (Z.to_nat (peek rnd mod Z.of_nat (length (StateGenerator.operations_ gen))))
              ltac:(lia)) as [op Hop].
  eexists; exists op. split; [apply drawFromRange_eq; lia|exact Hop].
Qed.

Lemma dispatcher_round fuel gen doc rnd next_op op result r :
  drawFromCumulativeDistribution (StateGenerator.cumulativeOperationDistribution_ gen) rnd
  = Returns next_op (consume rnd) ->
  nth_error (StateGenerator.operations_ gen) (Z.to_nat next_op) = Some op ->
  StateOperation_createSearchStep op doc (consume rnd) = Returns result r ->
  StateGenerator.createSearchStep (S fuel) gen doc rnd
  = match result with
    | None => StateGenerator.createSearchStep fuel gen doc r
    | Some step =>
        match getModifications step with
        | [] => StateGenerator.createSearchStep fuel gen doc r
        | _ :: _ => Returns step r
        end
    end.
Proof.
  intros Hdraw Hop Hrun. cbn [StateGenerator.createSearchStep].
  erewrite bind_eq by exact Hdraw.
  erewrite bind_eq by (apply deref_eq; exact Hop).
  erewrite bind_eq by exact Hrun.
  destruct result as [step|]; [|reflexivity].
  destruct (getModifications step); reflexivity.
Qed.

(** X5.  With a configured generator (one cumulative weight per operation, at
    least one operation), a valid document and collections that keep the
    contract of [proposeSegmentation], the dispatcher never indexes outside
    its operations and never meets undefined behaviour or a failed
    assertion: the only way not to return a step is to go on drawing for
    ever. *)
Theorem dispatcher_fails_only_by_running_on gen doc :
  configured gen ->
  validDocument doc ->
  Forall coversExactly (getPhraseTranslations doc) ->
  forall fuel rnd f,
    StateGenerator.createSearchStep fuel gen doc rnd = Aborts f -> f = OutOfFuel.
Proof.
  intros Hg Hd Hc. induction fuel as [|fuel IH]; intros rnd f H.
  - inversion H; reflexivity.
  - destruct (dispatcher_draws_operation rnd Hg) as (next_op & op & Hdraw & Hop).
    assert (Hc' : match op with
                  | ResegmentOperation _ => Forall coversExactly (getPhraseTranslations doc)
                  | _ => True
                  end) by (destruct op; auto).
    destruct (operation_returns op (consume rnd) Hd Hc') as (result & r & Hrun & _).
    rewrite (dispatcher_round fuel gen doc Hdraw Hop Hrun) in H.
    destruct result as [step|]; [|eapply IH; exact H].
    destruct (getModifications step); [eapply IH; exact H|discriminate].
Qed.

Lemma dispatcher_fails_only_by_running_on_witness :
  configured (addOperations Qplus
                [mkCall (1 # 1) "change-phrase-translation"
                   (Parameters.mk (fun _ => None) (fun _ d => Some d))]
                newGenerator)
  /\ validDocument docABC
  /\ Forall coversExactly (getPhraseTranslations docABC)
  /\ StateGenerator.createSearchStep 3
       (addOperations Qplus
          [mkCall (1 # 1) "change-phrase-translation"
             (Parameters.mk (fun _ => None) (fun _ d => Some d))]
          newGenerator)
       docABC (tape []) = Aborts OutOfFuel.
Proof.
  assert (Hg : configured (addOperations Qplus
                             [mkCall (1 # 1) "change-phrase-translation"
                                (Parameters.mk (fun _ => None) (fun _ d => Some d))]
                             newGenerator)).
  { unfold configured, aligned.
    splits; [reflexivity|cbn; lia|rewrite modulus_eq; cbn; lia]. }
  assert (Hd : validDocument docABC) by valid_document.
  assert (Hc : Forall coversExactly (getPhraseTranslations docABC))
    by apply document_contract.
  splits; try assumption.
  destruct (StateGenerator.createSearchStep 3
              (addOperations Qplus
                 [mkCall (1 # 1) "change-phrase-translation"
                    (Parameters.mk (fun _ => None) (fun _ d => Some d))]
                 newGenerator)
              docABC (tape [])) as [step r|f] eqn:E.
  - discriminate E.
  - f_equal. exact (dispatcher_fails_only_by_running_on Hg Hd Hc 3 (tape []) E).
Defined.

(** X6.  On a valid document in which no sentence has two phrases, a
    configured generator whose operations are all among PermutePhrases,
    LinearisePhrases, SwapPhrases and MovePhrases never returns a step:
    every round ends with no proposal and the loop goes on, however many
    rounds it is given. *)
Theorem dispatcher_never_returns_on_short_sentences gen doc :
  configured gen ->
  validDocument doc ->
  Forall (fun sent => (length sent < 2)%nat) (getPhraseSegmentations doc) ->
  forallb needsTwoPhrases (StateGenerator.operations_ gen) = true ->
  forall fuel rnd,
    StateGenerator.createSearchStep fuel gen doc rnd = Aborts OutOfFuel.
Proof.
  intros Hg Hd Hshort Hops. induction fuel as [|fuel IH]; intros rnd; [reflexivity|].
  destruct (dispatcher_draws_operation rnd Hg) as (next_op & op & Hdraw & Hop).
  destruct (drawLongSentence_total Hd 10 (consume rnd))
    as (sno & sent & r1 & Hpre & Hnth & Hv & _).
  assert (Hlt : size sent < 2).
  { destruct (size_valid Hv) as [-> _].
    rewrite Forall_forall in Hshort.
    specialize (Hshort sent (nth_error_In _ _ Hnth)). lia. }
  assert (Hrun : StateOperation_createSearchStep op doc (consume rnd) = Returns None r1).
  { rewrite forallb_forall in Hops. specialize (Hops op (nth_error_In _ _ Hop)).
    destruct op as [|d|d|d|b r rd ld|d]; try discriminate;
      cbn [StateOperation_createSearchStep].
    - apply (@short_sentence_no_proposal doc (consume rnd) sno (size sent) r1
               d d d d d Hpre Hlt).
    - apply (@short_sentence_no_proposal doc (consume rnd) sno (size sent) r1
               d d d d d Hpre Hlt).
    - apply (@short_sentence_no_proposal doc (consume rnd) sno (size sent) r1
               d d d d d Hpre Hlt).
    - apply (@short_sentence_no_proposal doc (consume rnd) sno (size sent) r1
               b b r rd ld Hpre Hlt). }
  rewrite (dispatcher_round fuel gen doc Hdraw Hop Hrun). apply IH.
Qed.

Lemma dispatcher_never_returns_on_short_sentences_witness :
  StateGenerator.createSearchStep 4
    (StateGenerator.mk [SwapPhrasesOperation (1 # 2)] [1 # 1]) docA (tape [])
  = Aborts OutOfFuel.
Proof.
  apply dispatcher_never_returns_on_short_sentences.
  - unfold configured, aligned.
    splits; [reflexivity|cbn; lia|rewrite modulus_eq; cbn; lia].
  - valid_document.
  - repeat constructor.
  - reflexivity.
Defined.

(** X7.  A step the dispatcher returns names one of the operations of the
    generator, and it is the step that operation proposed for the document in
    the last round. *)
Theorem dispatcher_step_names_its_operator fuel gen doc rnd step rnd' :
  validDocument doc ->
  Forall coversExactly (getPhraseTranslations doc) ->
  StateGenerator.createSearchStep fuel gen doc rnd = Returns step rnd' ->
  In (operation step) (StateGenerator.operations_ gen)
  /\ exists r, StateOperation_createSearchStep (operation step) doc r
               = Returns (Some step) rnd'.
Proof.
  intros Hd Hc Hrun.
  destruct (dispatcher_returns _ _ _ _ Hrun) as (_ & op & r & Hin & Hop).
  assert (Hc' : match op with
                | ResegmentOperation _ => Forall coversExactly (getPhraseTranslations doc)
                | _ => True
                end) by (destruct op; auto).
  destruct (operation_returns op r Hd Hc') as (result & r' & Hrun' & Hstep).
  rewrite Hop in Hrun'. inversion Hrun'; subst result r'.
  destruct (Hstep step eq_refl) as [Hname _]. rewrite Hname.
  split; [exact Hin|exists r; exact Hop].
Qed.

Lemma dispatcher_step_names_its_operator_witness :
  In (operation (swapStep (1 # 2) 0 0 2 phraseA phraseC))
     [ChangePhraseTranslationOperation; SwapPhrasesOperation (1 # 2)].
Proof.
  assert (Hd : validDocument docABC) by valid_document.
  assert (Hc : Forall coversExactly (getPhraseTranslations docABC))
    by apply document_contract.
  assert (Hrun : StateGenerator.createSearchStep 5
                   (StateGenerator.mk
                      [ChangePhraseTranslationOperation; SwapPhrasesOperation (1 # 2)]
                      [1 # 2; 1 # 1])
                   docABC (tape [0; 0; 1; 1; 0; 0; 1])
                 = Returns (swapStep (1 # 2) 0 0 2 phraseA phraseC)
                     (mkRandom (source (tape [0; 0; 1; 1; 0; 0; 1])) 7))
    by reflexivity.
  exact (proj1 (dispatcher_step_names_its_operator _ _ _ Hd Hc Hrun)).
Defined.

(* ------------------------------------------------------------------------- *)
(** ** Trimmed and untrimmed replacement *)

Lemma trimmed_replacement_full (sent : PhraseSegmentation) os oe full :
  (os <= oe <= length sent)%nat ->
  let orig := between sent os oe in
  let p := commonPrefix pair_eqb orig full in
  let q := commonPrefix pair_eqb (rev orig) (rev full) in
  (p + q <= length orig)%nat -> (p <= length full - q)%nat ->
  firstn (os + p) sent ++ between full p (length full - q) ++ skipn (oe - q) sent
  = firstn os sent ++ full ++ skipn oe sent.
Proof.
  intros Hr orig p q Hpq Hpf.
  assert (Hlen : length orig = (oe - os)%nat) by (apply length_between; assumption).
  pose proof (@trimmed_split _ full p q Hpf) as Ef.
  pose proof (commonPrefix_firstn_eq orig full) as Epre. fold p in Epre.
  pose proof (commonSuffix_skipn_eq orig full) as Esuf. cbv zeta in Esuf. fold q in Esuf.
  destruct (@between_split _ sent os oe Hr) as (Es & _ & _).
  fold orig in Es.
  assert (E1 : firstn (os + p) sent = firstn os sent ++ firstn p orig).
  { unfold orig, between. rewrite firstn_firstn.
    replace (Nat.min p (oe - os)) with p by lia.
    rewrite <- (firstn_skipn os (firstn (os + p) sent)).
    rewrite firstn_firstn. replace (Nat.min os (os + p)) with os by lia.
    f_equal. rewrite skipn_firstn_comm. f_equal. lia. }
  assert (E2 : skipn (oe - q) sent = skipn (length orig - q) orig ++ skipn oe sent).
  { rewrite Es at 1. rewrite skipn_app.
    rewrite skipn_all2 by (rewrite length_firstn; lia). cbn [app].
    rewrite length_firstn. rewrite skipn_app.
    replace (oe - q - Nat.min os (length sent))%nat with (length orig - q)%nat by lia.
    f_equal. rewrite Hlen.
    replace (oe - os - q - (oe - os))%nat with 0%nat by lia. reflexivity. }
  rewrite E1, E2, Epre, Esuf.
  transitivity (firstn os sent
                ++ (firstn p full ++ between full p (length full - q)
                      ++ skipn (length full - q) full)
                ++ skipn oe sent).
  - rewrite <- !app_assoc. reflexivity.
  - rewrite <- Ef. reflexivity.
Qed.

Lemma trimmed_middle_Permutation (orig full : PhraseSegmentation) :
  Permutation orig full ->
  let p := commonPrefix pair_eqb orig full in
  let q := commonPrefix pair_eqb (rev orig) (rev full) in
  (p + q <= length orig)%nat ->
  Permutation (between orig p (length orig - q)) (between full p (length full - q)).
Proof.
  intros Hperm p q Hpq.
  pose proof (Permutation_length Hperm) as Hlen.
  pose proof (@trimmed_split _ orig p q ltac:(lia)) as Eo.
  pose proof (@trimmed_split _ full p q ltac:(lia)) as Ef.
  pose proof (commonPrefix_firstn_eq orig full) as Epre. fold p in Epre.
  pose proof (commonSuffix_skipn_eq orig full) as Esuf. cbv zeta in Esuf. fold q in Esuf.
  assert (Hperm' : Permutation
                     (firstn p orig ++ between orig p (length orig - q)
                        ++ skipn (length orig - q) orig)
                     (firstn p full ++ between full p (length full - q)
                        ++ skipn (length full - q) full))
    by (rewrite <- Eo, <- Ef; exact Hperm).
  rewrite Epre, Esuf in Hperm'.
  apply Permutation_app_inv_l in Hperm'. apply Permutation_app_inv_r in Hperm'.
  exact Hperm'.
Qed.

Lemma rearranged_slices_have_two (old new : PhraseSegmentation) :
  Permutation old new -> old <> [] ->
  commonPrefix pair_eqb old new = 0%nat -> (2 <= length old)%nat.
Proof.
  intros Hperm Hne Hcp.
  destruct old as [|x [|y old]]; [congruence| |cbn; lia].
  apply Permutation_length_1_inv in Hperm. subst new.
  cbn in Hcp. destruct (pair_eqb_spec x x); [discriminate|congruence].
Qed.

(* ------------------------------------------------------------------------- *)
(** ** Sorting by anchor *)

Lemma compare_anchors (a b : AnchoredPhrasePair) :
  CompareAnchoredPhrasePairs a b = true
  <-> (find_first (fst a) < find_first (fst b))%N.
Proof. unfold CompareAnchoredPhrasePairs. apply N.ltb_lt. Qed.

Lemma sortedBy_cons (x : AnchoredPhrasePair) l :
  sortedBy CompareAnchoredPhrasePairs (x :: l) = true
  <-> (forall y, In y l -> (find_first (fst x) <= find_first (fst y))%N)
      /\ sortedBy CompareAnchoredPhrasePairs l = true.
Proof.
  cbn [sortedBy]. rewrite andb_true_iff, forallb_forall.
  split; intros [H1 H2]; (split; [|exact H2]); intros y Hy; specialize (H1 y Hy).
  - apply negb_true_iff in H1. unfold CompareAnchoredPhrasePairs in H1.
    apply N.ltb_ge in H1. exact H1.
  - apply negb_true_iff. unfold CompareAnchoredPhrasePairs. apply N.ltb_ge. exact H1.
Qed.

Lemma insertSorted_sorted x l :
  sortedBy CompareAnchoredPhrasePairs l = true ->
  sortedBy CompareAnchoredPhrasePairs (insertSorted CompareAnchoredPhrasePairs x l) = true.
Proof.
  induction l as [|y l IH]; intros Hs.
  - reflexivity.
  - cbn [insertSorted]. apply sortedBy_cons in Hs. destruct Hs as [Hy Hl].
    destruct (CompareAnchoredPhrasePairs y x) eqn:E.
    + apply compare_anchors in E. apply sortedBy_cons. split; [|apply IH; exact Hl].
      intros z Hz.
      apply (Permutation_in _ (Permutation_sym (insertSorted_Permutation
                                                  CompareAnchoredPhrasePairs x l))) in Hz.
      destruct Hz as [<-|Hz]; [lia|apply Hy; exact Hz].
    + unfold CompareAnchoredPhrasePairs in E. apply N.ltb_ge in E.
      apply sortedBy_cons. split.
      * intros z [<-|Hz]; [exact E|]. specialize (Hy z Hz). lia.
      * apply sortedBy_cons. split; assumption.
Qed.

Lemma sort_sorted l :
  sortedBy CompareAnchoredPhrasePairs (sort CompareAnchoredPhrasePairs l) = true.
Proof.
  induction l as [|x l IH]; [reflexivity|]. cbn [sort]. apply insertSorted_sorted, IH.
Qed.

Lemma sortedBy_app (l1 l2 : PhraseSegmentation) :
  sortedBy CompareAnchoredPhrasePairs (l1 ++ l2) = true ->
  sortedBy CompareAnchoredPhrasePairs l1 = true
  /\ sortedBy CompareAnchoredPhrasePairs l2 = true.
Proof.
  induction l1 as [|x l1 IH]; cbn [app]; intros H.
  - split; [reflexivity|exact H].
  - apply sortedBy_cons in H. destruct H as [Hx Hl]. destruct (IH Hl) as [H1 H2].
    split; [|exact H2]. apply sortedBy_cons. split; [|exact H1].
    intros y Hy. apply Hx. apply in_or_app. left. exact Hy.
Qed.

Lemma sortedBy_between (l : PhraseSegmentation) b e :
  sortedBy CompareAnchoredPhrasePairs l = true ->
  sortedBy CompareAnchoredPhrasePairs (between l b e) = true.
Proof.
  intros H. unfold between.
  rewrite <- (firstn_skipn b l) in H. apply sortedBy_app in H. destruct H as [_ H].
  rewrite <- (firstn_skipn (e - b) (skipn b l)) in H. apply sortedBy_app in H. apply H.
Qed.


(* ------------------------------------------------------------------------- *)
(** ** One sentence at a time *)

Lemma length_mapNth A (f : A -> A) n (l : list A) : length (mapNth n f l) = length l.
Proof.
  revert n; induction l as [|x l IH]; intros [|n]; cbn; try reflexivity.
  rewrite IH; reflexivity.
Qed.

Lemma nth_error_mapNth_other A (f : A -> A) n k (l : list A) :
  k <> n -> nth_error (mapNth n f l) k = nth_error l k.
Proof.
  revert n k; induction l as [|x l IH]; intros [|n] [|k] Hne; cbn; try reflexivity.
  - congruence.
  - apply IH. congruence.
Qed.

Lemma in_insertRightToLeft m m' ms :
  In m (insertRightToLeft m' ms) -> m = m' \/ In m ms.
Proof.
  induction ms as [|m0 ms IH]; cbn [insertRightToLeft].
  - intros [<-|[]]. left; reflexivity.
  - destruct (from m0 <? from m').
    + intros [<-|H]; [left; reflexivity|right; exact H].
    + intros [<-|H]; [right; left; reflexivity|].
      destruct (IH H) as [->|H']; [left; reflexivity|right; right; exact H'].
Qed.

Lemma in_rightToLeft m ms : In m (rightToLeft ms) -> In m ms.
Proof.
  induction ms as [|m0 ms IH]; cbn [rightToLeft fold_right]; [auto|].
  intros H. apply in_insertRightToLeft in H. destruct H as [->|H].
  - left; reflexivity.
  - right. apply IH. exact H.
Qed.

Lemma fold_applyModification_elsewhere ms :
  forall sentences k,
    (forall m, In m ms -> Z.to_nat (sentno m) <> k) ->
    length (fold_left applyModification ms sentences) = length sentences
    /\ nth_error (fold_left applyModification ms sentences) k = nth_error sentences k.
Proof.
  induction ms as [|m ms IH]; intros sentences k H; cbn [fold_left].
  - split; reflexivity.
  - destruct (IH (applyModification sentences m) k) as [Hl Hn].
    { intros m' Hm'. apply H. right. exact Hm'. }
    rewrite Hl, Hn. unfold applyModification. rewrite length_mapNth.
    split; [reflexivity|]. apply nth_error_mapNth_other.
    intros E. apply (H m (or_introl eq_refl)). congruence.
Qed.

Lemma applyModifications_elsewhere ms sentences k :
  (forall m, In m ms -> Z.to_nat (sentno m) <> k) ->
  length (applyModifications ms sentences) = length sentences
  /\ nth_error (applyModifications ms sentences) k = nth_error sentences k.
Proof.
  intros H. unfold applyModifications. apply fold_applyModification_elsewhere.
  intros m Hm. apply H. apply in_rightToLeft. exact Hm.
Qed.

Lemma applyAtIterators_elsewhere ms sentences k :
  (forall m, In m ms -> Z.to_nat (sentno m) <> k) ->
  length (applyAtIterators ms sentences) = length sentences
  /\ nth_error (applyAtIterators ms sentences) k = nth_error sentences k.
Proof.
  intros H. unfold applyAtIterators. apply applyModifications_elsewhere.
  intros m Hm. apply in_map_iff in Hm. destruct Hm as (m0 & <- & Hm0).
  cbn [atIterators sentno]. apply H. exact Hm0.
Qed.

Lemma fixed_by_map A (f : A -> A) (l : list A) x :
  map f l = l -> In x l -> f x = x.
Proof.
  induction l as [|y l IH]; cbn; [tauto|].
  intros E Hin. injection E as E1 E2.
  destruct Hin as [<-|Hin]; [exact E1|apply IH; assumption].
Qed.

(** What every operator's step is made of: the sentence it was drawn for and
    modifications whose iterators lie in that sentence. *)
Lemma step_in_sentence op doc rnd step rnd' :
  validDocument doc ->
  match op with
  | ResegmentOperation _ => Forall coversExactly (getPhraseTranslations doc)
  | _ => True
  end ->
  StateOperation_createSearchStep op doc rnd = Returns (Some step) rnd' ->
  exists sno sent,
    nth_error (getPhraseSegmentations doc) (Z.to_nat sno) = Some sent
    /\ forall m, In m (getModifications step) ->
                 sentno m = sno /\ (from_it m <= to_it m <= length sent)%nat.
Proof.
  intros Hd Hc Hrun.
  destruct op as [|d|d|d|b r rd ld|d]; cbn [StateOperation_createSearchStep] in Hrun.
  - destruct (ChangePhraseTranslation_run rnd Hd)
      as (sno & sent & pcoll & ph & old & pp & r'
          & _ & Hnth & _ & _ & _ & Hph & _ & _ & Hrun').
    rewrite Hrun' in Hrun. destruct (pair_eqb old pp); [discriminate|].
    inversion Hrun; subst step rnd'. exists sno, sent. split; [exact Hnth|].
    intros m [<-|[]]. cbn. split; [reflexivity|lia].
  - apply PermutePhrases_returns in Hrun.
    destruct Hrun as (sno & sent & start & oe & pg & Hnth & _ & Hr & _ & Hrest).
    cbv zeta in Hrest. destruct Hrest as (_ & Hpq & _ & ->).
    exists sno, sent. split; [exact Hnth|].
    intros m [<-|[]]. cbn. split; [reflexivity|lia].
  - apply LinearisePhrases_returns in Hrun.
    destruct Hrun as (sno & sent & start & oe & Hnth & _ & Hr & Hrest).
    cbv zeta in Hrest. destruct Hrest as (_ & _ & Hpq & _ & ->).
    exists sno, sent. split; [exact Hnth|].
    intros m [<-|[]]. cbn. split; [reflexivity|lia].
  - destruct (SwapPhrases_run d rnd Hd)
      as (sno & sent & r1 & _ & Hnth & Hv & Hshort & Hlong).
    destruct (Z.lt_ge_cases (size sent) 2) as [Hlt|Hge].
    { rewrite (Hshort Hlt) in Hrun. discriminate. }
    destruct (Hlong Hge)
      as (p1 & dir & p2 & r2 & x1 & x2 & _ & _ & Hp1 & _ & _ & _ & Hright & Hleft & _ & _ & Hrun').
    rewrite Hrun' in Hrun. inversion Hrun; subst step rnd'.
    destruct (size_valid Hv) as [Hsz _].
    assert (Hp2 : 0 <= p2 < size sent)
      by (destruct dir; [specialize (Hright eq_refl)|specialize (Hleft eq_refl)]; lia).
    exists sno, sent. split; [exact Hnth|].
    intros m [<-|[<-|[]]]; cbn; (split; [reflexivity|lia]).
  - destruct (MovePhrases_run b r rd ld rnd Hd)
      as (sno & sent & r1 & _ & Hnth & Hv & Hshort & Hlong).
    destruct (Z.lt_ge_cases (size sent) 2) as [Hlt|Hge].
    { rewrite (Hshort Hlt) in Hrun. discriminate. }
    destruct (Hlong Hge)
      as (dir & start & block & dest & r2 & _ & Hb & Hdst & Hright & Hleft & Hrun').
    rewrite Hrun' in Hrun. inversion Hrun; subst step rnd'.
    destruct (size_valid Hv) as [Hsz _].
    assert (Hst : 0 <= start /\ start + block <= size sent)
      by (destruct dir; [specialize (Hright eq_refl)|specialize (Hleft eq_refl)]; lia).
    exists sno, sent. split; [exact Hnth|].
    intros m [<-|[<-|[]]]; cbn; (split; [reflexivity|lia]).
  - pose proof Hrun as Hrun0. apply Resegment_returns in Hrun.
    destruct Hrun as (sno & sent & pcoll & start & oe & newseg & r
                      & Hnth & Hcoll & _ & Hr & Hprop & Hrest).
    cbv zeta in Hrest. destruct Hrest as (Hp & Hpq & ->).
    rewrite Forall_forall in Hc.
    destruct (Hc pcoll (nth_error_In _ _ Hcoll)
                (coverage (between sent (Z.to_nat start) oe)) r) as [Hvn Hcov].
    rewrite Hprop in Hvn, Hcov. cbn [fst] in Hvn, Hcov.
    destruct (valid_sentence _ Hd Hnth) as (_ & _ & Hvs).
    destruct (@Resegment_slices_cover_alike sent (Z.to_nat start) oe newseg
                Hvs Hvn Hr Hcov Hp Hpq) as [Hends _].
    rewrite length_between in Hends by exact Hr.
    exists sno, sent. split; [exact Hnth|].
    intros m [<-|[]]. cbn. split; [reflexivity|lia].
Qed.

(** X8.  Every step touches exactly one sentence of the document: all its
    modifications name the same sentence, their iterators lie in it, and
    applying the step, by index ranges or by old slices, keeps the number of
    sentences and leaves every other sentence as it was. *)
Theorem step_touches_one_sentence op doc rnd step rnd' :
  validDocument doc ->
  match op with
  | ResegmentOperation _ => Forall coversExactly (getPhraseTranslations doc)
  | _ => True
  end ->
  StateOperation_createSearchStep op doc rnd = Returns (Some step) rnd' ->
  exists sno sent,
    nth_error (getPhraseSegmentations doc) (Z.to_nat sno) = Some sent
    /\ (forall m, In m (getModifications step) ->
                  sentno m = sno /\ (from_it m <= to_it m <= length sent)%nat)
    /\ length (applyModifications (getModifications step) (getPhraseSegmentations doc))
       = length (getPhraseSegmentations doc)
    /\ length (applyAtIterators (getModifications step) (getPhraseSegmentations doc))
       = length (getPhraseSegmentations doc)
    /\ forall k, k <> Z.to_nat sno ->
         nth_error (applyModifications (getModifications step)
                      (getPhraseSegmentations doc)) k
         = nth_error (getPhraseSegmentations doc) k
         /\ nth_error (applyAtIterators (getModifications step)
                         (getPhraseSegmentations doc)) k
            = nth_error (getPhraseSegmentations doc) k.
Proof.
  intros Hd Hc Hrun.
  destruct (step_in_sentence op rnd Hd Hc Hrun) as (sno & sent & Hnth & Hm).
  exists sno, sent. split; [exact Hnth|]. split; [exact Hm|].
  assert (Hother : forall k, k <> Z.to_nat sno ->
                     forall m, In m (getModifications step) -> Z.to_nat (sentno m) <> k).
  { intros k Hk m Hin. destruct (Hm m Hin) as [-> _]. congruence. }
  split; [|split].
  - apply (@applyModifications_elsewhere _ _ (S (Z.to_nat sno))).
    apply Hother. lia.
  - apply (@applyAtIterators_elsewhere _ _ (S (Z.to_nat sno))).
    apply Hother. lia.
  - intros k Hk. split.
    + apply applyModifications_elsewhere. apply Hother. exact Hk.
    + apply applyAtIterators_elsewhere. apply Hother. exact Hk.
Qed.

Lemma step_touches_one_sentence_witness :
  validDocument docABC
  /\ exists step rnd',
      StateOperation_createSearchStep (SwapPhrasesOperation (1 # 2)) docABC
        (tape [0; 0; 1]) = Returns (Some step) rnd'
      /\ length (applyModifications (getModifications step) (getPhraseSegmentations docABC))
         = length (getPhraseSegmentations docABC).
Proof.
  assert (Hd : validDocument docABC) by valid_document.
  split; [exact Hd|].
  eexists; eexists. split; [reflexivity|].
  destruct (@step_touches_one_sentence (SwapPhrasesOperation (1 # 2)) docABC
              (tape [0; 0; 1]) _ _ Hd I eq_refl) as (sno & sent & _ & _ & Hlen & _).
  exact Hlen.
Defined.

(* ------------------------------------------------------------------------- *)
(** ** Index ranges and old slices *)

(** X9.  In a step of ChangePhraseTranslation, PermutePhrases, SwapPhrases or
    MovePhrases on a valid document, the index range of every modification
    is the range between its iterators: it lies in the sentence and the
    phrases it delimits are the old slice the step recorded. *)
Theorem index_range_is_old_slice op doc rnd step rnd' m :
  validDocument doc ->
  match op with
  | LinearisePhrasesOperation _ | ResegmentOperation _ => False
  | _ => True
  end ->
  StateOperation_createSearchStep op doc rnd = Returns (Some step) rnd' ->
  In m (getModifications step) ->
  exists sent,
    nth_error (getPhraseSegmentations doc) (Z.to_nat (sentno m)) = Some sent
    /\ from m = Z.of_nat (from_it m) /\ to m = Z.of_nat (to_it m)
    /\ 0 <= from m <= to m /\ to m <= Z.of_nat (length sent)
    /\ oldSlice sent m = between sent (Z.to_nat (from m)) (Z.to_nat (to m)).
Proof.
  intros Hd Hop Hrun Hin.
  assert (Hc : match op with
               | ResegmentOperation _ => Forall coversExactly (getPhraseTranslations doc)
               | _ => True
               end) by (destruct op; tauto).
  destruct (step_in_sentence op rnd Hd Hc Hrun) as (sno & sent & Hnth & Hm).
  destruct (Hm m Hin) as [Hsno Hit].
  assert (Hfix : map atIterators (getModifications step) = getModifications step).
  { destruct op as [|d|d|d|b r rd ld|d]; try contradiction;
      cbn [StateOperation_createSearchStep] in Hrun.
    - eapply ChangePhraseTranslation_consistent; eassumption.
    - eapply PermutePhrases_consistent; eassumption.
    - eapply SwapPhrases_consistent; eassumption.
    - eapply MovePhrases_consistent; eassumption. }
  pose proof (@fixed_by_map _ atIterators _ _ Hfix Hin) as E.
  assert (Ef : from m = Z.of_nat (from_it m))
    by (rewrite <- E at 1; reflexivity).
  assert (Et : to m = Z.of_nat (to_it m))
    by (rewrite <- E at 1; reflexivity).
  exists sent. rewrite Hsno. splits; try assumption; try lia.
  unfold oldSlice. rewrite Ef, Et, !Nat2Z.id. reflexivity.
Qed.

Lemma index_range_is_old_slice_witness :
  validDocument docABCDE
  /\ exists step rnd',
      StateOperation_createSearchStep
        (MovePhrasesOperation (1 # 2) (1 # 2) (1 # 2) (1 # 2)) docABCDE
        (tape [0; 1; 1; 1; 1]) = Returns (Some step) rnd'
      /\ forall m, In m (getModifications step) -> to m = Z.of_nat (to_it m).
Proof.
  assert (Hd : validDocument docABCDE) by valid_document.
  split; [exact Hd|].
  eexists; eexists. split; [reflexivity|].
  intros m Hin.
  destruct (@index_range_is_old_slice
              (MovePhrasesOperation (1 # 2) (1 # 2) (1 # 2) (1 # 2)) docABCDE
              (tape [0; 1; 1; 1; 1]) _ _ m Hd I eq_refl Hin)
    as (sent & _ & _ & Et & _).
  exact Et.
Defined.

(* ------------------------------------------------------------------------- *)
(** ** The document stays valid *)








(* ------------------------------------------------------------------------- *)
(** ** What PermutePhrases, LinearisePhrases and Resegment put in place *)

(** X11.  A step of PermutePhrases on a valid document stands for the shuffle of
    a run of the sentence: replacing the index range by the proposal gives
    the sentence in which the whole selected run is replaced by its shuffled
    copy, which is a rearrangement of the run other than the run itself.
    The proposal is a rearrangement of the old slice, and both have at least
    two phrases. *)
Theorem PermutePhrases_rearranges_a_run d doc rnd step rnd' :
  validDocument doc ->
  PermutePhrasesOperation.createSearchStep d doc rnd = Returns (Some step) rnd' ->
  exists sno sent os oe pg m,
    getModifications step = [m] /\ sentno m = sno
    /\ nth_error (getPhraseSegmentations doc) (Z.to_nat sno) = Some sent
    /\ (os < oe <= length sent)%nat
    /\ Permutation (between sent os oe) pg
    /\ pg <> between sent os oe
    /\ (os <= from_it m)%nat /\ (to_it m <= oe)%nat
    /\ Permutation (oldSlice sent m) (proposal m)
    /\ (2 <= length (proposal m))%nat
    /\ replaceRange sent m = firstn os sent ++ pg ++ skipn oe sent
    /\ replaceIteratorRange sent m = replaceRange sent m.
Proof.
  intros Hd Hrun. apply PermutePhrases_returns in Hrun.
  destruct Hrun as (sno & sent & start & oe & pg & Hnth & Hs & Hr & Hperm & Hrest).
  cbv zeta in Hrest. destruct Hrest as (Hp & Hpq & Hpf & ->).
  set (os := Z.to_nat start) in *. set (orig := between sent os oe) in *.
  set (p := commonPrefix pair_eqb orig pg) in *.
  set (q := commonPrefix pair_eqb (rev orig) (rev pg)) in *.
  destruct (valid_sentence _ Hd Hnth) as (_ & Hlen & _).
  assert (Hlo : length orig = (oe - os)%nat) by (apply length_between; exact Hr).
  pose proof (Permutation_length Hperm) as Hlp. fold orig in Hlp.
  assert (Hple : (p <= length orig)%nat) by apply commonPrefix_le.
  assert (Hends : (p + q < length orig)%nat)
    by (apply (@same_length_ends_apart orig pg); [exact Hlp|fold p; lia]).
  destruct (@trimmed_indices start os oe p q (length sent) (length pg))
    as [Hfrom Hto]; try assumption; try reflexivity; try lia.
  set (m := mkModification sno (start +u Z.of_nat p)
              (start +u Z.of_nat p +u (Z.of_nat (length pg - q) - Z.of_nat p))
              (os + p) (oe - q) (between pg p (length pg - q))).
  assert (Hold : oldSlice sent m = between orig p (length orig - q)).
  { unfold oldSlice. cbn [from_it to_it m]. apply old_slice_of_run; lia. }
  assert (Hmid : Permutation (oldSlice sent m) (proposal m)).
  { rewrite Hold. cbn [proposal m].
    apply (@trimmed_middle_Permutation orig pg Hperm). fold p. fold q. lia. }
  assert (Hrep : replaceRange sent m = firstn os sent ++ pg ++ skipn oe sent).
  { unfold replaceRange. cbn [from to proposal m]. rewrite Hfrom, Hto.
    apply (@trimmed_replacement_full sent os oe pg Hr); fold orig; fold p; fold q; lia. }
  exists sno, sent, os, oe, pg, m.
  splits; try assumption; try reflexivity; try (cbn [from_it to_it m]; lia).
  - intros E. apply Hp. fold orig in E. unfold p. rewrite E. apply commonPrefix_refl.
  - rewrite <- (Permutation_length Hmid).
    apply (@rearranged_slices_have_two (oldSlice sent m) (proposal m) Hmid).
    + rewrite Hold. apply nonempty_length. rewrite length_between; lia.
    + rewrite Hold. cbn [proposal m].
      apply (trimmed_share_no_end pair_eqb orig pg).
  - unfold replaceIteratorRange, replaceRange. cbn [from to from_it to_it proposal m].
    rewrite Hfrom, Hto. reflexivity.
Qed.

Lemma PermutePhrases_rearranges_a_run_witness :
  validDocument docABC
  /\ exists step rnd' m,
      PermutePhrasesOperation.createSearchStep (1 # 2) docABC (tape [0; 1; 0; 0])
      = Returns (Some step) rnd'
      /\ getModifications step = [m]
      /\ Permutation (oldSlice [phraseA; phraseB; phraseC] m) (proposal m).
Proof.
  assert (Hd : validDocument docABC) by valid_document.
  split; [exact Hd|].
  assert (Hrun : PermutePhrasesOperation.createSearchStep (1 # 2) docABC (tape [0; 1; 0; 0])
                 = Returns (Some (mkSearchStep (PermutePhrasesOperation (1 # 2))
                                    [mkModification 0 0 2 0 2 [phraseB; phraseA]]))
                     (mkRandom (source (tape [0; 1; 0; 0])) 4))
    by reflexivity.
  destruct (PermutePhrases_rearranges_a_run _ _ Hd Hrun)
    as (sno & sent & os & oe & pg & m & Hm & Hsno & Hnth & _ & _ & _ & _ & _ & Hperm & _).
  cbn [getModifications] in Hm. injection Hm as Hm. subst m.
  cbn [sentno] in Hsno. subst sno. cbn in Hnth. injection Hnth as Hnth. subst sent.
  eexists; eexists; eexists. split; [exact Hrun|]. split; [reflexivity|exact Hperm].
Defined.

Lemma LinearisePhrases_step d doc rnd step rnd' :
  validDocument doc ->
  LinearisePhrasesOperation.createSearchStep d doc rnd = Returns (Some step) rnd' ->
  exists sno sent os0 oe m,
    let k := adjacent_find (not2 CompareAnchoredPhrasePairs) (between sent os0 oe) in
    let os := (os0 + k)%nat in
    let orig := between sent os oe in
    let pg := sort CompareAnchoredPhrasePairs orig in
    let q := commonPrefix pair_eqb (rev orig) (rev pg) in
    getModifications step = [m] /\ sentno m = sno
    /\ nth_error (getPhraseSegmentations doc) (Z.to_nat sno) = Some sent
    /\ partitionsSource sent = true
    /\ (S os < oe <= length sent)%nat
    /\ (q < oe - os)%nat
    /\ Z.to_nat (from m) = os0 /\ Z.to_nat (to m) = (os0 + (oe - os) - q)%nat
    /\ from_it m = os /\ to_it m = (oe - q)%nat
    /\ proposal m = between pg 0 (length pg - q)
    /\ commonPrefix pair_eqb orig pg = 0%nat
    /\ length pg = (oe - os)%nat.
Proof.
  intros Hd Hrun. apply LinearisePhrases_returns in Hrun.
  destruct Hrun as (sno & sent & start & oe & Hnth & Hs & Hr & Hrest).
  cbv zeta in Hrest. destruct Hrest as (Hne & Hle & Hpq & Hpf & ->).
  destruct (valid_sentence _ Hd Hnth) as (_ & Hlen & Hpart).
  destruct (@LinearisePhrases_head sent (Z.to_nat start) oe Hpart Hr Hne)
    as (x & h & _ & _ & _ & _ & Hlong & Hp0 & Hq & Hlpg).
  rewrite Hp0 in *.
  set (os0 := Z.to_nat start) in *.
  set (k := adjacent_find (not2 CompareAnchoredPhrasePairs) (between sent os0 oe)) in *.
  set (os := (os0 + k)%nat) in *.
  set (orig := between sent os oe) in *.
  set (pg := sort CompareAnchoredPhrasePairs orig) in *.
  set (q := commonPrefix pair_eqb (rev orig) (rev pg)) in *.
  destruct (@trimmed_indices start os0 (os0 + (oe - os)) 0 q (length sent) (length pg))
    as [Hfrom Hto]; try assumption; try reflexivity; try lia.
  eexists sno, sent, os0, oe, _. cbv zeta.
  fold k. fold os. fold orig. fold pg. fold q.
  splits; try reflexivity; try assumption; try lia.
  all: cbn [from to from_it to_it proposal]; rewrite ?Hfrom, ?Hto; lia.
Qed.

(** X12.  A step of LinearisePhrases on a valid document sorts the part of the
    selected run that begins at its first out-of-order pair: replacing the
    old slice by the proposal gives the sentence in which that part, up to
    the end of the run, is sorted by anchor, and nothing else has moved.  The
    proposal is the old slice in sorted order, of at least two phrases. *)
Theorem LinearisePhrases_sorts_tail_of_run d doc rnd step rnd' :
  validDocument doc ->
  LinearisePhrasesOperation.createSearchStep d doc rnd = Returns (Some step) rnd' ->
  exists sno sent os0 os oe m x y,
    getModifications step = [m] /\ sentno m = sno
    /\ nth_error (getPhraseSegmentations doc) (Z.to_nat sno) = Some sent
    /\ (os0 <= os)%nat /\ (S os < oe <= length sent)%nat
    /\ os = (os0 + adjacent_find (not2 CompareAnchoredPhrasePairs) (between sent os0 oe))%nat
    /\ nth_error sent os = Some x /\ nth_error sent (S os) = Some y
    /\ CompareAnchoredPhrasePairs x y = false
    /\ replaceIteratorRange sent m
       = firstn os sent ++ sort CompareAnchoredPhrasePairs (between sent os oe)
           ++ skipn oe sent
    /\ sortedBy CompareAnchoredPhrasePairs
         (sort CompareAnchoredPhrasePairs (between sent os oe)) = true
    /\ Permutation (oldSlice sent m) (proposal m)
    /\ sortedBy CompareAnchoredPhrasePairs (proposal m) = true
    /\ (2 <= length (proposal m))%nat.
Proof.
  intros Hd Hrun.
  destruct (LinearisePhrases_step _ _ Hd Hrun) as (sno & sent & os0 & oe & m & Hstep).
  cbv zeta in Hstep.
  set (k := adjacent_find (not2 CompareAnchoredPhrasePairs) (between sent os0 oe)) in *.
  set (os := (os0 + k)%nat) in *.
  set (orig := between sent os oe) in *.
  set (pg := sort CompareAnchoredPhrasePairs orig) in *.
  set (q := commonPrefix pair_eqb (rev orig) (rev pg)) in *.
  destruct Hstep as (Hm & Hsno & Hnth & Hpart & Hr & Hq & Hfrom & Hto & Hfi & Hti
                     & Hprop & Hp0 & Hlpg).
  assert (Hlo : length orig = (oe - os)%nat) by (apply length_between; lia).
  assert (Hk : k <> length (between sent os0 oe)).
  { rewrite length_between by lia. lia. }
  destruct (adjacent_find_found _ _ Hk) as (x & y & Hx & Hy & Hxy). fold k in Hx, Hy.
  rewrite nth_error_between in Hx by lia. rewrite nth_error_between in Hy by lia.
  replace (os0 + S k)%nat with (S os) in Hy by lia. fold os in Hx.
  assert (Hold : oldSlice sent m = between orig 0 (length orig - q)).
  { unfold oldSlice. rewrite Hfi, Hti.
    rewrite <- (Nat.add_0_r os) at 1. apply old_slice_of_run; lia. }
  assert (Hperm : Permutation orig pg) by apply sort_Permutation.
  assert (Hmid : Permutation (oldSlice sent m) (proposal m)).
  { rewrite Hold, Hprop.
    pose proof (@trimmed_middle_Permutation orig pg Hperm) as T.
    cbv zeta in T. fold q in T. rewrite Hp0 in T. apply T. lia. }
  exists sno, sent, os0, os, oe, m, x, y.
  splits; try assumption; try reflexivity; try lia.
  - unfold not2 in Hxy. apply negb_true_iff in Hxy. exact Hxy.
  - unfold replaceIteratorRange. rewrite Hfi, Hti, Hprop.
    pose proof (@trimmed_replacement_full sent os oe pg ltac:(lia)) as T.
    cbv zeta in T. fold orig in T. fold q in T. rewrite Hp0, Nat.add_0_r in T.
    apply T; lia.
  - apply sort_sorted.
  - rewrite Hprop. apply sortedBy_between. apply sort_sorted.
  - rewrite <- (Permutation_length Hmid).
    apply (@rearranged_slices_have_two (oldSlice sent m) (proposal m) Hmid).
    + rewrite Hold. apply nonempty_length. rewrite length_between; lia.
    + rewrite Hold, Hprop.
      pose proof (trimmed_share_no_end pair_eqb orig pg) as T.
      cbv zeta in T. fold q in T. rewrite Hp0 in T. apply T.
Qed.

Lemma LinearisePhrases_sorts_tail_of_run_witness :
  validDocument docBCA
  /\ exists step rnd',
      LinearisePhrasesOperation.createSearchStep (1 # 2) docBCA (tape [0; 2; 0])
      = Returns (Some step) rnd'
      /\ exists m, getModifications step = [m]
                   /\ sortedBy CompareAnchoredPhrasePairs (proposal m) = true.
Proof.
  assert (Hd : validDocument docBCA) by valid_document.
  split; [exact Hd|].
  assert (Hrun : LinearisePhrasesOperation.createSearchStep (1 # 2) docBCA (tape [0; 2; 0])
                 = Returns (Some (mkSearchStep (LinearisePhrasesOperation (1 # 2))
                                    [mkModification 0 0 2 1 3 [phraseA; phraseC]]))
                     (mkRandom (source (tape [0; 2; 0])) 3))
    by reflexivity.
  eexists; eexists. split; [exact Hrun|].
  destruct (LinearisePhrases_sorts_tail_of_run _ _ Hd Hrun)
    as (sno & sent & os0 & os & oe & m & x & y & Hm & _ & _ & _ & _ & _ & _ & _ & _ & _ & _
        & _ & Hsorted & _).
  exists m. split; [exact Hm|exact Hsorted].
Defined.

(** X13.  The index range of a step of LinearisePhrases starts at the start of
    the selected run, while its old slice starts at the first out-of-order
    pair of the run; both ranges have the length of the proposal.  The two
    coincide exactly when the run begins with an out-of-order pair, and then
    replacing the index range leaves the whole selected run sorted. *)
Theorem LinearisePhrases_index_range_starts_at_run d doc rnd step rnd' :
  validDocument doc ->
  LinearisePhrasesOperation.createSearchStep d doc rnd = Returns (Some step) rnd' ->
  exists sno sent os0 oe m,
    let k := adjacent_find (not2 CompareAnchoredPhrasePairs) (between sent os0 oe) in
    getModifications step = [m] /\ sentno m = sno
    /\ nth_error (getPhraseSegmentations doc) (Z.to_nat sno) = Some sent
    /\ (os0 + k < oe <= length sent)%nat
    /\ Z.to_nat (from m) = os0
    /\ from_it m = (os0 + k)%nat
    /\ (Z.to_nat (to m) - Z.to_nat (from m))%nat = length (proposal m)
    /\ (to_it m - from_it m)%nat = length (proposal m)
    /\ (Z.to_nat (from m) = from_it m <-> k = 0%nat)
    /\ (k = 0%nat ->
        replaceRange sent m
        = firstn os0 sent ++ sort CompareAnchoredPhrasePairs (between sent os0 oe)
            ++ skipn oe sent).
Proof.
  intros Hd Hrun.
  destruct (LinearisePhrases_step _ _ Hd Hrun) as (sno & sent & os0 & oe & m & Hstep).
  cbv zeta in Hstep.
  set (k := adjacent_find (not2 CompareAnchoredPhrasePairs) (between sent os0 oe)) in *.
  set (os := (os0 + k)%nat) in *.
  set (orig := between sent os oe) in *.
  set (pg := sort CompareAnchoredPhrasePairs orig) in *.
  set (q := commonPrefix pair_eqb (rev orig) (rev pg)) in *.
  destruct Hstep as (Hm & Hsno & Hnth & Hpart & Hr & Hq & Hfrom & Hto & Hfi & Hti
                     & Hprop & Hp0 & Hlpg).
  assert (Hlp : length (proposal m) = (oe - os - q)%nat).
  { rewrite Hprop, length_between by lia. lia. }
  assert (Hlo : length orig = (oe - os)%nat) by (apply length_between; lia).
  exists sno, sent, os0, oe, m. cbv zeta. fold k.
  splits; try assumption; try lia.
  intros Hk0.
  assert (Eos : os = os0) by (unfold os; lia).
  unfold replaceRange. rewrite Hfrom, Hto, Hprop.
  replace (os0 + (oe - os) - q)%nat with (oe - q)%nat by lia.
  replace (between sent os0 oe) with orig by (unfold orig; rewrite Eos; reflexivity).
  fold pg. rewrite <- Eos.
  pose proof (@trimmed_replacement_full sent os oe pg ltac:(lia)) as T.
  cbv zeta in T. fold orig in T. fold q in T. rewrite Hp0, Nat.add_0_r in T.
  apply T; lia.
Qed.

Lemma LinearisePhrases_index_range_starts_at_run_witness :
  validDocument docBCA
  /\ exists step rnd' m,
      LinearisePhrasesOperation.createSearchStep (1 # 2) docBCA (tape [0; 2; 0])
      = Returns (Some step) rnd'
      /\ getModifications step = [m]
      /\ (to_it m - from_it m)%nat = length (proposal m).
Proof.
  assert (Hd : validDocument docBCA) by valid_document.
  split; [exact Hd|].
  assert (Hrun : LinearisePhrasesOperation.createSearchStep (1 # 2) docBCA (tape [0; 2; 0])
                 = Returns (Some (mkSearchStep (LinearisePhrasesOperation (1 # 2))
                                    [mkModification 0 0 2 1 3 [phraseA; phraseC]]))
                     (mkRandom (source (tape [0; 2; 0])) 3))
    by reflexivity.
  destruct (LinearisePhrases_index_range_starts_at_run _ _ Hd Hrun)
    as (sno & sent & os0 & oe & m & Hm & _ & _ & _ & _ & _ & _ & Hlen & _).
  eexists; eexists; exists m. split; [exact Hrun|]. split; [exact Hm|exact Hlen].
Defined.



(* ------------------------------------------------------------------------- *)
(** ** Resegment *)

Lemma partitionsSource_app_iff l1 l2 :
  partitionsSource (l1 ++ l2) = true
  <-> partitionsSource l1 = true /\ partitionsSource l2 = true
      /\ N.land (coverage l1) (coverage l2) = 0%N.
Proof.
  split; [apply partitionsSource_app|].
  induction l1 as [|x l1 IH]; cbn [app]; intros (H1 & H2 & H3); [exact H2|].
  apply partitionsSource_cons in H1. destruct H1 as (Hx & Hd & Hp).
  rewrite coverage_cons in H3. rewrite N.land_comm in H3.
  apply land_lor_split in H3. destruct H3 as [H3x H3l].
  apply partitionsSource_cons. splits.
  - exact Hx.
  - rewrite coverage_app. apply land_lor_split. split; [exact Hd|].
    rewrite N.land_comm. exact H3x.
  - apply IH. splits; try assumption. rewrite N.land_comm. exact H3l.
Qed.

Lemma Resegment_step d doc rnd step rnd' :
  validDocument doc ->
  Forall coversExactly (getPhraseTranslations doc) ->
  ResegmentOperation.createSearchStep d doc rnd = Returns (Some step) rnd' ->
  exists sno sent pcoll os oe newseg r m,
    let orig := between sent os oe in
    let p := commonPrefix pair_eqb orig newseg in
    let q := commonPrefix pair_eqb (rev orig) (rev newseg) in
    getModifications step = [m] /\ sentno m = sno
    /\ nth_error (getPhraseSegmentations doc) (Z.to_nat sno) = Some sent
    /\ nth_error (getPhraseTranslations doc) (Z.to_nat sno) = Some pcoll
    /\ partitionsSource sent = true /\ Z.of_nat (length sent) < Uint.modulus
    /\ (os <= oe <= length sent)%nat
    /\ proposeSegmentation pcoll (coverage orig) r = (newseg, rnd')
    /\ partitionsSource newseg = true /\ coverage newseg = coverage orig
    /\ p <> length orig
    /\ (p + q <= length newseg)%nat /\ (p + q <= length orig)%nat
    /\ from m = Z.of_nat (os + p)
    /\ to m = Uint.wrap (Z.of_nat (os + p) + Z.of_nat (length newseg - q - p))
    /\ from_it m = (os + p)%nat /\ to_it m = (oe - q)%nat
    /\ proposal m = between newseg p (length newseg - q).
Proof.
  intros Hd Hc Hrun. apply Resegment_returns in Hrun.
  destruct Hrun as (sno & sent & pcoll & start & oe & newseg & r
                    & Hnth & Hcoll & Hs & Hr & Hprop & Hrest).
  cbv zeta in Hrest. destruct Hrest as (Hp & Hpq & ->).
  rewrite Forall_forall in Hc.
  destruct (Hc pcoll (nth_error_In _ _ Hcoll)
              (coverage (between sent (Z.to_nat start) oe)) r) as [Hvn Hcov].
  rewrite Hprop in Hvn, Hcov. cbn [fst] in Hvn, Hcov.
  destruct (valid_sentence _ Hd Hnth) as (_ & Hlen & Hvs).
  destruct (@Resegment_slices_cover_alike sent (Z.to_nat start) oe newseg
              Hvs Hvn Hr Hcov Hp Hpq) as [Hends _].
  set (os := Z.to_nat start) in *. set (orig := between sent os oe) in *.
  set (p := commonPrefix pair_eqb orig newseg) in *.
  set (q := commonPrefix pair_eqb (rev orig) (rev newseg)) in *.
  assert (Hlo : length orig = (oe - os)%nat) by (apply length_between; exact Hr).
  assert (Hr' := Hlen). rewrite modulus_eq in Hr'.
  assert (Hq : (q <= length newseg)%nat).
  { pose proof (commonPrefix_le pair_eqb (rev orig) (rev newseg)) as [_ H].
    rewrite length_rev in H. exact H. }
  eexists sno, sent, pcoll, os, oe, newseg, r, _. cbv zeta.
  fold orig. fold p. fold q.
  splits; try reflexivity; try assumption; try lia.
  all: cbn [from to].
  - rewrite add_small by (rewrite modulus_eq; lia). lia.
  - rewrite length_between by lia.
    rewrite (add_small start (Z.of_nat p)) by (rewrite modulus_eq; lia).
    unfold Uint.add. f_equal. lia.
Qed.

(** X15.  A step of Resegment on a valid document whose collections keep the
    contract of [proposeSegmentation] stands for the replacement of the whole
    selected run by the proposed segmentation, which differs from the run:
    replacing the old slice by the proposal gives exactly that sentence.  The
    new sentence is again a partition of the same source positions, and
    neither the old slice nor the proposal is empty. *)
Theorem Resegment_replaces_run_by_proposal d doc rnd step rnd' :
  validDocument doc ->
  Forall coversExactly (getPhraseTranslations doc) ->
  ResegmentOperation.createSearchStep d doc rnd = Returns (Some step) rnd' ->
  exists sno sent pcoll os oe newseg r m,
    getModifications step = [m] /\ sentno m = sno
    /\ nth_error (getPhraseSegmentations doc) (Z.to_nat sno) = Some sent
    /\ nth_error (getPhraseTranslations doc) (Z.to_nat sno) = Some pcoll
    /\ (os < oe <= length sent)%nat
    /\ proposeSegmentation pcoll (coverage (between sent os oe)) r = (newseg, rnd')
    /\ newseg <> between sent os oe
    /\ replaceIteratorRange sent m = firstn os sent ++ newseg ++ skipn oe sent
    /\ partitionsSource (replaceIteratorRange sent m) = true
    /\ coverage (replaceIteratorRange sent m) = coverage sent
    /\ oldSlice sent m <> [] /\ proposal m <> [].
Proof.
  intros Hd Hc Hrun.
  destruct (Resegment_step _ _ Hd Hc Hrun)
    as (sno & sent & pcoll & os & oe & newseg & r & m & Hstep).
  cbv zeta in Hstep.
  set (orig := between sent os oe) in *.
  set (p := commonPrefix pair_eqb orig newseg) in *.
  set (q := commonPrefix pair_eqb (rev orig) (rev newseg)) in *.
  destruct Hstep as (Hm & Hsno & Hnth & Hcoll & Hvs & Hlen & Hr & Hprop & Hvn & Hcov & Hp
                     & Hpn & Hpo & Hfrom & Hto & Hfi & Hti & Hpr).
  assert (Hlo : length orig = (oe - os)%nat) by (apply length_between; exact Hr).
  assert (Hple : (p <= length orig)%nat) by apply commonPrefix_le.
  destruct (@between_split _ sent os oe Hr) as (Es & _ & _). fold orig in Es.
  assert (Hrep : replaceIteratorRange sent m = firstn os sent ++ newseg ++ skipn oe sent).
  { unfold replaceIteratorRange. rewrite Hfi, Hti, Hpr.
    apply (@trimmed_replacement_full sent os oe newseg Hr); fold orig; fold p; fold q; lia. }
  assert (Hparts : partitionsSource (firstn os sent ++ newseg ++ skipn oe sent) = true
                   /\ coverage (firstn os sent ++ newseg ++ skipn oe sent) = coverage sent).
  { pose proof Hvs as Hvs'. rewrite Es in Hvs'. apply partitionsSource_app_iff in Hvs'.
    destruct Hvs' as (HA & HBC & HdA).
    apply partitionsSource_app_iff in HBC. destruct HBC as (HB & HC & HdB).
    rewrite coverage_app in HdA.
    split.
    - apply partitionsSource_app_iff. splits; [exact HA| |].
      + apply partitionsSource_app_iff. splits; [exact Hvn|exact HC|].
        rewrite Hcov. exact HdB.
      + rewrite coverage_app, Hcov. exact HdA.
    - transitivity (coverage (firstn os sent ++ orig ++ skipn oe sent)).
      + rewrite !coverage_app, Hcov. reflexivity.
      + rewrite <- Es. reflexivity. }
  destruct (@Resegment_proposal_differs sent os oe newseg Hvs Hvn Hr Hcov)
    as (_ & Hmid & x & y & Hx & Hy & Hxy).
  { fold orig. fold p. exact Hp. }
  { fold orig. fold p. fold q. lia. }
  fold orig in Hmid, Hy, Hx. fold p in Hmid, Hy, Hx. fold q in Hmid, Hy.
  exists sno, sent, pcoll, os, oe, newseg, r, m.
  splits; try assumption; try lia.
  - intros E. apply Hp. unfold p. rewrite E. apply commonPrefix_refl.
  - rewrite Hrep. apply Hparts.
  - rewrite Hrep. apply Hparts.
  - unfold oldSlice. rewrite Hfi, Hti. intros E.
    assert (Hcy : coverage (between newseg p (length newseg - q)) <> 0%N).
    { apply partitionsSource_covers.
      - apply partitionsSource_between. exact Hvn.
      - intros E'. rewrite E' in Hy. discriminate. }
    apply Hcy. rewrite Hmid, E. reflexivity.
  - rewrite Hpr. intros E. rewrite E in Hy. discriminate.
Qed.

Lemma Resegment_replaces_run_by_proposal_witness :
  validDocument docAB_C
  /\ Forall coversExactly (getPhraseTranslations docAB_C)
  /\ exists step rnd' m,
      ResegmentOperation.createSearchStep (1 # 2) docAB_C (tape [0; 0; 0])
      = Returns (Some step) rnd'
      /\ getModifications step = [m]
      /\ partitionsSource (replaceIteratorRange [phraseAB; phraseC] m) = true.
Proof.
  assert (Hd : validDocument docAB_C) by valid_document.
  assert (Hc : Forall coversExactly (getPhraseTranslations docAB_C))
    by apply document_contract.
  splits; [exact Hd|exact Hc|].
  assert (Hrun : ResegmentOperation.createSearchStep (1 # 2) docAB_C (tape [0; 0; 0])
                 = Returns (Some (mkSearchStep (ResegmentOperation (1 # 2))
                                    [mkModification 0 0 2 0 1 [phraseA; phraseB]]))
                     (mkRandom (source (tape [0; 0; 0])) 3))
    by reflexivity.
  destruct (Resegment_replaces_run_by_proposal _ _ Hd Hc Hrun)
    as (sno & sent & pcoll & os & oe & newseg & r & m
        & Hm & Hsno & Hnth & _ & _ & _ & _ & _ & Hpart & _).
  cbn [getModifications] in Hm. injection Hm as Hm. subst m.
  cbn [sentno] in Hsno. subst sno. cbn in Hnth. injection Hnth as Hnth. subst sent.
  eexists; eexists; eexists. split; [exact Hrun|]. split; [reflexivity|exact Hpart].
Defined.

(** X16.  In a step of Resegment the index range starts where the old slice
    starts, but its length is the number of proposed phrases, while the old
    slice has the phrases between the iterators: the index range delimits
    the old slice only when the proposal has as many phrases as the old
    slice. *)
Theorem Resegment_index_range_counts_proposal d doc rnd step rnd' :
  validDocument doc ->
  Forall coversExactly (getPhraseTranslations doc) ->
  ResegmentOperation.createSearchStep d doc rnd = Returns (Some step) rnd' ->
  exists sent m,
    getModifications step = [m]
    /\ nth_error (getPhraseSegmentations doc) (Z.to_nat (sentno m)) = Some sent
    /\ from m = Z.of_nat (from_it m)
    /\ to m = Uint.wrap (from m + Z.of_nat (length (proposal m)))
    /\ length (oldSlice sent m) = (to_it m - from_it m)%nat
    /\ (from_it m <= to_it m <= length sent)%nat
    /\ (from m + Z.of_nat (length (proposal m)) < Uint.modulus ->
        (to m = Z.of_nat (to_it m)
         <-> length (proposal m) = length (oldSlice sent m))).
Proof.
  intros Hd Hc Hrun.
  destruct (Resegment_step _ _ Hd Hc Hrun)
    as (sno & sent & pcoll & os & oe & newseg & r & m & Hstep).
  cbv zeta in Hstep.
  set (orig := between sent os oe) in *.
  set (p := commonPrefix pair_eqb orig newseg) in *.
  set (q := commonPrefix pair_eqb (rev orig) (rev newseg)) in *.
  destruct Hstep as (Hm & Hsno & Hnth & Hcoll & Hvs & Hlen & Hr & Hprop & Hvn & Hcov & Hp
                     & Hpn & Hpo & Hfrom & Hto & Hfi & Hti & Hpr).
  assert (Hlo : length orig = (oe - os)%nat) by (apply length_between; exact Hr).
  assert (Hlp : length (proposal m) = (length newseg - q - p)%nat).
  { rewrite Hpr. apply length_between. lia. }
  assert (Hold : length (oldSlice sent m) = (to_it m - from_it m)%nat).
  { unfold oldSlice. apply length_between. rewrite Hfi, Hti. lia. }
  exists sent, m. rewrite Hsno.
  split; [exact Hm|]. split; [exact Hnth|].
  split; [rewrite Hfi; exact Hfrom|].
  split; [rewrite Hto, Hfrom, Hlp; reflexivity|].
  split; [exact Hold|].
  split; [rewrite Hfi, Hti; lia|].
  intros Hsmall. rewrite Hto, Hold. rewrite Hfrom, Hlp in Hsmall.
  rewrite wrap_small by lia. rewrite Hlp, Hfi, Hti. lia.
Qed.

Lemma Resegment_index_range_counts_proposal_witness :
  validDocument docAB_C
  /\ Forall coversExactly (getPhraseTranslations docAB_C)
  /\ exists step rnd' sent m,
      ResegmentOperation.createSearchStep (1 # 2) docAB_C (tape [0; 0; 0])
      = Returns (Some step) rnd'
      /\ getModifications step = [m]
      /\ length (oldSlice sent m) = (to_it m - from_it m)%nat.
Proof.
  assert (Hd : validDocument docAB_C) by valid_document.
  assert (Hc : Forall coversExactly (getPhraseTranslations docAB_C))
    by apply document_contract.
  splits; [exact Hd|exact Hc|].
  assert (Hrun : ResegmentOperation.createSearchStep (1 # 2) docAB_C (tape [0; 0; 0])
                 = Returns (Some (mkSearchStep (ResegmentOperation (1 # 2))
                                    [mkModification 0 0 2 0 1 [phraseA; phraseB]]))
                     (mkRandom (source (tape [0; 0; 0])) 3))
    by reflexivity.
  destruct (Resegment_index_range_counts_proposal _ _ Hd Hc Hrun)
    as (sent & m & Hm & _ & _ & _ & Hold & _).
  eexists; eexists; exists sent, m. split; [exact Hrun|]. split; [exact Hm|exact Hold].
Defined.



(* ------------------------------------------------------------------------- *)
(** ** The shuffles of PermutePhrases *)






(* ------------------------------------------------------------------------- *)
(** ** Resegment and a collection that proposes nothing *)

Lemma bind_abort A B (m : M A) (k : A -> M B) rnd f :
  m rnd = Aborts f -> bind m k rnd = Aborts f.
Proof. unfold bind; intros ->; reflexivity. Qed.

(** X19.  Resegment relies on the collection: when [proposeSegmentation]
    answers with an empty segmentation, [std::mismatch] is handed an empty
    second range for a run of at least one phrase and reads past its end.
    On a valid document this happens for every random source. *)
Theorem Resegment_undefined_for_empty_proposal d doc rnd :
  validDocument doc ->
  Forall (fun pcoll => forall tgt r, fst (proposeSegmentation pcoll tgt r) = [])
         (getPhraseTranslations doc) ->
  ResegmentOperation.createSearchStep d doc rnd = Aborts Undefined.
Proof.
  intros Hd Hempty.
  pose proof (drawSentence_eq rnd Hd) as Hdraw.
  destruct (validDocument_count Hd) as [_ Hpos].
  pose proof (Z.mod_pos_bound (peek rnd) _ Hpos) as Hsno.
  set (sno := peek rnd mod Z.of_nat (length (getPhraseSegmentations doc))) in *.
  destruct (sentence_in_document Hd Hsno) as (sent & Hnth & Hv).
  destruct (collection_in_document Hd Hsno) as (pcoll & Hcoll).
  destruct (size_valid Hv) as [Hsz Hr].
  assert (Hr' := Hr). rewrite modulus_eq in Hr'.
  unfold ResegmentOperation.createSearchStep.
  erewrite bind_eq by exact Hdraw. cbv beta.
  unfold sentenceAt, collectionAt.
  erewrite bind_eq by (apply deref_eq; exact Hnth).
  erewrite bind_eq by (apply deref_eq; exact Hcoll).
  cbv zeta. uint_small. draw.
  replace (size sent - 1 + 1) with (size sent) by lia.
  pose proof (Z.mod_pos_bound (peek (consume rnd)) (size sent) ltac:(lia)) as Hg.
  set (g := peek (consume rnd) mod size sent) in *.
  uint_small. draw.
  pose proof (Z.mod_pos_bound (peek (consume (consume rnd))) (size sent - (g + 1) + 1)
                ltac:(lia)) as Hst.
  set (start := peek (consume (consume rnd)) mod (size sent - (g + 1) + 1)) in *.
  erewrite bind_eq by (apply advance_eq; lia).
  uint_small.
  replace (start + (g + 1) - start) with (g + 1) by lia.
  erewrite bind_eq by (apply advance_eq; lia).
  cbn [Nat.add].
  erewrite bind_eq by (apply copyRange_eq; lia).
  erewrite bind_eq by apply call_eq.
  rewrite Forall_forall in Hempty.
  rewrite (Hempty pcoll (nth_error_In _ _ Hcoll)).
  apply bind_abort. unfold mismatch.
  set (orig := between sent (Z.to_nat start) (Z.to_nat start + Z.to_nat (g + 1))).
  assert (Hlo : length orig = Z.to_nat (g + 1)).
  { unfold orig. rewrite length_between by lia. lia. }
  destruct orig as [|x orig]; [cbn in Hlo; lia|]. reflexivity.
Qed.

Lemma Resegment_undefined_for_empty_proposal_witness :
  ResegmentOperation.createSearchStep (1 # 2)
    (mkDocument [[phraseA; phraseB]]
       [mkCollection (fun pp rnd => (pp, rnd)) (fun _ rnd => ([], rnd)) 2])
    (tape [0; 1; 0])
  = Aborts Undefined.
Proof.
  apply Resegment_undefined_for_empty_proposal.
  - valid_document.
  - repeat constructor.
Defined.
